(** * Single-instance coordination of kitty/utils.py

    A shallow embedding of the single-instance machinery of
    [kitty/utils.py]: [parse_address_spec], [remove_socket_file],
    [unix_socket_paths], [single_instance_unix] and
    [SingleInstance.__call__].

    The Python functions talk to the operating system; they are embedded as
    finite interaction trees ([prog]) whose nodes are the system calls the
    source performs, in the order it performs them.  A handler gives the
    calls a meaning: theorems about error dispatch hold for every handler,
    theorems about files, locks and sockets are proved on a small POSIX-like
    kernel ([Posix]). *)

From Stdlib Require Import ZArith Ascii String List Lia DecimalString DecimalNat.
From stdpp Require Import base option gmap strings list sorting.

Local Open Scope string_scope.
Local Open Scope list_scope.

(** ** Python strings

    A Python [str] is modelled as a [string]; each character stands for a
    code point below 256. *)

Module PyStr.

(** [split_first sep s]: the text before and after the first [sep]. *)
Fixpoint split_first (sep : ascii) (s : string) : option (string * string) :=
  match s with
  | EmptyString => None
  | String c s' =>
      if Ascii.eqb c sep then Some (EmptyString, s')
      else match split_first sep s' with
           | Some (h, t) => Some (String c h, t)
           | None => None
           end
  end.

(** [split_last sep s]: the text before and after the last [sep]. *)
Fixpoint split_last (sep : ascii) (s : string) : option (string * string) :=
  match s with
  | EmptyString => None
  | String c s' =>
      match split_last sep s' with
      | Some (h, t) => Some (String c h, t)
      | None => if Ascii.eqb c sep then Some (EmptyString, s') else None
      end
  end.

(** [s.split(sep, 1)] *)
Definition split1 (sep : ascii) (s : string) : list string :=
  match split_first sep s with
  | Some (h, t) => [h; t]
  | None => [s]
  end.

(** [s.rsplit(sep, 1)] *)
Definition rsplit1 (sep : ascii) (s : string) : list string :=
  match split_last sep s with
  | Some (h, t) => [h; t]
  | None => [s]
  end.

(** [s.rpartition(sep)] *)
Definition rpartition (sep : ascii) (s : string) : string * string * string :=
  match split_last sep s with
  | Some (h, t) => (h, String sep EmptyString, t)
  | None => (EmptyString, EmptyString, s)
  end.

(** [s.startswith(p)] *)
Definition startswith (p s : string) : bool := String.prefix p s.

(** [s[1:]] *)
Definition tail (s : string) : string :=
  match s with
  | EmptyString => EmptyString
  | String _ s' => s'
  end.

(** Truth value of a [str]: the empty string is false. *)
Definition truthy (s : string) : bool :=
  match s with
  | EmptyString => false
  | String _ _ => true
  end.

(** Truth value of an [Optional[str]]: [None] and [''] are false. *)
Definition truthy_opt (o : option string) : bool :=
  match o with
  | None => false
  | Some s => truthy s
  end.

(** [c in s] for a one-character [c]. *)
Fixpoint contains (c : ascii) (s : string) : bool :=
  match s with
  | EmptyString => false
  | String d s' => Ascii.eqb d c || contains c s'
  end.

(** *** [int(s)]

    [int] on a [str], base 10: surrounding white space is dropped, one
    sign is allowed, and the digits may be grouped by single underscores.
    Among the code points below 256 the only decimal digits are 0..9.

    The white space of [str.isspace] and of [\s] is 9..13, 28..32, 133 and
    160.  [int] drops less: it turns the white space above 127 into
    blanks and then strips what C takes for white space, 9..13 and 32, so
    that the separators 28..31 are left in place and make the literal
    invalid. *)

Definition isspace (c : ascii) : bool :=
  let n := nat_of_ascii c in
  (Nat.leb 9 n && Nat.leb n 13) || (Nat.leb 28 n && Nat.leb n 32)
  || Nat.eqb n 133 || Nat.eqb n 160.

Definition int_space (c : ascii) : bool :=
  let n := nat_of_ascii c in
  (Nat.leb 9 n && Nat.leb n 13) || Nat.eqb n 32 || Nat.eqb n 133 || Nat.eqb n 160.

Definition digit_value (c : ascii) : option Z :=
  let n := nat_of_ascii c in
  if Nat.leb 48 n && Nat.leb n 57 then Some (Z.of_nat (n - 48)) else None.

Fixpoint lstrip (s : string) : string :=
  match s with
  | EmptyString => EmptyString
  | String c s' => if int_space c then lstrip s' else s
  end.

Fixpoint rstrip (s : string) : string :=
  match s with
  | EmptyString => EmptyString
  | String c s' =>
      match rstrip s' with
      | EmptyString => if int_space c then EmptyString else String c EmptyString
      | r => String c r
      end
  end.

(** Digits with single underscores between them; [prev] tells whether the
    previous character was a digit. *)
Fixpoint digits (s : string) (acc : Z) (prev : bool) : option Z :=
  match s with
  | EmptyString => if prev then Some acc else None
  | String c s' =>
      match digit_value c with
      | Some d => digits s' (10 * acc + d)%Z true
      | None =>
          if Ascii.eqb c "_" then
            if prev then digits s' acc false else None
          else None
      end
  end.

Definition int (s : string) : option Z :=
  match rstrip (lstrip s) with
  | String "+" r => digits r 0%Z false
  | String "-" r => option_map Z.opp (digits r 0%Z false)
  | r => digits r 0%Z false
  end.

Fixpoint no_space (s : string) : bool :=
  match s with
  | EmptyString => true
  | String c s' => negb (int_space c) && no_space s'
  end.

(** [str(n)] for a natural number. *)
Definition of_nat (n : nat) : string := NilZero.string_of_uint (Nat.to_uint n).

End PyStr.

(** ** Exceptions *)

Inductive errno : Type :=
| EPERM | ENOENT | EBADF | EAGAIN | EACCES | EEXIST | EINVAL | EMFILE
| ENXIO | EADDRINUSE | ECONNREFUSED.

Definition errno_eqb (a b : errno) : bool :=
  match a, b with
  | EPERM, EPERM | ENOENT, ENOENT | EBADF, EBADF | EAGAIN, EAGAIN
  | EACCES, EACCES | EEXIST, EEXIST | EINVAL, EINVAL | EMFILE, EMFILE
  | ENXIO, ENXIO | EADDRINUSE, EADDRINUSE | ECONNREFUSED, ECONNREFUSED => true
  | _, _ => false
  end.

(** The [ValueError]s the module can raise.  [Unknown_protocol spec] is the
    one [parse_address_spec] raises itself, with the message
    ['Unknown protocol in --listen-on value: ' + spec]; the other two are
    raised by Python: by unpacking a sequence that is too short, by
    [int] on text that is not a number (the message quotes that text), and
    by the [os] module on a path with a NUL byte in it (the message is
    ['embedded null byte']). *)
Inductive value_error : Type :=
| Unknown_protocol (spec : string)
| Not_enough_values (expected got : nat)
| Invalid_literal (text : string)
| Embedded_null.

Inductive exn : Type :=
| OSError (e : errno)
| ValueError (v : value_error).

(** What a call produces: a value or an exception. *)
Inductive outcome (A : Type) : Type :=
| Returned (a : A)
| Raised (e : exn).
Arguments Returned {A} a.
Arguments Raised {A} e.

Definition outcome_bind {A B} (o : outcome A) (k : A -> outcome B) : outcome B :=
  match o with
  | Returned a => k a
  | Raised e => Raised e
  end.

(** The text an exception carries in its message, when it carries one. *)
Definition carried_text (e : exn) : option string :=
  match e with
  | ValueError (Unknown_protocol spec) => Some spec
  | ValueError (Invalid_literal text) => Some text
  | ValueError (Not_enough_values _ _) => None
  | ValueError Embedded_null => None
  | OSError _ => None
  end.

Definition is_ValueError (e : exn) : bool :=
  match e with
  | ValueError _ => true
  | OSError _ => false
  end.

(** ** parse_address_spec *)

Inductive family : Type := AF_UNIX | AF_INET | AF_INET6.

(** The second component of the result: a [str] for a Unix socket, a
    [(host, port)] pair for TCP. *)
Inductive address : Type :=
| AddrStr (a : string)
| AddrHostPort (host : string) (port : Z).

(** [a, b = l] *)
Definition unpack2 (l : list string) : outcome (string * string) :=
  match l with
  | [a; b] => Returned (a, b)
  | _ => Raised (ValueError (Not_enough_values 2 (length l)))
  end.

(** [int(port)] *)
Definition py_int (s : string) : outcome Z :=
  match PyStr.int s with
  | Some n => Returned n
  | None => Raised (ValueError (Invalid_literal s))
  end.

Definition NUL : ascii := Ascii.zero.

Definition parse_address_spec (spec : string)
  : outcome (family * address * option string) :=
  outcome_bind (unpack2 (PyStr.split1 ":" spec)) (fun '(protocol, rest) =>
  if String.eqb protocol "unix" then
    let address := rest in
    if PyStr.startswith "@" address && Nat.ltb 1 (String.length address) then
      Returned (AF_UNIX, AddrStr (String NUL (PyStr.tail address)), None)
    else
      Returned (AF_UNIX, AddrStr address, Some address)
  else if String.eqb protocol "tcp" || String.eqb protocol "tcp6" then
    let family := if String.eqb protocol "tcp" then AF_INET else AF_INET6 in
    outcome_bind (unpack2 (PyStr.rsplit1 ":" rest)) (fun '(host, port) =>
    outcome_bind (py_int port) (fun n =>
    Returned (family, AddrHostPort host n, None)))
  else
    Raised (ValueError (Unknown_protocol spec))).

(** The endpoints of the grammar: a protocol, a colon and a rest, where the
    rest of unix is an at sign and an abstract name, or a path, and the rest
    of tcp and tcp6 is a host, a colon and a port.  [render_spec] is the text
    that encodes an endpoint, [fields_of] the fields the text stands for. *)
Inductive endpoint : Type :=
| Unix_abstract (name : string)
| Unix_path (path : string)
| Tcp (host : string) (port : nat)
| Tcp6 (host : string) (port : nat).

Definition render_spec (e : endpoint) : string :=
  match e with
  | Unix_abstract name => "unix:@" +:+ name
  | Unix_path path => "unix:" +:+ path
  | Tcp host port => "tcp:" +:+ host +:+ ":" +:+ PyStr.of_nat port
  | Tcp6 host port => "tcp6:" +:+ host +:+ ":" +:+ PyStr.of_nat port
  end.

Definition fields_of (e : endpoint) : family * address * option string :=
  match e with
  | Unix_abstract name => (AF_UNIX, AddrStr (String NUL name), None)
  | Unix_path path => (AF_UNIX, AddrStr path, Some path)
  | Tcp host port => (AF_INET, AddrHostPort host (Z.of_nat port), None)
  | Tcp6 host port => (AF_INET6, AddrHostPort host (Z.of_nat port), None)
  end.

(** An abstract name is not empty, and a path does not have the form that
    denotes an abstract name: an at sign followed by more text. *)
Definition abstract_form (rest : string) : bool :=
  PyStr.startswith "@" rest && Nat.ltb 1 (String.length rest).

Definition well_formed (e : endpoint) : bool :=
  match e with
  | Unix_abstract name => PyStr.truthy name
  | Unix_path path => negb (abstract_form path)
  | Tcp _ _ | Tcp6 _ _ => true
  end.

(** ** System calls

    The calls the module makes to the operating system and to the Python
    runtime.  The index of [call] is the type of the answer: calls that can
    fail answer with a [result].

    [os.unlink] converts its path before the system is asked, and raises
    [ValueError] for a path with a NUL byte in it: its answer is a [checked]
    result.  The other calls take paths that the module builds from the
    candidate directories and the instance name, which are taken to hold no
    NUL byte. *)

Definition sock : Type := nat.
Definition fd : Type := nat.

Inductive result (T : Type) : Type :=
| Ok (v : T)
| Err (e : errno).
Arguments Ok {T} v.
Arguments Err {T} e.

Inductive checked (T : Type) : Type :=
| Asked (r : result T)
| Rejected (v : value_error).
Arguments Asked {T} r.
Arguments Rejected {T} v.

(** The answer of the system is read as the answer of a checked call, also
    inside a pair of an answer and a world. *)
Coercion Asked : result >-> checked.
Arguments pair {A B} & a b.

Inductive open_flag : Type := O_CREAT | O_WRONLY | O_TRUNC | O_CLOEXEC.
Inductive lock_flag : Type := LOCK_EX | LOCK_NB.
Inductive access_flag : Type := W_OK | R_OK | X_OK.

Inductive call : Type -> Type :=
| Geteuid : call nat                                   (* os.geteuid() *)
| Gettempdir : call string                             (* tempfile.gettempdir() *)
| Expanduser (p : string) : call string                (* os.path.expanduser(p) *)
| User_cache_dir : call string                         (* fast_data_types.user_cache_dir() *)
| Access (p : string) (mode : list access_flag) : call bool
| Open (p : string) (flags : list open_flag) : call (result fd)
| Lockf (f : fd) (op : list lock_flag) : call (result unit)
| Socket (fam : family) : call (result sock)           (* socket.socket(family=fam) *)
| Bind (s : sock) (a : string) : call (result unit)
| Connect (s : sock) (a : string) : call (result unit)
| Listen (s : sock) : call (result unit)
| Set_inheritable (s : sock) (b : bool) : call (result unit)
| Close (s : sock) : call (result unit)
| Unlink (p : string) : call (checked unit)
| Set_socket (s : sock) : call unit                    (* single_instance.socket = s *)
| Atexit_register (s : sock) (p : option string) : call unit
                                     (* atexit.register(remove_socket_file, s[, p]) *)
| Yield (v : string) : call unit.                      (* yield v, in a generator *)

(** A program: a tree of calls, each continued by its answer. *)
Inductive prog (A : Type) : Type :=
| Ret (a : A)
| Raise (e : exn)
| Sys {T : Type} (c : call T) (k : T -> prog A).
Arguments Ret {A} a.
Arguments Raise {A} e.
Arguments Sys {A T} c k.

Fixpoint bind {A B : Type} (p : prog A) (f : A -> prog B) : prog B :=
  match p with
  | Ret a => f a
  | Raise e => Raise e
  | Sys c k => Sys c (fun r => bind (k r) f)
  end.

Declare Scope prog_scope.
Delimit Scope prog_scope with prog.
Notation "x <- p ;; q" := (bind p (fun x => q))
  (at level 100, p at next level, right associativity) : prog_scope.
Notation "p ;; q" := (bind p (fun _ => q))
  (at level 100, right associativity) : prog_scope.
Local Open Scope prog_scope.

(** A call that cannot fail. *)
Definition py_call {T} (c : call T) : prog T := Sys c Ret.

(** A call that raises [OSError] when the system refuses it. *)
Definition os_call {T} (c : call (result T)) : prog T :=
  Sys c (fun r => match r with
                  | Ok v => Ret v
                  | Err e => Raise (OSError e)
                  end).

(** A call that raises [ValueError] when Python rejects its argument, and
    [OSError] when the system refuses it. *)
Definition checked_call {T} (c : call (checked T)) : prog T :=
  Sys c (fun r => match r with
                  | Asked (Ok v) => Ret v
                  | Asked (Err e) => Raise (OSError e)
                  | Rejected v => Raise (ValueError v)
                  end).

(** A pure computation as a program: it makes no call. *)
Definition of_outcome {A} (o : outcome A) : prog A :=
  match o with
  | Returned a => Ret a
  | Raised e => Raise e
  end.

(** [try: p  except OSError as err: h err] *)
Fixpoint try_OSError {A : Type} (p : prog A) (h : errno -> prog A) : prog A :=
  match p with
  | Ret a => Ret a
  | Raise (OSError e) => h e
  | Raise e => Raise e
  | Sys c k => Sys c (fun r => try_OSError (k r) h)
  end.

(** [with suppress(OSError): p] *)
Definition suppress_OSError (p : prog unit) : prog unit :=
  try_OSError p (fun _ => Ret tt).

(** [for x in l: body x] *)
Fixpoint for_list {X : Type} (l : list X) (body : X -> prog unit) : prog unit :=
  match l with
  | [] => Ret tt
  | x :: l' => body x ;; for_list l' body
  end.

(** How the body of a [for] loop ends: it falls through to the next
    iteration, or it returns from the enclosing function. *)
Inductive flow (A : Type) : Type :=
| Next
| Return (a : A).
Arguments Next {A}.
Arguments Return {A} a.

(** [for x in g: body x], for a generator [g]: the generator runs up to its
    next [yield], the body runs on the yielded value, and the generator is
    resumed only if the body falls through.  The result is [None] when the
    generator is exhausted. *)
Fixpoint for_in {A : Type} (g : prog unit) (body : string -> prog (flow A))
  : prog (option A) :=
  match g with
  | Ret _ => Ret None
  | Raise e => Raise e
  | Sys c k =>
      let resume := fun r => for_in (k r) body in
      match c in call T return (T -> prog (option A)) -> prog (option A) with
      | Yield v => fun resume =>
          r <- body v ;;
          match r with
          | Return a => Ret (Some a)
          | Next => resume tt
          end
      | c' => fun resume => Sys c' resume
      end resume
  end.

(** ** The functions of the module *)

(** [os.path.join(a, p)] on POSIX. *)
Definition endswith_slash (a : string) : bool :=
  match PyStr.split_last "/" a with
  | Some (_, EmptyString) => true
  | _ => false
  end.

Definition path_join (a p : string) : string :=
  if PyStr.startswith "/" p then p
  else if negb (PyStr.truthy a) || endswith_slash a then a +:+ p
  else a +:+ "/" +:+ p.

Definition in_errnos (e : errno) (l : list errno) : bool :=
  existsb (errno_eqb e) l.

(** [remove_socket_file(s, path=None)] *)
Definition remove_socket_file (s : sock) (path : option string) : prog unit :=
  suppress_OSError (os_call (Close s)) ;;
  match path with
  | Some p =>
      if PyStr.truthy p then suppress_OSError (checked_call (Unlink p)) else Ret tt
  | None => Ret tt
  end.

Section Module_constants.

(** [appname] and [is_macos] come from [kitty.constants]. *)
Variable appname : string.
Variable is_macos : bool.

(** [unix_socket_paths(name, ext='.lock')], a generator. *)
Definition unix_socket_paths (name ext : string) : prog unit :=
  home <- py_call (Expanduser "~") ;;
  tmp <- py_call Gettempdir ;;
  candidates <-
    (if is_macos then
       ucd <- py_call User_cache_dir ;; Ret [ucd; "/Library/Caches"]
     else Ret [tmp; home]) ;;
  for_list candidates (fun loc =>
    ok <- py_call (Access loc [W_OK; R_OK; X_OK]) ;;
    if ok then
      let filename := (if String.eqb loc home then "." else "") +:+ name +:+ ext in
      py_call (Yield (path_join loc filename))
    else Ret tt).

(** The path of the socket, from the path of the lock file. *)
Definition socket_path_of (path : string) : string :=
  fst (fst (PyStr.rpartition "." path)) +:+ ".sock".

(** The body of the [for] loop of [single_instance_unix]. *)
Definition single_instance_unix_body (path : string) : prog (flow bool) :=
  let socket_path := socket_path_of path in
  fd <- os_call (Open path [O_CREAT; O_WRONLY; O_TRUNC; O_CLOEXEC]) ;;
  client <-
    try_OSError
      (os_call (Lockf fd [LOCK_EX; LOCK_NB]) ;; Ret None)
      (fun err =>
         if in_errnos err [EAGAIN; EACCES] then
           s <- os_call (Socket AF_UNIX) ;;
           os_call (Connect s socket_path) ;;
           py_call (Set_socket s) ;;
           Ret (Some false)
         else Raise (OSError err)) ;;
  match client with
  | Some b => Ret (Return b)
  | None =>
      s <- os_call (Socket AF_UNIX) ;;
      try_OSError
        (os_call (Bind s socket_path))
        (fun err =>
           if in_errnos err [EADDRINUSE; EEXIST] then
             checked_call (Unlink socket_path) ;;
             os_call (Bind s socket_path)
           else Raise (OSError err)) ;;
      py_call (Set_socket s) ;;
      py_call (Atexit_register s (Some socket_path)) ;;
      os_call (Listen s) ;;
      os_call (Set_inheritable s false) ;;
      Ret (Return true)
  end.

(** [single_instance_unix(name)]; the result is [None] when the function
    falls off its end. *)
Definition single_instance_unix (name : string) : prog (option bool) :=
  for_in (unix_socket_paths name ".lock") single_instance_unix_body.

(** The coordination name of [SingleInstance.__call__]. *)
Definition instance_name (uid : nat) (group_id : option string) : string :=
  let name := appname +:+ "-ipc-" +:+ PyStr.of_nat uid in
  match group_id with
  | Some g => if PyStr.truthy g then name +:+ "-" +:+ g else name
  | None => name
  end.

(** [SingleInstance.__call__(self, group_id=None)] *)
Definition SingleInstance_call (group_id : option string) : prog (option bool) :=
  uid <- py_call Geteuid ;;
  let name := instance_name uid group_id in
  s <- os_call (Socket AF_UNIX) ;;
  let addr := String NUL name in
  fallback <-
    try_OSError
      (os_call (Bind s addr) ;; Ret None)
      (fun err =>
         if errno_eqb err ENOENT then
           r <- single_instance_unix name ;; Ret (Some r)
         else if errno_eqb err EADDRINUSE then
           os_call (Connect s addr) ;;
           py_call (Set_socket s) ;;
           Ret (Some (Some false))
         else Raise (OSError err)) ;;
  match fallback with
  | Some r => Ret r
  | None =>
      os_call (Listen s) ;;
      py_call (Set_socket s) ;;
      os_call (Set_inheritable s false) ;;
      py_call (Atexit_register s None) ;;
      Ret (Some true)
  end.

End Module_constants.

(** ** Running a program

    A handler answers every call and moves the world; [exec] runs a program
    to its end and records the calls made with their answers. *)

Inductive event : Type :=
| Ev {T : Type} (c : call T) (r : T).

Definition handler (W : Type) : Type := forall T, call T -> W -> T * W.

Fixpoint exec {W A : Type} (h : handler W) (p : prog A) (w : W)
  : outcome A * W * list event :=
  match p with
  | Ret a => (Returned a, w, [])
  | Raise e => (Raised e, w, [])
  | Sys c k =>
      let '(r, w1) := h _ c w in
      let '(o, w2, t) := exec h (k r) w1 in
      (o, w2, Ev c r :: t)
  end.

(** [next(g)] for a generator [g]: the generator runs to its next [yield]
    and stops there, or it ends. *)
Inductive gen_step : Type :=
| Yielded (v : string) (rest : prog unit)
| Finished (o : outcome unit).

Fixpoint until_yield {W : Type} (h : handler W) (g : prog unit) (w : W)
  : gen_step * W * list event :=
  match g with
  | Ret _ => (Finished (Returned tt), w, [])
  | Raise e => (Finished (Raised e), w, [])
  | Sys c k =>
      let resume := fun r w1 => until_yield h (k r) w1 in
      match c in call T
            return (T -> prog unit) -> (T -> W -> gen_step * W * list event)
                   -> gen_step * W * list event with
      | Yield v => fun k _ => (Yielded v (k tt), w, [])
      | c' => fun _ resume =>
          let '(r, w1) := h _ c' w in
          let '(x, w2, t) := resume r w1 in
          (x, w2, Ev c' r :: t)
      end k resume
  end.

(** The error of a failed [os.open], if the event is one. *)
Definition failed_open (e : event) : option errno :=
  match e with
  | Ev c r =>
      match c in call T return T -> option errno with
      | Open _ _ => fun r => match r with Err e => Some e | Ok _ => None end
      | _ => fun _ => None
      end r
  end.

(** The [ValueError] of a call that Python rejected, if the event is one. *)
Definition rejected (e : event) : option value_error :=
  match e with
  | Ev c r =>
      match c in call T return T -> option value_error with
      | Unlink _ => fun r => match r with Rejected v => Some v | Asked _ => None end
      | _ => fun _ => None
      end r
  end.

(** The access checks of a trace: the directory, the mode asked for, and
    the answer. *)
Definition access_checks (t : list event) : list (string * list access_flag * bool) :=
  flat_map (fun e =>
              match e with
              | Ev c r =>
                  match c in call T return T -> list (string * list access_flag * bool) with
                  | Access p mode => fun ok => [(p, mode, ok)]
                  | _ => fun _ => []
                  end r
              end) t.

(** The paths given to [os.open] in a trace. *)
Definition opened_paths (t : list event) : list string :=
  flat_map (fun e => match e with Ev (Open p _) _ => [p] | _ => [] end) t.

(** The values a generator yields, from the trace of its run. *)
Definition yielded (t : list event) : list string :=
  flat_map (fun e => match e with Ev (Yield v) _ => [v] | _ => [] end) t.

(** Counting the calls of one kind in a trace. *)
Definition is_Open (e : event) : bool :=
  match e with Ev (Open _ _) _ => true | _ => false end.
Definition is_Lockf (e : event) : bool :=
  match e with Ev (Lockf _ _) _ => true | _ => false end.
Definition is_Bind (e : event) : bool :=
  match e with Ev (Bind _ _) _ => true | _ => false end.
Definition is_Unlink (e : event) : bool :=
  match e with Ev (Unlink _) _ => true | _ => false end.
Definition is_Yield (e : event) : bool :=
  match e with Ev (Yield _) _ => true | _ => false end.

Definition count (f : event -> bool) (t : list event) : nat :=
  length (List.filter f t).

Definition result_of {W A} (x : outcome A * W * list event) : outcome A := fst (fst x).
Definition world_of {W A} (x : outcome A * W * list event) : W := snd (fst x).
Definition trace_of {W A} (x : outcome A * W * list event) : list event := snd x.

(** ** A POSIX-like kernel

    The part of the operating system the module relies on: a flat file
    system, advisory locks, Unix sockets bound to paths or to names of the
    abstract namespace, and, per process, the [single_instance.socket]
    attribute and the [atexit] registry.  Directories are not tracked (a
    file can be created at any path); [usable] lists the directories on
    which the access check of [unix_socket_paths] passes. *)

Module Posix.

Inductive node : Type :=
| File (writable : bool)          (* a regular file; writable by this user? *)
| Socket_file (s : sock).         (* the path a socket was bound to *)

Inductive sock_state : Type :=
| Fresh
| Bound (a : string)
| Listening (a : string)
| Connected (peer : sock)
| Closed.

Record socket : Type := Build_socket {
  so_owner : nat;
  so_state : sock_state;
  so_inheritable : bool
}.

Record proc : Type := Build_proc {
  p_socket : option sock;                   (* single_instance.socket *)
  p_atexit : list (sock * option string)    (* latest registration first *)
}.

Record platform : Type := Build_platform {
  abstract_ns : bool;        (* does bind accept abstract addresses? *)
  euid : nat;
  tempdir : string;
  home : string;
  cache_dir : string;
  usable : list string
}.

Record world : Type := Build_world {
  plat : platform;
  files : gmap string node;
  abstract : gmap string sock;       (* abstract address -> bound socket *)
  locks : gmap string nat;           (* lock file -> process holding the lock *)
  fds : gmap fd (nat * string);      (* descriptor -> owning process, path *)
  sockets : gmap sock socket;
  procs : gmap nat proc
}.

Definition with_files (f : gmap string node) (w : world) : world :=
  Build_world (plat w) f (abstract w) (locks w) (fds w) (sockets w) (procs w).
Definition with_abstract (a : gmap string sock) (w : world) : world :=
  Build_world (plat w) (files w) a (locks w) (fds w) (sockets w) (procs w).
Definition with_locks (l : gmap string nat) (w : world) : world :=
  Build_world (plat w) (files w) (abstract w) l (fds w) (sockets w) (procs w).
Definition with_fds (d : gmap fd (nat * string)) (w : world) : world :=
  Build_world (plat w) (files w) (abstract w) (locks w) d (sockets w) (procs w).
Definition with_sockets (s : gmap sock socket) (w : world) : world :=
  Build_world (plat w) (files w) (abstract w) (locks w) (fds w) s (procs w).
Definition with_procs (p : gmap nat proc) (w : world) : world :=
  Build_world (plat w) (files w) (abstract w) (locks w) (fds w) (sockets w) p.

Definition is_abstract (a : string) : bool :=
  match a with
  | String c _ => Ascii.eqb c NUL
  | EmptyString => false
  end.

Definition set_state (s : sock) (st : sock_state) (w : world) : world :=
  with_sockets (alter (fun so => Build_socket (so_owner so) st (so_inheritable so)) s
                  (sockets w)) w.

Definition state_of (s : sock) (w : world) : option sock_state :=
  so_state <$> sockets w !! s.

Definition is_closed (s : sock) (w : world) : Prop :=
  state_of s w = None \/ state_of s w = Some Closed.

Definition is_listening (s : sock) (w : world) : bool :=
  match state_of s w with
  | Some (Listening _) => true
  | _ => false
  end.

Definition the_proc (pid : nat) (w : world) : proc :=
  default (Build_proc None []) (procs w !! pid).

(** [os.open(p, O_CREAT | O_WRONLY | O_TRUNC | O_CLOEXEC)] *)
Definition k_open (pid : nat) (p : string) (w : world) : result fd * world :=
  match files w !! p with
  | Some (File false) => (Err EACCES, w)
  | Some (Socket_file _) => (Err ENXIO, w)
  | Some (File true) | None =>
      let f := fresh (dom (fds w)) in
      (Ok f, with_fds (<[f := (pid, p)]> (fds w)) (with_files (<[p := File true]> (files w)) w))
  end.

(** [fcntl.lockf(f, LOCK_EX | LOCK_NB)] *)
Definition k_lockf (pid : nat) (f : fd) (w : world) : result unit * world :=
  match fds w !! f with
  | None => (Err EBADF, w)
  | Some (_, p) =>
      match locks w !! p with
      | Some q => if Nat.eqb q pid then (Ok tt, w) else (Err EAGAIN, w)
      | None => (Ok tt, with_locks (<[p := pid]> (locks w)) w)
      end
  end.

Definition k_socket (pid : nat) (w : world) : result sock * world :=
  let s := fresh (dom (sockets w)) in
  (Ok s, with_sockets (<[s := Build_socket pid Fresh false]> (sockets w)) w).

Definition k_bind (s : sock) (a : string) (w : world) : result unit * world :=
  match state_of s w with
  | None | Some Closed => (Err EBADF, w)
  | Some Fresh =>
      if is_abstract a then
        if abstract_ns (plat w) then
          match abstract w !! a with
          | Some _ => (Err EADDRINUSE, w)
          | None => (Ok tt, set_state s (Bound a) (with_abstract (<[a := s]> (abstract w)) w))
          end
        else (Err ENOENT, w)
      else
        match files w !! a with
        | Some _ => (Err EADDRINUSE, w)
        | None => (Ok tt, set_state s (Bound a) (with_files (<[a := Socket_file s]> (files w)) w))
        end
  | Some _ => (Err EINVAL, w)
  end.

(** The socket a connect to [a] reaches, if any. *)
Definition target (a : string) (w : world) : result sock :=
  if is_abstract a then
    match abstract w !! a with
    | Some t => Ok t
    | None => Err ECONNREFUSED
    end
  else
    match files w !! a with
    | Some (Socket_file t) => Ok t
    | Some (File _) => Err ECONNREFUSED
    | None => Err ENOENT
    end.

Definition k_connect (s : sock) (a : string) (w : world) : result unit * world :=
  match state_of s w with
  | None | Some Closed => (Err EBADF, w)
  | Some Fresh =>
      match target a w with
      | Ok t => if is_listening t w then (Ok tt, set_state s (Connected t) w)
                else (Err ECONNREFUSED, w)
      | Err e => (Err e, w)
      end
  | Some _ => (Err EINVAL, w)
  end.

Definition k_listen (s : sock) (w : world) : result unit * world :=
  match state_of s w with
  | None | Some Closed => (Err EBADF, w)
  | Some (Bound a) => (Ok tt, set_state s (Listening a) w)
  | Some (Listening _) => (Ok tt, w)
  | Some _ => (Err EINVAL, w)
  end.

Definition k_set_inheritable (s : sock) (b : bool) (w : world) : result unit * world :=
  match sockets w !! s with
  | None => (Err EBADF, w)
  | Some so =>
      match so_state so with
      | Closed => (Err EBADF, w)
      | st => (Ok tt, with_sockets (<[s := Build_socket (so_owner so) st b]> (sockets w)) w)
      end
  end.

(** Closing a socket frees the abstract name it was bound to; a path it
    was bound to stays in the file system. *)
Definition release_name (st : sock_state) (w : world) : world :=
  match st with
  | Bound a | Listening a =>
      if is_abstract a then with_abstract (delete a (abstract w)) w else w
  | _ => w
  end.

Definition k_close (s : sock) (w : world) : result unit * world :=
  match state_of s w with
  | None | Some Closed => (Err EBADF, w)
  | Some st => (Ok tt, set_state s Closed (release_name st w))
  end.

Definition k_unlink (p : string) (w : world) : result unit * world :=
  match files w !! p with
  | None => (Err ENOENT, w)
  | Some _ => (Ok tt, with_files (delete p (files w)) w)
  end.

Definition k_set_socket (pid : nat) (s : sock) (w : world) : world :=
  let p := the_proc pid w in
  with_procs (<[pid := Build_proc (Some s) (p_atexit p)]> (procs w)) w.

Definition k_atexit (pid : nat) (s : sock) (path : option string) (w : world) : world :=
  let p := the_proc pid w in
  with_procs (<[pid := Build_proc (p_socket p) ((s, path) :: p_atexit p)]> (procs w)) w.

(** The kernel as seen by process [pid]. *)
Definition kernel (pid : nat) : handler world :=
  fun T c =>
    match c in call T return world -> T * world with
    | Geteuid => fun w => (euid (plat w), w)
    | Gettempdir => fun w => (tempdir (plat w), w)
    | Expanduser p => fun w => (if String.eqb p "~" then home (plat w) else p, w)
    | User_cache_dir => fun w => (cache_dir (plat w), w)
    | Access p _ => fun w => (existsb (String.eqb p) (usable (plat w)), w)
    | Open p _ => k_open pid p
    | Lockf f _ => k_lockf pid f
    | Socket _ => k_socket pid
    | Bind s a => k_bind s a
    | Connect s a => k_connect s a
    | Listen s => k_listen s
    | Set_inheritable s b => k_set_inheritable s b
    | Close s => k_close s
    | Unlink p => fun w => let '(r, w1) := k_unlink p w in (Asked r, w1)
    | Set_socket s => fun w => (tt, k_set_socket pid s w)
    | Atexit_register s p => fun w => (tt, k_atexit pid s p w)
    | Yield _ => fun w => (tt, w)
    end.

(** The [os] module over the kernel: [os.unlink] rejects a path with a NUL
    byte in it before the kernel is asked. *)
Definition os_module (pid : nat) : handler world :=
  fun T c =>
    match c in call T return world -> T * world with
    | Unlink p => fun w =>
        if PyStr.contains NUL p then (Rejected Embedded_null, w)
        else kernel pid _ (Unlink p) w
    | c' => kernel pid _ c'
    end.

(** *** The candidate paths, in the words of the specification

    On macOS the user cache directory, then [/Library/Caches]; elsewhere
    the directory of temporary files, then the home directory.  Only the
    directories that pass the access check are kept, and the file name gets
    a leading dot in the home directory. *)
Definition candidate_dirs (is_macos : bool) (pl : platform) : list string :=
  if is_macos then [cache_dir pl; "/Library/Caches"] else [tempdir pl; home pl].

Definition passes_access (pl : platform) (d : string) : bool :=
  existsb (String.eqb d) (usable pl).

Definition candidate_file (pl : platform) (name ext d : string) : string :=
  path_join d ((if String.eqb d (home pl) then "." else "") +:+ name +:+ ext).

Definition candidate_paths (is_macos : bool) (pl : platform) (name ext : string)
  : list string :=
  List.map (candidate_file pl name ext)
           (List.filter (passes_access pl) (candidate_dirs is_macos pl)).

(** *** The end of a process *)

(** The exit handlers of [pid], run in the order [atexit] runs them. *)
Fixpoint run_handlers (pid : nat) (l : list (sock * option string)) (w : world)
  : outcome unit * world * list event :=
  match l with
  | [] => (Returned tt, w, [])
  | (s, path) :: l' =>
      let '(o, w1, t) := exec (kernel pid) (remove_socket_file s path) w in
      match o with
      | Returned _ =>
          let '(o2, w2, t2) := run_handlers pid l' w1 in (o2, w2, t ++ t2)
      | Raised e => (Raised e, w1, t)
      end
  end.

Definition run_atexit (pid : nat) (w : world) : outcome unit * world * list event :=
  run_handlers pid (p_atexit (the_proc pid w)) w.

(** What the kernel does when [pid] dies: its sockets are closed, its
    descriptors closed and its locks dropped.  Files stay. *)
Definition owned_by (pid : nat) (w : world) (s : sock) : bool :=
  match sockets w !! s with
  | Some so => Nat.eqb (so_owner so) pid
  | None => false
  end.

Definition reap (pid : nat) (w : world) : world :=
  Build_world (plat w) (files w)
    (filter (fun '(_, s) => owned_by pid w s = false) (abstract w))
    (filter (fun '(_, q) => q ≠ pid) (locks w))
    (filter (fun '(_, (q, _)) => q ≠ pid) (fds w))
    ((fun so => if Nat.eqb (so_owner so) pid
                then Build_socket pid Closed (so_inheritable so) else so)
       <$> sockets w)
    (delete pid (procs w)).

(** A normal exit runs the exit handlers first; a killed process does not. *)
Definition exit_process (pid : nat) (w : world) : world :=
  reap pid (world_of (run_atexit pid w)).

Definition kill_process (pid : nat) (w : world) : world := reap pid w.

End Posix.

(** Where a flow leads the function that holds the loop. *)
Definition after_loop (o : outcome (flow bool)) : outcome (option bool) :=
  match o with
  | Returned (Return b) => Returned (Some b)
  | Returned Next => Returned None
  | Raised e => Raised e
  end.

(** The flags of [os.open] and [fcntl.lockf] in [single_instance_unix]. *)
Definition open_flags : list open_flag := [O_CREAT; O_WRONLY; O_TRUNC; O_CLOEXEC].
Definition lock_flags : list lock_flag := [LOCK_EX; LOCK_NB].

(** ** Worlds to run the module in *)

Module Demo.

Import Posix.

(** A Linux-like platform, with the abstract namespace, and a platform
    without it; user 1000 may use [/tmp] and the home directory. *)
Definition linux : platform :=
  Build_platform true 1000 "/tmp" "/home/u" "/home/u/Library/Caches"
                 ["/tmp"; "/home/u"].

Definition bsd : platform :=
  Build_platform false 1000 "/tmp" "/home/u" "/home/u/Library/Caches"
                 ["/tmp"; "/home/u"].

Definition boot (pl : platform) : world := Build_world pl ∅ ∅ ∅ ∅ ∅ ∅.

Definition acquire (pid : nat) (w : world) : outcome (option bool) * world * list event :=
  exec (kernel pid) (SingleInstance_call "kitty" false None) w.

(** Process 1 has become the primary. *)
Definition linux_primary : world := world_of (acquire 1 (boot linux)).
Definition bsd_primary : world := world_of (acquire 1 (boot bsd)).

(** The primary was killed: its socket path is left behind. *)
Definition bsd_stale : world := kill_process 1 bsd_primary.

(** Somebody else owns a lock file in [/tmp] that user 1000 cannot write. *)
Definition bsd_foreign_lock : world :=
  with_files {[ "/tmp/kitty-ipc-1000.lock" := File false ]} (boot bsd).

(** No directory passes the access check. *)
Definition bsd_no_directory : world :=
  Build_world (Build_platform false 1000 "/tmp" "/home/u" "" []) ∅ ∅ ∅ ∅ ∅ ∅.

End Demo.

(** ** Processes that race

    Several processes run the same program on one kernel; a schedule says
    which process makes its next call.  Process [i] is the [i]-th program of
    the system and has [i] as its process id. *)

Module Race.

Import Posix.

Record system : Type := Build_system {
  sys_world : world;
  sys_procs : list (prog (option bool))
}.

(** The next call of a process: its answer moves the world and leaves
    the rest of the program.  A program that has returned or raised stays
    as it is. *)
Definition advance {A} (i : nat) (p : prog A) (w : world) : prog A * world :=
  match p with
  | Sys c k => let '(r, w1) := kernel i _ c w in (k r, w1)
  | _ => (p, w)
  end.

(** Process [i] makes its next call; a process that does not exist does
    nothing. *)
Definition step (i : nat) (sigma : system) : system :=
  match sys_procs sigma !! i with
  | Some p =>
      let '(p1, w1) := advance i p (sys_world sigma) in
      Build_system w1 (<[i := p1]> (sys_procs sigma))
  | None => sigma
  end.

Definition run (schedule : list nat) (sigma : system) : system :=
  fold_left (fun s i => step i s) schedule sigma.

(** [n] processes about to run [p] in the world [w]. *)
Definition start (p : prog (option bool)) (n : nat) (w : world) : system :=
  Build_system w (replicate n p).

Definition terminated {A} (p : prog A) : bool :=
  match p with
  | Sys _ _ => false
  | _ => true
  end.

Definition finished (sigma : system) : bool := forallb terminated (sys_procs sigma).

Definition returned (sigma : system) (i : nat) (v : option bool) : Prop :=
  sys_procs sigma !! i = Some (Ret v).

Definition raised (sigma : system) (i : nat) (e : exn) : Prop :=
  sys_procs sigma !! i = Some (Raise e).

(** Process [i] keeps, in [single_instance.socket], a socket connected to
    a listening socket of process [j]. *)
Definition connected_to (i j : nat) (w : world) : Prop :=
  exists s t,
    p_socket (the_proc i w) = Some s
    /\ state_of s w = Some (Connected t)
    /\ is_listening t w = true
    /\ owned_by j w t = true.

(** *** Where a process stands

    The answers a process has received so far determine what is left of
    its program. *)
Inductive answer : Type :=
| A_nat (n : nat)
| A_str (s : string)
| A_bool (b : bool)
| A_unit
| A_fd (r : result fd)
| A_sock (r : result sock)
| A_res (r : result unit)
| A_rejected (v : value_error).

Definition answer_of {T} (c : call T) : T -> answer :=
  match c in call T return T -> answer with
  | Geteuid => A_nat
  | Gettempdir | Expanduser _ | User_cache_dir => A_str
  | Access _ _ => A_bool
  | Open _ _ => A_fd
  | Socket _ => A_sock
  | Lockf _ _ | Bind _ _ | Connect _ _ | Listen _ | Set_inheritable _ _
  | Close _ => A_res
  | Unlink _ => fun r => match r with
                         | Asked r => A_res r
                         | Rejected v => A_rejected v
                         end
  | Set_socket _ | Atexit_register _ _ | Yield _ => fun _ => A_unit
  end.

Definition feed {A} (p : prog A) (a : answer) : prog A :=
  match p with
  | Sys c k =>
      match c in call T return (T -> prog A) -> prog A with
      | Geteuid => fun k => match a with A_nat n => k n | _ => p end
      | Gettempdir | Expanduser _ | User_cache_dir =>
          fun k => match a with A_str s => k s | _ => p end
      | Access _ _ => fun k => match a with A_bool b => k b | _ => p end
      | Open _ _ => fun k => match a with A_fd r => k r | _ => p end
      | Socket _ => fun k => match a with A_sock r => k r | _ => p end
      | Lockf _ _ | Bind _ _ | Connect _ _ | Listen _ | Set_inheritable _ _
      | Close _ => fun k => match a with A_res r => k r | _ => p end
      | Unlink _ => fun k => match a with
                             | A_res r => k (Asked r)
                             | A_rejected v => k (Rejected v)
                             | _ => p
                             end
      | Set_socket _ | Atexit_register _ _ | Yield _ =>
          fun k => match a with A_unit => k tt | _ => p end
      end k
  | _ => p
  end.

Definition resume {A} (p : prog A) (history : list answer) : prog A :=
  fold_left feed history p.

(** The answer the next call of a process gets. *)
Definition next_answer {A} (i : nat) (p : prog A) (w : world) : option answer :=
  match p with
  | Sys c k => Some (answer_of c (fst (kernel i _ c w)))
  | _ => None
  end.

(** *** The race for the abstract address

    What holds of process [i] in the world [w] after the answers it has
    received, on a platform [pl] with the abstract namespace. *)
Section Abstract_race.

Variable appname : string.
Variable group_id : option string.
Variable pl : platform.

Definition the_address : string :=
  String NUL (instance_name appname (euid pl) group_id).

Definition sock_is (i : nat) (s : sock) (st : sock_state) (w : world) : Prop :=
  exists inh, sockets w !! s = Some (Build_socket i st inh).

(** The answers up to the socket. *)
Definition got_socket (s : sock) : list answer :=
  [A_nat (euid pl); A_sock (Ok s)].

Definition done : answer := A_res (Ok tt).

Inductive at_abstract (i : nat) (w : world) : list answer -> Prop :=
| A_start : at_abstract i w []
| A_uid : at_abstract i w [A_nat (euid pl)]
| A_socket s :
    sock_is i s Fresh w -> at_abstract i w (got_socket s)
| A_bound s :
    sock_is i s (Bound the_address) w -> abstract w !! the_address = Some s ->
    at_abstract i w (got_socket s ++ [done])
| A_listening s :
    sock_is i s (Listening the_address) w -> abstract w !! the_address = Some s ->
    at_abstract i w (got_socket s ++ [done; done])
| A_kept s :
    sock_is i s (Listening the_address) w -> abstract w !! the_address = Some s ->
    p_socket (the_proc i w) = Some s ->
    at_abstract i w (got_socket s ++ [done; done; A_unit])
| A_private s :
    sock_is i s (Listening the_address) w -> abstract w !! the_address = Some s ->
    p_socket (the_proc i w) = Some s ->
    at_abstract i w (got_socket s ++ [done; done; A_unit; done])
| A_primary s :
    sock_is i s (Listening the_address) w -> abstract w !! the_address = Some s ->
    p_socket (the_proc i w) = Some s ->
    at_abstract i w (got_socket s ++ [done; done; A_unit; done; A_unit])
| A_in_use s t :
    sock_is i s Fresh w -> abstract w !! the_address = Some t ->
    at_abstract i w (got_socket s ++ [A_res (Err EADDRINUSE)])
| A_connected s t :
    sock_is i s (Connected t) w -> is_listening t w = true ->
    abstract w !! the_address = Some t ->
    at_abstract i w (got_socket s ++ [A_res (Err EADDRINUSE); done])
| A_secondary s t :
    sock_is i s (Connected t) w -> is_listening t w = true ->
    abstract w !! the_address = Some t ->
    p_socket (the_proc i w) = Some s ->
    at_abstract i w (got_socket s ++ [A_res (Err EADDRINUSE); done; A_unit])
| A_refused s t :
    abstract w !! the_address = Some t ->
    at_abstract i w (got_socket s ++ [A_res (Err EADDRINUSE);
                                      A_res (Err ECONNREFUSED)]).

(** What a step of another process leaves to process [i]. *)
Definition spares (i : nat) (w w1 : world) : Prop :=
  plat w1 = plat w
  /\ (forall s so, sockets w !! s = Some so -> so_owner so = i ->
                   sockets w1 !! s = Some so)
  /\ (forall t, is_listening t w = true -> is_listening t w1 = true)
  /\ (forall t, abstract w !! the_address = Some t ->
                abstract w1 !! the_address = Some t)
  /\ the_proc i w1 = the_proc i w.

(** The invariant of the race: every process stands where its answers
    say, and whoever holds the address is one of the processes, past
    its bind. *)
Definition abstract_race (is_macos : bool) (sigma : system) : Prop :=
  plat (sys_world sigma) = pl
  /\ exists hs : list (list answer),
      sys_procs sigma
      = List.map (resume (SingleInstance_call appname is_macos group_id)) hs
      /\ (forall i h, hs !! i = Some h -> at_abstract i (sys_world sigma) h)
      /\ (forall t, abstract (sys_world sigma) !! the_address = Some t ->
                    exists j rest, hs !! j = Some (got_socket t ++ done :: rest)).

End Abstract_race.

(** What is left of [SingleInstance.__call__] around the body of the loop
    of [single_instance_unix], once the generator has yielded its first
    path: [s] is the socket made for the abstract address, [next] the rest
    of the loop, which runs if the body falls through. *)
Definition around (s : sock) (next : prog (option bool)) (p : prog (flow bool))
  : prog (option bool) :=
  (fallback <-
     (r <- (r <- p ;;
            match r with
            | Return a => Ret (Some a)
            | Next => next
            end) ;;
      Ret (Some r)) ;;
   match fallback with
   | Some r => Ret r
   | None =>
       os_call (Listen s) ;;
       py_call (Set_socket s) ;;
       os_call (Set_inheritable s false) ;;
       py_call (Atexit_register s None) ;;
       Ret (Some true)
   end)%prog.

(** *** The race for the lock file

    What holds of process [i] in the world [w] after the answers it has
    received, on a platform [pl] without the abstract namespace, where the
    first candidate path is [stem] with the extension [.lock]. *)
Section Lock_race.

Variable appname : string.
Variable is_macos : bool.
Variable group_id : option string.
Variable pl : platform.
Variable stem : string.

Definition lock_path : string := stem +:+ ".lock".
Definition sock_path : string := stem +:+ ".sock".

(** The answers up to the refusal of the abstract address. *)
Definition no_abstract (s0 : sock) : list answer :=
  [A_nat (euid pl); A_sock (Ok s0); A_res (Err ENOENT)].

(** The answers to the generator, up to its first [yield]. *)
Definition first_dir : string := if is_macos then cache_dir pl else tempdir pl.
Definition second_dir : string := if is_macos then "/Library/Caches" else home pl.

Definition listing : list answer :=
  [A_str (home pl); A_str (tempdir pl)]
  ++ (if is_macos then [A_str (cache_dir pl)] else [])
  ++ (if passes_access pl first_dir then [A_bool true]
      else [A_bool false; A_bool (passes_access pl second_dir)]).

(** The answers up to the open of the lock file. *)
Definition opened (s0 : sock) (f : fd) : list answer :=
  no_abstract s0 ++ listing ++ [A_fd (Ok f)].

(** The two ways from the new socket to its bind: at once, or after an
    unlink. *)
Definition at_once : list answer := [done].
Definition after_unlink : list answer := [A_res (Err EADDRINUSE); done; done].

Definition either_way (mid : list answer) : Prop :=
  mid = at_once \/ mid = after_unlink.

(** The answers from the lock to the bind of the new socket [s]. *)
Definition bound (s : sock) (mid : list answer) : list answer :=
  done :: A_sock (Ok s) :: mid.

Definition denied : answer := A_res (Err EAGAIN).

Inductive at_lock (i : nat) (w : world) : list answer -> Prop :=
| L_start : at_lock i w []
| L_uid : at_lock i w [A_nat (euid pl)]
| L_socket s0 :
    sock_is i s0 Fresh w -> at_lock i w [A_nat (euid pl); A_sock (Ok s0)]
| L_listing s0 k :
    k <= length listing -> at_lock i w (no_abstract s0 ++ take k listing)
| L_opened s0 f :
    fds w !! f = Some (i, lock_path) -> at_lock i w (opened s0 f ++ [])
| L_locked s0 f :
    locks w !! lock_path = Some i -> at_lock i w (opened s0 f ++ [done])
| L_new_socket s0 f s :
    locks w !! lock_path = Some i -> sock_is i s Fresh w ->
    at_lock i w (opened s0 f ++ [done; A_sock (Ok s)])
| L_stale s0 f s n :
    locks w !! lock_path = Some i -> sock_is i s Fresh w ->
    files w !! sock_path = Some n ->
    at_lock i w (opened s0 f ++ [done; A_sock (Ok s); A_res (Err EADDRINUSE)])
| L_unlinked s0 f s :
    locks w !! lock_path = Some i -> sock_is i s Fresh w ->
    files w !! sock_path = None ->
    at_lock i w (opened s0 f ++ [done; A_sock (Ok s); A_res (Err EADDRINUSE); done])
| L_bound s0 f s mid :
    either_way mid ->
    locks w !! lock_path = Some i -> sock_is i s (Bound sock_path) w ->
    at_lock i w (opened s0 f ++ bound s mid)
| L_kept s0 f s mid :
    either_way mid ->
    locks w !! lock_path = Some i -> sock_is i s (Bound sock_path) w ->
    at_lock i w (opened s0 f ++ bound s mid ++ [A_unit])
| L_registered s0 f s mid :
    either_way mid ->
    locks w !! lock_path = Some i -> sock_is i s (Bound sock_path) w ->
    at_lock i w (opened s0 f ++ bound s mid ++ [A_unit; A_unit])
| L_listening s0 f s mid :
    either_way mid ->
    locks w !! lock_path = Some i -> sock_is i s (Listening sock_path) w ->
    at_lock i w (opened s0 f ++ bound s mid ++ [A_unit; A_unit; done])
| L_primary s0 f s mid :
    either_way mid ->
    locks w !! lock_path = Some i -> sock_is i s (Listening sock_path) w ->
    at_lock i w (opened s0 f ++ bound s mid ++ [A_unit; A_unit; done; done])
| L_denied s0 f q :
    locks w !! lock_path = Some q -> q <> i ->
    at_lock i w (opened s0 f ++ [denied])
| L_client s0 f q s :
    locks w !! lock_path = Some q -> q <> i -> sock_is i s Fresh w ->
    at_lock i w (opened s0 f ++ [denied; A_sock (Ok s)])
| L_connected s0 f q s t :
    locks w !! lock_path = Some q -> q <> i ->
    sock_is i s (Connected t) w -> is_listening t w = true ->
    at_lock i w (opened s0 f ++ [denied; A_sock (Ok s); done])
| L_secondary s0 f q s t :
    locks w !! lock_path = Some q -> q <> i ->
    sock_is i s (Connected t) w -> is_listening t w = true ->
    p_socket (the_proc i w) = Some s ->
    at_lock i w (opened s0 f ++ [denied; A_sock (Ok s); done; A_unit])
| L_failed s0 f q s e :
    locks w !! lock_path = Some q -> q <> i ->
    e = ENOENT \/ e = ECONNREFUSED ->
    at_lock i w (opened s0 f ++ [denied; A_sock (Ok s); A_res (Err e)]).

(** What a step of another process leaves to process [i]. *)
Definition lets_be (i : nat) (w w1 : world) : Prop :=
  plat w1 = plat w
  /\ (forall s so, sockets w !! s = Some so -> so_owner so = i ->
                   sockets w1 !! s = Some so)
  /\ (forall t, is_listening t w = true -> is_listening t w1 = true)
  /\ (forall f p, fds w !! f = Some (i, p) -> fds w1 !! f = Some (i, p))
  /\ (forall q, locks w !! lock_path = Some q -> locks w1 !! lock_path = Some q)
  /\ (locks w !! lock_path = Some i -> files w1 !! sock_path = files w !! sock_path)
  /\ the_proc i w1 = the_proc i w.

(** A step that leaves files and locks alone and makes no socket listen. *)
Definition quiet_step (w w1 : world) : Prop :=
  files w1 = files w /\ locks w1 = locks w
  /\ forall t, is_listening t w1 = true -> is_listening t w = true.

Definition can_open (w : world) : Prop :=
  files w !! lock_path = None \/ files w !! lock_path = Some (File true).

(** What a step of process [i], after the answers [h] and with the
    answer [a], may have changed for all: the lock file can still be
    opened; the lock has a new holder only if [i] has just locked it; a
    socket listens that did not only if [i] has just made it listen. *)
Definition changed_by (i : nat) (h : list answer) (a : answer) (w w1 : world) : Prop :=
  can_open w1
  /\ (forall q, locks w1 !! lock_path = Some q ->
                locks w !! lock_path = Some q
                \/ (q = i /\ exists s0 f, h = opened s0 f ++ [] /\ a = done))
  /\ (forall t, is_listening t w1 = true ->
                is_listening t w = true
                \/ (exists s0 f mid,
                       either_way mid
                       /\ h = opened s0 f ++ bound t mid ++ [A_unit; A_unit]
                       /\ a = done)).

(** The invariant of the race: the lock file can be opened, every
    process stands where its answers say, whoever holds the lock is one
    of the processes, past its lock, and whatever socket listens belongs
    to one of the processes, past its listen. *)
Definition lock_race (sigma : system) : Prop :=
  plat (sys_world sigma) = pl
  /\ (files (sys_world sigma) !! lock_path = None
      \/ files (sys_world sigma) !! lock_path = Some (File true))
  /\ exists hs : list (list answer),
      sys_procs sigma
      = List.map (resume (SingleInstance_call appname is_macos group_id)) hs
      /\ (forall i h, hs !! i = Some h -> at_lock i (sys_world sigma) h)
      /\ (forall q, locks (sys_world sigma) !! lock_path = Some q ->
                    exists s0 f rest, hs !! q = Some (opened s0 f ++ done :: rest))
      /\ (forall t, is_listening t (sys_world sigma) = true ->
                    exists j s0 f mid rest,
                      either_way mid
                      /\ hs !! j
                         = Some (opened s0 f ++ bound t mid
                                   ++ A_unit :: A_unit :: done :: rest)).

End Lock_race.

(** *** The race as a whole *)

(** No instance is running when the race starts: where the platform has
    the abstract namespace, the address is free; elsewhere the first
    candidate path is an ordinary path, its lock file can be opened and is
    not locked, and no socket listens. *)
Definition ready (appname : string) (is_macos : bool) (group_id : option string)
                 (w0 : world) : Prop :=
  if abstract_ns (plat w0)
  then abstract w0 !! the_address appname group_id (plat w0) = None
  else exists stem others,
      candidate_paths is_macos (plat w0)
        (instance_name appname (euid (plat w0)) group_id) ".lock"
      = lock_path stem :: others
      /\ is_abstract stem = false
      /\ can_open stem w0
      /\ locks w0 !! lock_path stem = None
      /\ forall t, is_listening t w0 = false.

(** What holds of [n] racing processes: at most one has returned [True],
    and it owns a listening socket; whoever has returned [False] keeps a
    connection to a listening socket of another process; and once all have
    finished, one has returned [True] and each of the others has returned
    [False], connected to it, or has raised the error of its connect. *)
Definition race_outcome (n : nat) (sigma : system) : Prop :=
  (forall i j, returned sigma i (Some true) -> returned sigma j (Some true) -> i = j)
  /\ (forall i, returned sigma i (Some true) ->
                exists s, owned_by i (sys_world sigma) s = true
                          /\ is_listening s (sys_world sigma) = true)
  /\ (forall i, returned sigma i (Some false) ->
                exists j, j <> i /\ j < n /\ connected_to i j (sys_world sigma))
  /\ (finished sigma = true -> 1 <= n ->
      exists j, returned sigma j (Some true)
                /\ forall i, i < n -> i <> j ->
                     (returned sigma i (Some false)
                      /\ connected_to i j (sys_world sigma))
                     \/ raised sigma i (OSError ENOENT)
                     \/ raised sigma i (OSError ECONNREFUSED)).

(** The outcome as the specification has it: when all have finished, one
    process has returned [True] and every other process has returned
    [False], connected to it. *)
Definition one_primary_rest_secondary (sigma : system) : Prop :=
  exists j, returned sigma j (Some true)
            /\ forall i, i < length (sys_procs sigma) -> i <> j ->
                 returned sigma i (Some false)
                 /\ connected_to i j (sys_world sigma).

End Race.

(** * The other helpers of kitty/utils.py *)

(** ** More of Python's strings *)

Module Py.

(** [s.split(sep)] for a one-character [sep]: the result is never empty. *)
Fixpoint split (sep : ascii) (s : string) : list string :=
  match s with
  | EmptyString => [EmptyString]
  | String c s' =>
      if Ascii.eqb c sep then EmptyString :: split sep s'
      else match split sep s' with
           | h :: t => String c h :: t
           | [] => [String c EmptyString]
           end
  end.

(** [sep.join(l)] *)
Fixpoint join (sep : string) (l : list string) : string :=
  match l with
  | [] => EmptyString
  | [x] => x
  | x :: l' => x +:+ sep +:+ join sep l'
  end.

(** [s[i]]: a negative index counts from the end; [None] stands for
    [IndexError]. *)
Definition index (s : string) (i : Z) : option ascii :=
  let n := Z.of_nat (String.length s) in
  if (0 <=? i)%Z then String.get (Z.to_nat i) s
  else if (0 <=? n + i)%Z then String.get (Z.to_nat (n + i)) s
  else None.

(** The position of the first [c] in [s]. *)
Fixpoint find (c : ascii) (s : string) : option Z :=
  match s with
  | EmptyString => None
  | String d s' =>
      if Ascii.eqb d c then Some 0%Z else option_map Z.succ (find c s')
  end.

End Py.

(** ** Colors as integers *)

(** [color_as_int(val)], for a [Color(red, green, blue)]. *)
Definition color_as_int (val : Z * Z * Z) : Z :=
  let '(r, g, b) := val in
  Z.lor (Z.lor (Z.shiftl r 16) (Z.shiftl g 8)) b.

(** [color_from_int(val)] *)
Definition color_from_int (val : Z) : Z * Z * Z :=
  (Z.land (Z.shiftr val 16) 255, Z.land (Z.shiftr val 8) 255, Z.land val 255).

(** ** base64_encode *)

(** [string.ascii_uppercase + string.ascii_lowercase + string.digits + '+/'],
    the default of [chars]. *)
Definition ascii_uppercase : string := "ABCDEFGHIJKLMNOPQRSTUVWXYZ".
Definition ascii_lowercase : string := "abcdefghijklmnopqrstuvwxyz".
Definition string_digits : string := "0123456789".
Definition base64_chars : string :=
  ascii_uppercase +:+ ascii_lowercase +:+ string_digits +:+ "+/".

(** How a [while True] loop stands after some rounds: it has returned, it
    has raised [IndexError], or it is still running. *)
Inductive looped (A : Type) : Type :=
| Gave (a : A)
| Index_error
| Still_running.
Arguments Gave {A} a.
Arguments Index_error {A}.
Arguments Still_running {A}.

(** The loop of [base64_encode], for at most [rounds] rounds. *)
Fixpoint base64_loop (rounds : nat) (integer : Z) (chars ans : string) : looped string :=
  match rounds with
  | O => Still_running
  | S rounds' =>
      let remainder := (integer mod 64)%Z in
      let integer := (integer / 64)%Z in
      match Py.index chars remainder with
      | None => Index_error
      | Some c =>
          let ans := String c ans in
          if (integer =? 0)%Z then Gave ans
          else base64_loop rounds' integer chars ans
      end
  end.

(** [base64_encode(integer, chars)] *)
Definition base64_encode (rounds : nat) (integer : Z) (chars : string) : looped string :=
  base64_loop rounds integer chars EmptyString.

(** The number a text stands for in base 64 with the digits [chars], most
    significant digit first. *)
Fixpoint base64_value (chars : string) (acc : Z) (s : string) : option Z :=
  match s with
  | EmptyString => Some acc
  | String c s' =>
      match Py.find c chars with
      | Some d => base64_value chars (64 * acc + d)%Z s'
      | None => None
      end
  end.

(** ** sanitize_title *)

(** The class [[\0-\x19\x80-\x9f]]. *)
Definition in_removed_class (c : ascii) : bool :=
  let n := nat_of_ascii c in
  Nat.leb n 25 || (Nat.leb 128 n && Nat.leb n 159).

(** [re.sub(r'[\0-\x19\x80-\x9f]', '', x)] *)
Fixpoint remove_class (x : string) : string :=
  match x with
  | EmptyString => EmptyString
  | String c x' =>
      if in_removed_class c then remove_class x' else String c (remove_class x')
  end.

(** [re.sub(r'\s+', ' ', x)]: every run of white space becomes one space;
    [in_run] tells whether the previous character was white space.  The
    white space of [\s] on a [str] is that of [str.isspace]. *)
Fixpoint collapse_space (in_run : bool) (x : string) : string :=
  match x with
  | EmptyString => EmptyString
  | String c x' =>
      if PyStr.isspace c then
        if in_run then collapse_space true x'
        else String " " (collapse_space true x')
      else String c (collapse_space false x')
  end.

(** [sanitize_title(x)] *)
Definition sanitize_title (x : string) : string :=
  collapse_space false (remove_class x).

(** A title with nothing to sanitize: no character of the removed class,
    no white space but the space, and no two spaces in a row. *)
Fixpoint is_sanitized (after_space : bool) (x : string) : bool :=
  match x with
  | EmptyString => true
  | String c x' =>
      negb (in_removed_class c)
      && (if PyStr.isspace c
          then Ascii.eqb c " " && negb after_space && is_sanitized true x'
          else is_sanitized false x')
  end.

(** ** parse_color_set *)

Section Color_sets.

(** [to_color] comes from [kitty.rgb]: the color a specification names.
    [None] stands for whatever makes [r, g, b = to_color(spec)] raise
    (the function returns [None] for a specification it cannot read). *)
Variable to_color : string -> option (Z * Z * Z).

(** [[parts[i:i + 2] for i in range(0, len(parts), 2)]], unpacked
    as pairs, for an even number of parts. *)
Fixpoint pairs_of (parts : list string) : list (string * string) :=
  match parts with
  | c :: spec :: rest => (c, spec) :: pairs_of rest
  | _ => []
  end.

(** One round of the loop: what it yields, if anything.  Every
    exception is swallowed by [except Exception: continue]. *)
Definition color_entry (c spec : string) : list (Z * option Z) :=
  match PyStr.int c with
  | None => []
  | Some c =>
      if ((c <? 0) || (255 <? c))%Z then []
      else if String.eqb spec "?" then [(c, None)]
      else match to_color spec with
           | Some (r, g, b) =>
               [(c, Some (Z.lor (Z.lor (Z.shiftl r 16) (Z.shiftl g 8)) b))]
           | None => []
           end
  end.

(** [parse_color_set(raw)], a generator: the list of what it yields. *)
Definition parse_color_set (raw : string) : list (Z * option Z) :=
  let parts := Py.split ";" raw in
  let lp := length parts in
  if negb (Nat.eqb (lp mod 2) 0) then []
  else flat_map (fun '(c, spec) => color_entry c spec) (pairs_of parts).

(** The text that asks for the colors [entries]: index and specification,
    all joined by semicolons. *)
Definition render_color_set (entries : list (nat * string)) : string :=
  Py.join ";" (flat_map (fun '(c, spec) => [PyStr.of_nat c; spec]) entries).

End Color_sets.

(** ** write_all and TTYIO.send *)

(** [s.encode('utf-8')], for code points below 256: one byte below 128,
    two bytes from 128 on. *)
Definition utf8_encode_char (c : ascii) : list Byte.byte :=
  let n := nat_of_ascii c in
  if Nat.ltb n 128 then [byte_of_ascii c]
  else [byte_of_ascii (ascii_of_nat (192 + n / 64));
        byte_of_ascii (ascii_of_nat (128 + n mod 64))].

Fixpoint utf8_encode (s : string) : list Byte.byte :=
  match s with
  | EmptyString => []
  | String c s' => utf8_encode_char c ++ utf8_encode s'
  end.

(** What [write_all] is given: a [str] or [bytes]. *)
Inductive py_data : Type :=
| Str (s : string)
| Bytes (b : list Byte.byte).

Definition to_bytes (data : py_data) : list Byte.byte :=
  match data with
  | Str s => utf8_encode s
  | Bytes b => b
  end.

(** [os.write(fd, data)]: the system says how many bytes it has taken, or
    refuses. *)
Definition writer (W : Type) : Type := fd -> list Byte.byte -> W -> result nat * W.

(** A call of [os.write]: the bytes offered and the answer. *)
Definition write_event : Type := (list Byte.byte * result nat)%type.

(** The loop of [write_all], for at most [rounds] calls of [os.write];
    [None] when the rounds do not suffice. *)
Fixpoint write_all_loop {W} (os_write : writer W) (rounds : nat) (f : fd)
         (data : list Byte.byte) (w : W)
  : option (outcome unit * W * list write_event) :=
  match data with
  | [] => Some (Returned tt, w, [])
  | _ :: _ =>
      match rounds with
      | O => None
      | S rounds' =>
          let '(r, w1) := os_write f data w in
          match r with
          | Err e => Some (Raised (OSError e), w1, [(data, r)])
          | Ok n =>
              if Nat.eqb n 0 then Some (Returned tt, w1, [(data, r)])
              else match write_all_loop os_write rounds' f (drop n data) w1 with
                   | Some (o, w2, t) => Some (o, w2, (data, r) :: t)
                   | None => None
                   end
          end
      end
  end.

(** [write_all(fd, data)]: as many rounds as there are bytes always
    suffice. *)
Definition write_all {W} (os_write : writer W) (f : fd) (data : py_data) (w : W)
  : option (outcome unit * W * list write_event) :=
  let data := to_bytes data in
  write_all_loop os_write (length data) f data w.

(** What [TTYIO.send] is given: a [str] or [bytes], or something to
    iterate over for chunks. *)
Inductive payload : Type :=
| Whole (data : py_data)
| Chunks (chunks : list py_data).

Fixpoint send_chunks {W} (os_write : writer W) (tty_fd : fd) (chunks : list py_data) (w : W)
  : option (outcome unit * W * list write_event) :=
  match chunks with
  | [] => Some (Returned tt, w, [])
  | chunk :: rest =>
      match write_all os_write tty_fd chunk w with
      | Some (Returned _, w1, t) =>
          match send_chunks os_write tty_fd rest w1 with
          | Some (o, w2, t2) => Some (o, w2, t ++ t2)
          | None => None
          end
      | other => other
      end
  end.

(** [TTYIO.send(self, data)], with [self.tty_fd] the descriptor. *)
Definition TTYIO_send {W} (os_write : writer W) (tty_fd : fd) (data : payload) (w : W)
  : option (outcome unit * W * list write_event) :=
  match data with
  | Whole d => write_all os_write tty_fd d w
  | Chunks l => send_chunks os_write tty_fd l w
  end.

(** The bytes the system has taken, by the answers of the calls. *)
Definition taken (t : list write_event) : list Byte.byte :=
  flat_map (fun '(data, r) => match r with
                              | Ok n => take n data
                              | Err _ => []
                              end) t.

(** The answer of the last call. *)
Definition last_answer (t : list write_event) : option (result nat) :=
  option_map snd (last t).

(** ** ScreenSizeGetter *)

Record ScreenSize : Type := Build_ScreenSize {
  rows : Z;
  cols : Z;
  width : Z;
  height : Z;
  cell_width : Z;
  cell_height : Z
}.

(** The attributes of a [ScreenSizeGetter]. *)
Record ScreenSizeGetter : Type := Build_ScreenSizeGetter {
  changed : bool;
  ans : option ScreenSize;
  self_fd : fd
}.

(** [ScreenSizeGetter(fd)]: [changed] and [ans] are those of the class. *)
Definition ScreenSizeGetter_init (f : fd) : ScreenSizeGetter :=
  Build_ScreenSizeGetter true None f.

(** [fcntl.ioctl(fd, termios.TIOCGWINSZ, buf)]: the four numbers the
    system puts into the buffer, or its refusal. *)
Definition window_size_ioctl (W : Type) : Type := fd -> W -> result (Z * Z * Z * Z) * W.

(** [a // b]; [None] stands for [ZeroDivisionError]. *)
Definition floordiv (a b : Z) : option Z :=
  if (b =? 0)%Z then None else Some (a / b)%Z.

(** [x or 1] *)
Definition or_1 (x : Z) : Z := if (x =? 0)%Z then 1%Z else x.

(** How a call of the getter ends. *)
Inductive size_outcome : Type :=
| Size (s : option ScreenSize)
| Zero_division
| Ioctl_failed (e : errno).

(** [ScreenSizeGetter.__call__(self)]: the outcome, the getter and the
    world after the call, and the number of [ioctl] calls made. *)
Definition ScreenSizeGetter_call {W} (ioctl : window_size_ioctl W)
           (self : ScreenSizeGetter) (w : W)
  : size_outcome * ScreenSizeGetter * W * nat :=
  if changed self then
    match ioctl (self_fd self) w with
    | (Err e, w1) => (Ioctl_failed e, self, w1, 1)
    | (Ok (rows, cols, width, height), w1) =>
        match floordiv width (or_1 cols), floordiv height (or_1 rows) with
        | Some cell_width, Some cell_height =>
            let size := Build_ScreenSize rows cols width height cell_width cell_height in
            (Size (Some size), Build_ScreenSizeGetter false (Some size) (self_fd self), w1, 1)
        | _, _ => (Zero_division, self, w1, 1)
        end
    end
  else (Size (ans self), self, w, 0).

(** ** exe_exists *)

(** The loop of [exe_exists] over the entries of [PATH]. *)
Fixpoint exe_exists_in (locs : list string) (exe : string) : prog (option string) :=
  match locs with
  | [] => Ret None
  | loc :: rest =>
      if PyStr.truthy loc then
        ok <- py_call (Access (path_join loc exe) [X_OK]) ;;
        if ok then Ret (Some (path_join loc exe)) else exe_exists_in rest exe
      else exe_exists_in rest exe
  end.

(** [exe_exists(exe)]: [environ_PATH] is [PATH] in [os.environ], if it is
    set; [None] as a result stands for [False]. *)
Definition exe_exists (environ_PATH : option string) (exe : string) : prog (option string) :=
  exe_exists_in (Py.split ":" (default "" environ_PATH)) exe.

(** The paths probed by [os.access], from the trace of a run. *)
Definition probed (t : list event) : list string :=
  flat_map (fun e => match e with Ev (Access p _) _ => [p] | _ => [] end) t.

(** The entries of [PATH] in which [exe] is found, when [executable] says
    what [os.access] answers: the entry is not empty and holds an
    executable [exe]. *)
Definition found_in (executable : string -> bool) (exe loc : string) : bool :=
  PyStr.truthy loc && executable (path_join loc exe).

(** ** natsort_ints *)

(** [\d] on a [str]: among the code points below 256, the digits 0..9. *)
Definition is_decimal (c : ascii) : bool :=
  match PyStr.digit_value c with
  | Some _ => true
  | None => false
  end.

(** [str.isdigit]: among the code points below 256 the digits are 0..9 and
    the superscripts two, three and one (178, 179 and 185). *)
Definition char_isdigit (c : ascii) : bool :=
  let n := nat_of_ascii c in
  is_decimal c || Nat.eqb n 178 || Nat.eqb n 179 || Nat.eqb n 185.

Fixpoint all_isdigit (s : string) : bool :=
  match s with
  | EmptyString => true
  | String c s' => char_isdigit c && all_isdigit s'
  end.

(** [text.isdigit()]: false for the empty text. *)
Definition isdigit (text : string) : bool := PyStr.truthy text && all_isdigit text.

(** [re.split(r'(\d+)', key)]: the text between the runs of digits and the
    runs themselves, in turn; the first and the last part are text, empty
    where the key starts or ends with a digit. *)
Fixpoint re_split_digits (key : string) : list string :=
  match key with
  | EmptyString => [EmptyString]
  | String c key' =>
      match re_split_digits key' with
      | part :: parts =>
          if is_decimal c then
            match part, parts with
            | EmptyString, run :: parts' => EmptyString :: String c run :: parts'
            | _, _ => EmptyString :: String c EmptyString :: part :: parts
            end
          else String c part :: parts
      | [] => []
      end
  end.

(** What [convert] gives: a text, or a number. *)
Inductive atom : Type :=
| Text (s : string)
| Number (n : Z).

(** [convert(text)]; [int] raises [ValueError] on what it cannot read. *)
Definition convert (text : string) : outcome atom :=
  if isdigit text then outcome_bind (py_int text) (fun n => Returned (Number n))
  else Returned (Text text).

(** [tuple(map(f, l))] *)
Fixpoint map_outcome {A B} (f : A -> outcome B) (l : list A) : outcome (list B) :=
  match l with
  | [] => Returned []
  | x :: l' =>
      outcome_bind (f x) (fun y =>
      outcome_bind (map_outcome f l') (fun ys => Returned (y :: ys)))
  end.

(** [alphanum_key(key)] *)
Definition alphanum_key (key : string) : outcome (list atom) :=
  map_outcome convert (re_split_digits key).

(** [s < t] on [str]: by code points, a proper prefix first. *)
Fixpoint str_lt (s t : string) : bool :=
  match s, t with
  | _, EmptyString => false
  | EmptyString, String _ _ => true
  | String c s', String d t' =>
      if Ascii.eqb c d then str_lt s' t'
      else Nat.ltb (nat_of_ascii c) (nat_of_ascii d)
  end.

(** [x == y] on what [convert] gives: a text is never equal to a number. *)
Definition atom_eqb (x y : atom) : bool :=
  match x, y with
  | Text s, Text t => String.eqb s t
  | Number n, Number m => Z.eqb n m
  | _, _ => false
  end.

(** [x < y]; [None] stands for the [TypeError] of comparing a text with a
    number. *)
Definition atom_lt (x y : atom) : option bool :=
  match x, y with
  | Text s, Text t => Some (str_lt s t)
  | Number n, Number m => Some (Z.ltb n m)
  | _, _ => None
  end.

(** [a < b] on tuples: the first items that are not equal decide, and a
    proper prefix comes first. *)
Fixpoint tuple_lt (a b : list atom) : option bool :=
  match a, b with
  | _, [] => Some false
  | [], _ :: _ => Some true
  | x :: a', y :: b' => if atom_eqb x y then tuple_lt a' b' else atom_lt x y
  end.

(** How [natsort_ints] ends. *)
Inductive sort_outcome : Type :=
| Sorted_list (l : list string)
| Key_raised (e : exn)
| Type_error.

(** [sorted] is stable: an item goes in front of the first item that is
    greater, behind every item that is not. Items carry their keys. *)
Fixpoint insert_by_key (x : string * list atom) (l : list (string * list atom))
  : option (list (string * list atom)) :=
  match l with
  | [] => Some [x]
  | y :: l' =>
      match tuple_lt (snd x) (snd y) with
      | None => None
      | Some true => Some (x :: l)
      | Some false => option_map (cons y) (insert_by_key x l')
      end
  end.

Fixpoint sort_by_key (sorted todo : list (string * list atom))
  : option (list (string * list atom)) :=
  match todo with
  | [] => Some sorted
  | x :: todo' =>
      match insert_by_key x sorted with
      | Some sorted' => sort_by_key sorted' todo'
      | None => None
      end
  end.

(** The keys of all items are computed first, in order. *)
Fixpoint with_keys (l : list string) : outcome (list (string * list atom)) :=
  match l with
  | [] => Returned []
  | s :: l' =>
      outcome_bind (alphanum_key s) (fun k =>
      outcome_bind (with_keys l') (fun ks => Returned ((s, k) :: ks)))
  end.

(** [natsort_ints(iterable)] *)
Definition natsort_ints (iterable : list string) : sort_outcome :=
  match with_keys iterable with
  | Raised e => Key_raised e
  | Returned keyed =>
      match sort_by_key [] keyed with
      | Some sorted => Sorted_list (map fst sorted)
      | None => Type_error
      end
  end.

(** The key of an item whose key can be computed. *)
Definition key_of (s : string) : list atom :=
  match alphanum_key s with
  | Returned k => k
  | Raised _ => []
  end.

(** The shape of a key: texts and numbers in turn. *)
Fixpoint key_shape (text_next : bool) (k : list atom) : bool :=
  match k with
  | [] => true
  | Text _ :: k' => text_next && key_shape false k'
  | Number _ :: k' => negb text_next && key_shape true k'
  end.

(** [a <= b] on keys that can be compared: [b < a] is false. *)
Definition key_le (a b : list atom) : Prop := tuple_lt b a = Some false.

(** A character that [str.isdigit] takes for a digit and [int] does not. *)
Definition is_superscript (c : ascii) : bool := char_isdigit c && negb (is_decimal c).

Fixpoint has_superscript (s : string) : bool :=
  match s with
  | EmptyString => false
  | String c s' => is_superscript c || has_superscript s'
  end.

Fixpoint all_decimal (s : string) : bool :=
  match s with
  | EmptyString => true
  | String c s' => is_decimal c && all_decimal s'
  end.

Fixpoint no_decimal (s : string) : bool :=
  match s with
  | EmptyString => true
  | String c s' => negb (is_decimal c) && no_decimal s'
  end.

(** The shape of what [re.split] gives: text without a digit and runs of
    digits that are not empty, in turn. *)
Fixpoint parts_shape (text_next : bool) (parts : list string) : bool :=
  match parts with
  | [] => true
  | p :: parts' =>
      (if text_next then no_decimal p else PyStr.truthy p && all_decimal p)
      && parts_shape (negb text_next) parts'
  end.

#[global] Instance atom_eq_dec : EqDecision atom.
Proof. solve_decision. Defined.

(** ** Tactics *)

Import Posix.

(** One step of a run, for any handler. *)
Ltac exec_step :=
  cbn [bind os_call checked_call py_call try_OSError suppress_OSError exec
       in_errnos existsb errno_eqb orb].

(** Case analysis on the answers of an arbitrary handler. *)
Ltac answer_cases h :=
  repeat (first
            [ progress cbn [bind os_call checked_call py_call try_OSError
                              suppress_OSError exec
                              until_yield for_list in_errnos existsb errno_eqb orb
                              PyStr.truthy]
            | match goal with
              | |- context [errno_eqb ?e _] => is_var e; destruct e
              end
            | match goal with
              | |- context [h ?T ?c ?w] =>
                  let r := fresh "r" in
                  let w' := fresh "w" in
                  destruct (h T c w) as [r w'];
                  match type of r with
                  | result _ => destruct r as [?|?]
                  | checked _ => destruct r as [[?|?]|?]
                  | bool => destruct r
                  | unit => destruct r
                  | _ => idtac
                  end
              end ]);
  repeat match goal with v : unit |- _ => destruct v end.

(** One step of a run on the kernel. *)
Ltac kstep :=
  cbn [exec bind os_call checked_call py_call try_OSError suppress_OSError kernel
       in_errnos existsb errno_eqb orb
       plat files abstract locks fds sockets procs
       so_owner so_state so_inheritable p_socket p_atexit
       with_files with_abstract with_locks with_fds with_sockets with_procs
       default fmap option_fmap option_map].

(** * Strings *)

Section String_facts.

Import PyStr.

Lemma split_first_cons_ne sep c s :
  Ascii.eqb c sep = false ->
  split_first sep (String c s)
  = match split_first sep s with Some (h, t) => Some (String c h, t) | None => None end.
Proof. intros H. simpl. now rewrite H. Qed.

Lemma split_last_none sep s :
  contains sep s = false -> split_last sep s = None.
Proof.
  induction s as [|c s IH]; simpl; [reflexivity|].
  intros H. apply orb_false_iff in H as [Hc Hs].
  rewrite (IH Hs), Hc. reflexivity.
Qed.

Lemma split_first_none sep s :
  contains sep s = false -> split_first sep s = None.
Proof.
  induction s as [|c s IH]; simpl; [reflexivity|].
  intros H. apply orb_false_iff in H as [Hc Hs].
  rewrite (IH Hs), Hc. reflexivity.
Qed.

Lemma split_first_app sep h t :
  contains sep h = false ->
  split_first sep (h +:+ String sep t) = Some (h, t).
Proof.
  induction h as [|c h IH]; simpl; intros Hh.
  - now rewrite Ascii.eqb_refl.
  - apply orb_false_iff in Hh as [Hc Hh].
    change (String.app h (String sep t)) with (h +:+ String sep t).
    now rewrite Hc, (IH Hh).
Qed.

(** The last separator of [h ++ sep ++ t] is the one written, when [t]
    has none. *)
Lemma split_last_app sep h t :
  contains sep t = false ->
  split_last sep (h +:+ String sep t) = Some (h, t).
Proof.
  intros Ht. induction h as [|c h IH]; simpl.
  - rewrite (split_last_none _ _ Ht), Ascii.eqb_refl. reflexivity.
  - change (String.app h (String sep t)) with (h +:+ String sep t).
    rewrite IH. reflexivity.
Qed.

Lemma contains_app c s t :
  contains c (s +:+ t) = contains c s || contains c t.
Proof.
  induction s as [|d s IH]; simpl; [reflexivity|].
  change (String.app s t) with (s +:+ t). rewrite IH. apply orb_assoc.
Qed.

(** *** [int] *)

Lemma colon_not_space c : Ascii.eqb c ":" = true -> int_space c = false.
Proof. intros H. apply Ascii.eqb_eq in H. subst c. reflexivity. Qed.

Lemma contains_colon_lstrip s :
  contains ":" s = true -> contains ":" (lstrip s) = true.
Proof.
  induction s as [|c s IH]; simpl; [discriminate|].
  intros H. destruct (int_space c) eqn:Hsp.
  - apply IH. destruct (Ascii.eqb c ":") eqn:Hc; [|exact H].
    rewrite (colon_not_space _ Hc) in Hsp. discriminate.
  - exact H.
Qed.

Lemma contains_colon_rstrip s :
  contains ":" s = true -> contains ":" (rstrip s) = true.
Proof.
  induction s as [|c s IH]; simpl; [discriminate|].
  intros H. destruct (Ascii.eqb c ":") eqn:Hc.
  - rewrite (colon_not_space _ Hc).
    destruct (rstrip s); simpl; rewrite Hc; reflexivity.
  - simpl in H. specialize (IH H).
    destruct (rstrip s) as [|d r]; [discriminate|].
    simpl. rewrite Hc. exact IH.
Qed.

Lemma digits_colon s acc prev :
  contains ":" s = true -> digits s acc prev = None.
Proof.
  revert acc prev. induction s as [|c s IH]; simpl; [discriminate|].
  intros acc prev H. destruct (Ascii.eqb c ":") eqn:Hc.
  - apply Ascii.eqb_eq in Hc. subst c. reflexivity.
  - simpl in H. destruct (digit_value c).
    + now apply IH.
    + destruct (Ascii.eqb c "_"); [|reflexivity].
      destruct prev; [now apply IH | reflexivity].
Qed.

(** Text that [int] accepts holds no colon. *)
Lemma int_no_colon s n : int s = Some n -> contains ":" s = false.
Proof.
  intros H. destruct (contains ":" s) eqn:Hc; [|reflexivity].
  apply contains_colon_lstrip, contains_colon_rstrip in Hc.
  unfold int in H. destruct (rstrip (lstrip s)) as [|c r]; [discriminate|].
  simpl in Hc. destruct (Ascii.eqb c ":") eqn:Hcc.
  - apply Ascii.eqb_eq in Hcc. subst c. simpl in H. discriminate.
  - simpl in Hc.
    assert (Hd : forall acc prev, digits (String c r) acc prev = None).
    { intros. apply digits_colon. simpl. now rewrite Hcc. }
    assert (Hr : forall acc prev, digits r acc prev = None).
    { intros. now apply digits_colon. }
    destruct c as [[] [] [] [] [] [] [] []];
      try (rewrite Hd in H; discriminate);
      rewrite Hr in H; discriminate.
Qed.

(** *** The characters of an integer literal *)

Lemma contains_lstrip c s :
  contains c s = true -> int_space c = true \/ contains c (lstrip s) = true.
Proof.
  induction s as [|d s IH]; simpl; [discriminate|].
  intros H. destruct (int_space d) eqn:Hd; [|right; exact H].
  destruct (Ascii.eqb d c) eqn:Hdc.
  - apply Ascii.eqb_eq in Hdc. subst. now left.
  - now apply IH.
Qed.

Lemma contains_rstrip c s :
  contains c s = true -> int_space c = true \/ contains c (rstrip s) = true.
Proof.
  induction s as [|d s IH]; simpl; [discriminate|].
  intros H. destruct (Ascii.eqb d c) eqn:Hdc.
  - apply Ascii.eqb_eq in Hdc. subst d.
    destruct (int_space c) eqn:Hc; [now left|right].
    destruct (rstrip s); simpl; now rewrite Ascii.eqb_refl.
  - simpl in H. destruct (IH H) as [?|Hr]; [now left|right].
    destruct (rstrip s) as [|x r]; [discriminate|].
    simpl. rewrite Hdc. exact Hr.
Qed.

Lemma digits_chars c s acc prev n :
  digits s acc prev = Some n -> contains c s = true ->
  digit_value c <> None \/ c = "_"%char.
Proof.
  revert acc prev. induction s as [|d s IH]; simpl; [discriminate|].
  intros acc prev H Hc. destruct (Ascii.eqb d c) eqn:Hdc.
  - apply Ascii.eqb_eq in Hdc. subst d.
    destruct (digit_value c); [left; discriminate|].
    destruct (Ascii.eqb c "_") eqn:Hu; [|discriminate].
    right. now apply Ascii.eqb_eq.
  - simpl in Hc. destruct (digit_value d).
    + eapply IH; eassumption.
    + destruct (Ascii.eqb d "_"); [|discriminate].
      destruct prev; [|discriminate]. eapply IH; eassumption.
Qed.

(** Text that [int] accepts is made of digits, underscores, a sign, and
    the white space [int] drops. *)
Lemma int_chars s n c :
  int s = Some n -> contains c s = true ->
  int_space c = true \/ digit_value c <> None
  \/ c = "_"%char \/ c = "+"%char \/ c = "-"%char.
Proof.
  intros H Hc.
  destruct (contains_lstrip _ _ Hc) as [?|Hl]; [now left|].
  destruct (contains_rstrip _ _ Hl) as [?|Hr]; [now left|].
  right. unfold int in H. destruct (rstrip (lstrip s)) as [|d r]; [discriminate|].
  assert (Hd : (d = "+"%char /\ exists m, digits r 0%Z false = Some m)
               \/ (d = "-"%char /\ exists m, digits r 0%Z false = Some m)
               \/ digits (String d r) 0%Z false = Some n).
  { destruct d as [[] [] [] [] [] [] [] []];
      first [ right; right; exact H
            | left; split; [reflexivity|]; eexists; exact H
            | right; left; split; [reflexivity|];
              destruct (digits r 0%Z false); [eauto | discriminate] ]. }
  simpl in Hr. destruct (Ascii.eqb d c) eqn:Hdc.
  - apply Ascii.eqb_eq in Hdc. subst d.
    destruct Hd as [[-> _]|[[-> _]|Hd]]; [tauto..|].
    destruct (digits_chars c _ _ _ _ Hd) as [?|?]; [|tauto..].
    simpl. now rewrite Ascii.eqb_refl.
  - simpl in Hr.
    destruct Hd as [[_ [m Hd]]|[[_ [m Hd]]|Hd]].
    + destruct (digits_chars c _ _ _ _ Hd Hr); tauto.
    + destruct (digits_chars c _ _ _ _ Hd Hr); tauto.
    + destruct (digits_chars c _ _ _ _ Hd) as [?|?]; [|tauto..].
      simpl. now rewrite Hdc.
Qed.

(** *** [int] reads back what [str] prints *)

Lemma lstrip_no_space s : no_space s = true -> lstrip s = s.
Proof.
  destruct s as [|c s]; simpl; [reflexivity|].
  intros H. apply andb_true_iff in H as [Hc _].
  apply negb_true_iff in Hc. now rewrite Hc.
Qed.

Lemma rstrip_no_space s : no_space s = true -> rstrip s = s.
Proof.
  induction s as [|c s IH]; simpl; [reflexivity|].
  intros H. apply andb_true_iff in H as [Hc Hs].
  apply negb_true_iff in Hc. rewrite (IH Hs), Hc.
  destruct s; reflexivity.
Qed.

Lemma uint_no_space d : no_space (NilEmpty.string_of_uint d) = true.
Proof. induction d; simpl; auto. Qed.

Lemma digits_uint d a prev :
  d <> Decimal.Nil \/ prev = true ->
  digits (NilEmpty.string_of_uint d) (Z.of_nat a) prev
  = Some (Z.of_nat (Nat.of_uint_acc d a)).
Proof.
  revert a prev.
  induction d as [|d IH|d IH|d IH|d IH|d IH|d IH|d IH|d IH|d IH|d IH];
    intros a prev Hd.
  { destruct Hd as [Hd | ->]; [congruence | reflexivity]. }
  all: cbn [NilEmpty.string_of_uint digits Nat.of_uint_acc].
  all: match goal with
       | |- context [digit_value ?c] =>
           let v := eval vm_compute in (digit_value c) in
           change (digit_value c) with v; cbv iota
       end.
  all: match goal with
       | |- digits ?s ?acc true = Some (Z.of_nat (Nat.of_uint_acc ?d ?a')) =>
           replace acc with (Z.of_nat a');
           [apply IH; now right | rewrite ?Nat.tail_mul_spec; lia]
       end.
Qed.

Lemma int_uint d :
  int (NilZero.string_of_uint d) = Some (Z.of_nat (Nat.of_uint d)).
Proof.
  unfold int, NilZero.string_of_uint, Nat.of_uint.
  destruct d as [|d|d|d|d|d|d|d|d|d|d]; [reflexivity|..].
  all: rewrite lstrip_no_space, rstrip_no_space by apply uint_no_space;
    cbn [NilEmpty.string_of_uint]; cbv iota beta;
    match goal with
    | |- digits (String ?c ?r) _ false = Some (Z.of_nat (Nat.of_uint_acc ?d0 _)) =>
        change (String c r) with (NilEmpty.string_of_uint d0);
        apply (digits_uint d0 0 false); now left
    end.
Qed.

Lemma int_of_nat n : int (of_nat n) = Some (Z.of_nat n).
Proof. unfold of_nat. now rewrite int_uint, Unsigned.of_to. Qed.


(** *** Paths *)

Lemma str_app_assoc (a b c : string) : (a +:+ b) +:+ c = a +:+ b +:+ c.
Proof.
  induction a as [|x a IH]; [reflexivity|].
  change (String x ((a +:+ b) +:+ c) = String x (a +:+ b +:+ c)).
  now rewrite IH.
Qed.

Lemma str_app_nil_r (a : string) : a +:+ "" = a.
Proof.
  induction a as [|x a IH]; [reflexivity|].
  change (String x (a +:+ "") = String x a). now rewrite IH.
Qed.

Lemma startswith_head p c s s' :
  startswith (String p "") (String c s) = startswith (String p "") (String c s').
Proof.
  unfold startswith. cbn [String.prefix].
  destruct (ascii_dec p c); [|reflexivity]. now destruct s, s'.
Qed.

(** Joining a file name that carries an extension. *)
Lemma path_join_ext a f e :
  startswith "/" e = false ->
  path_join a (f +:+ e) = path_join a f +:+ e.
Proof.
  intros He. unfold path_join. destruct f as [|c f].
  - change ("" +:+ e) with e. rewrite He.
    change (startswith "/" "") with false. cbv iota.
    destruct (negb (truthy a) || endswith_slash a).
    + now rewrite str_app_nil_r.
    + rewrite str_app_assoc. reflexivity.
  - change (String c f +:+ e) with (String c (f +:+ e)) at 1.
    rewrite (startswith_head "/" c (f +:+ e) f).
    destruct (startswith "/" (String c f)); [reflexivity|].
    destruct (negb (truthy a) || endswith_slash a); now rewrite !str_app_assoc.
Qed.

(** The socket path is the lock path with its extension replaced. *)
Lemma socket_path_of_lock stem :
  socket_path_of (stem +:+ ".lock") = stem +:+ ".sock".
Proof.
  unfold socket_path_of, rpartition.
  change (stem +:+ ".lock") with (stem +:+ String "." "lock").
  now rewrite split_last_app.
Qed.

Lemma socket_path_of_join loc file :
  socket_path_of (path_join loc (file +:+ ".lock")) = path_join loc (file +:+ ".sock").
Proof.
  rewrite !path_join_ext by reflexivity. apply socket_path_of_lock.
Qed.

End String_facts.

(** * parse_address_spec *)

Section Parse.

Example parse_unix_path :
  parse_address_spec "unix:/tmp/mykitty"
  = Returned (AF_UNIX, AddrStr "/tmp/mykitty", Some "/tmp/mykitty").
Proof. reflexivity. Qed.

Example parse_tcp6_loopback :
  parse_address_spec "tcp6:::1:5000"
  = Returned (AF_INET6, AddrHostPort "::1" 5000%Z, None).
Proof. reflexivity. Qed.

Lemma parse_unix rest :
  parse_address_spec ("unix:" +:+ rest)
  = if abstract_form rest
    then Returned (AF_UNIX, AddrStr (String NUL (PyStr.tail rest)), None)
    else Returned (AF_UNIX, AddrStr rest, Some rest).
Proof. reflexivity. Qed.

Lemma parse_split proto rest :
  PyStr.contains ":" proto = false ->
  PyStr.split1 ":" (proto +:+ ":" +:+ rest) = [proto; rest].
Proof.
  intros H. unfold PyStr.split1.
  change (proto +:+ ":" +:+ rest) with (proto +:+ String ":" rest).
  now rewrite (split_first_app _ _ _ H).
Qed.

Lemma parse_tcp_any proto host port n :
  proto = "tcp" \/ proto = "tcp6" ->
  PyStr.int port = Some n ->
  parse_address_spec (proto +:+ ":" +:+ host +:+ ":" +:+ port)
  = Returned (if String.eqb proto "tcp" then AF_INET else AF_INET6,
              AddrHostPort host n, None).
Proof.
  intros Hp Hn. unfold parse_address_spec.
  rewrite parse_split by (destruct Hp; subst; reflexivity).
  cbn [unpack2 outcome_bind]. unfold PyStr.rsplit1.
  change (host +:+ ":" +:+ port) with (host +:+ String ":" port).
  rewrite split_last_app by (eapply int_no_colon; eauto).
  cbn [unpack2 outcome_bind]. unfold py_int. rewrite Hn.
  destruct Hp; subst; reflexivity.
Qed.

Lemma parse_tcp host port n :
  PyStr.int port = Some n ->
  parse_address_spec ("tcp:" +:+ host +:+ ":" +:+ port)
  = Returned (AF_INET, AddrHostPort host n, None).
Proof. intros Hn. exact (parse_tcp_any "tcp" host port n (or_introl eq_refl) Hn). Qed.

Lemma parse_tcp6 host port n :
  PyStr.int port = Some n ->
  parse_address_spec ("tcp6:" +:+ host +:+ ":" +:+ port)
  = Returned (AF_INET6, AddrHostPort host n, None).
Proof. intros Hn. exact (parse_tcp_any "tcp6" host port n (or_intror eq_refl) Hn). Qed.

Lemma parse_render e :
  well_formed e = true -> parse_address_spec (render_spec e) = Returned (fields_of e).
Proof.
  destruct e as [name|path|host port|host port]; cbn [render_spec fields_of well_formed].
  - intros H. change ("unix:@" +:+ name) with ("unix:" +:+ String "@" name).
    rewrite parse_unix. destruct name; [discriminate|reflexivity].
  - intros H. rewrite parse_unix. apply negb_true_iff in H. now rewrite H.
  - intros _. apply parse_tcp, int_of_nat.
  - intros _. apply parse_tcp6, int_of_nat.
Qed.

(** C3: every well-formed endpoint is recovered from its text.  A unix
    rest that is an at sign followed by more text gives the abstract address
    and no cleanup path, any other unix rest is both the address and the
    cleanup path; tcp and tcp6 give the host before the last colon and the
    port after it, read as an integer, whatever colons the host holds. *)
Theorem parse_address_spec_recovers_fields :
  (forall e, well_formed e = true ->
             parse_address_spec (render_spec e) = Returned (fields_of e))
  /\ (forall rest,
        parse_address_spec ("unix:" +:+ rest)
        = if PyStr.startswith "@" rest && Nat.ltb 1 (String.length rest)
          then Returned (AF_UNIX, AddrStr (String NUL (PyStr.tail rest)), None)
          else Returned (AF_UNIX, AddrStr rest, Some rest))
  /\ (forall host port n,
        PyStr.int port = Some n ->
        parse_address_spec ("tcp:" +:+ host +:+ ":" +:+ port)
        = Returned (AF_INET, AddrHostPort host n, None)
        /\ parse_address_spec ("tcp6:" +:+ host +:+ ":" +:+ port)
           = Returned (AF_INET6, AddrHostPort host n, None)).
Proof.
  split; [exact parse_render|]. split; [exact parse_unix|].
  intros host port n Hn. split; [now apply parse_tcp | now apply parse_tcp6].
Qed.

Lemma parse_address_spec_recovers_fields_witness :
  parse_address_spec (render_spec (Tcp6 "::1" 5000))
  = Returned (fields_of (Tcp6 "::1" 5000))
  /\ parse_address_spec (render_spec (Unix_abstract "mykitty"))
     = Returned (fields_of (Unix_abstract "mykitty"))
  /\ parse_address_spec ("tcp6:" +:+ "fe80::1" +:+ ":" +:+ " 80 ")
     = Returned (AF_INET6, AddrHostPort "fe80::1" 80%Z, None).
Proof.
  destruct parse_address_spec_recovers_fields as (Hr & _ & Ht).
  split; [apply Hr; reflexivity|].
  split; [apply Hr; reflexivity|].
  apply (Ht "fe80::1" " 80 " 80%Z). reflexivity.
Defined.

Lemma parse_no_colon spec :
  PyStr.contains ":" spec = false ->
  parse_address_spec spec = Raised (ValueError (Not_enough_values 2 1)).
Proof.
  intros H. unfold parse_address_spec, PyStr.split1.
  now rewrite (split_first_none _ _ H).
Qed.

Lemma parse_unknown_protocol proto rest :
  PyStr.contains ":" proto = false ->
  proto <> "unix" -> proto <> "tcp" -> proto <> "tcp6" ->
  parse_address_spec (proto +:+ ":" +:+ rest)
  = Raised (ValueError (Unknown_protocol (proto +:+ ":" +:+ rest))).
Proof.
  intros Hc Hu Ht Ht6. unfold parse_address_spec.
  rewrite (parse_split _ _ Hc). cbn [unpack2 outcome_bind].
  apply String.eqb_neq in Hu, Ht, Ht6. now rewrite Hu, Ht, Ht6.
Qed.

Lemma parse_tcp_no_separator proto rest :
  proto = "tcp" \/ proto = "tcp6" ->
  PyStr.contains ":" rest = false ->
  parse_address_spec (proto +:+ ":" +:+ rest)
  = Raised (ValueError (Not_enough_values 2 1)).
Proof.
  intros Hp Hr. unfold parse_address_spec.
  rewrite parse_split by (destruct Hp; subst; reflexivity).
  cbn [unpack2 outcome_bind]. unfold PyStr.rsplit1.
  rewrite (split_last_none _ _ Hr).
  destruct Hp; subst; reflexivity.
Qed.

Lemma parse_tcp_bad_port proto host port :
  proto = "tcp" \/ proto = "tcp6" ->
  PyStr.contains ":" port = false ->
  PyStr.int port = None ->
  parse_address_spec (proto +:+ ":" +:+ host +:+ ":" +:+ port)
  = Raised (ValueError (Invalid_literal port)).
Proof.
  intros Hp Hc Hn. unfold parse_address_spec.
  rewrite parse_split by (destruct Hp; subst; reflexivity).
  cbn [unpack2 outcome_bind]. unfold PyStr.rsplit1.
  change (host +:+ ":" +:+ port) with (host +:+ String ":" port).
  rewrite (split_last_app _ _ _ Hc). cbn [unpack2 outcome_bind].
  unfold py_int. rewrite Hn.
  destruct Hp; subst; reflexivity.
Qed.

(** A port with a character that no integer literal has is no number. *)
Lemma parse_tcp_stray_character proto host port c :
  proto = "tcp" \/ proto = "tcp6" ->
  PyStr.contains ":" port = false ->
  PyStr.contains c port = true ->
  PyStr.int_space c = false -> PyStr.digit_value c = None ->
  c <> "_"%char -> c <> "+"%char -> c <> "-"%char ->
  parse_address_spec (proto +:+ ":" +:+ host +:+ ":" +:+ port)
  = Raised (ValueError (Invalid_literal port)).
Proof.
  intros Hp Hc Hin Hs Hd Hu Hplus Hminus.
  apply parse_tcp_bad_port; [assumption..|].
  destruct (PyStr.int port) as [n|] eqn:Hn; [|reflexivity].
  destruct (int_chars port n c Hn Hin) as [?|[?|[?|[?|?]]]]; congruence.
Qed.

Lemma parse_raises_ValueError spec e :
  parse_address_spec spec = Raised e -> is_ValueError e = true.
Proof.
  unfold parse_address_spec, py_int.
  destruct (unpack2 (PyStr.split1 ":" spec)) as [[proto rest]|e0] eqn:Hs.
  - cbn [outcome_bind].
    destruct (String.eqb proto "unix").
    { destruct (_ && _); discriminate. }
    destruct (_ || _); [|intros [= <-]; reflexivity].
    destruct (unpack2 (PyStr.rsplit1 ":" rest)) as [[host port]|e1] eqn:Hr.
    + cbn [outcome_bind]. destruct (PyStr.int port); cbn [outcome_bind].
      * discriminate.
      * intros [= <-]. reflexivity.
    + cbn [outcome_bind]. intros [= <-].
      unfold unpack2 in Hr. destruct (PyStr.rsplit1 ":" rest) as [|? [|? [|? ?]]];
        inversion Hr; reflexivity.
  - cbn [outcome_bind]. intros [= <-].
    unfold unpack2 in Hs. destruct (PyStr.split1 ":" spec) as [|? [|? [|? ?]]];
      inversion Hs; reflexivity.
Qed.

Lemma parse_is_pure {W} (h : handler W) (w : W) spec :
  exec h (of_outcome (parse_address_spec spec)) w = (parse_address_spec spec, w, []).
Proof. destruct (parse_address_spec spec); reflexivity. Qed.

(** C4, as the claim states it, fails: a tcp specification without the
    colon between host and port fails in the unpacking of the split, and
    that error does not carry the specification. *)
Lemma parse_error_without_the_spec :
  parse_address_spec "tcp:1234" = Raised (ValueError (Not_enough_values 2 1))
  /\ ~ (exists e, parse_address_spec "tcp:1234" = Raised e
                  /\ carried_text e = Some "tcp:1234").
Proof.
  split; [reflexivity|]. intros (e & He & Hc).
  change (Raised (ValueError (Not_enough_values 2 1))
          = Raised (A:=family * address * option string) e) in He.
  injection He as <-. discriminate.
Qed.

(** C4, amended: a specification with an unknown protocol fails with the
    ValueError that carries the specification; one with no colon at all,
    or a tcp or tcp6 rest with no colon, fails with the ValueError of
    unpacking, which carries no text; a port that is not a number fails
    with the ValueError of int, which carries the port text, and a port is
    no number as soon as one of its characters is neither a digit, an
    underscore, a sign nor white space that int drops (the separators 28
    to 31 are not); every failure is a ValueError, and the function calls
    nothing and leaves every world as it was. *)
Theorem parse_address_spec_failures :
  (forall proto rest,
      PyStr.contains ":" proto = false ->
      proto <> "unix" -> proto <> "tcp" -> proto <> "tcp6" ->
      parse_address_spec (proto +:+ ":" +:+ rest)
      = Raised (ValueError (Unknown_protocol (proto +:+ ":" +:+ rest))))
  /\ (forall spec,
        PyStr.contains ":" spec = false ->
        parse_address_spec spec = Raised (ValueError (Not_enough_values 2 1)))
  /\ (forall proto rest,
        proto = "tcp" \/ proto = "tcp6" ->
        PyStr.contains ":" rest = false ->
        parse_address_spec (proto +:+ ":" +:+ rest)
        = Raised (ValueError (Not_enough_values 2 1)))
  /\ (forall proto host port,
        proto = "tcp" \/ proto = "tcp6" ->
        PyStr.contains ":" port = false ->
        PyStr.int port = None ->
        parse_address_spec (proto +:+ ":" +:+ host +:+ ":" +:+ port)
        = Raised (ValueError (Invalid_literal port)))
  /\ (forall proto host port c,
        proto = "tcp" \/ proto = "tcp6" ->
        PyStr.contains ":" port = false ->
        PyStr.contains c port = true ->
        PyStr.int_space c = false -> PyStr.digit_value c = None ->
        c <> "_"%char -> c <> "+"%char -> c <> "-"%char ->
        parse_address_spec (proto +:+ ":" +:+ host +:+ ":" +:+ port)
        = Raised (ValueError (Invalid_literal port)))
  /\ (forall spec e, parse_address_spec spec = Raised e -> is_ValueError e = true)
  /\ (forall W (h : handler W) (w : W) spec,
        exec h (of_outcome (parse_address_spec spec)) w
        = (parse_address_spec spec, w, [])).
Proof.
  repeat split.
  - exact parse_unknown_protocol.
  - exact parse_no_colon.
  - exact parse_tcp_no_separator.
  - exact parse_tcp_bad_port.
  - exact parse_tcp_stray_character.
  - exact parse_raises_ValueError.
  - intros. apply parse_is_pure.
Qed.

Lemma parse_address_spec_failures_witness :
  parse_address_spec "foo:bar" = Raised (ValueError (Unknown_protocol "foo:bar"))
  /\ parse_address_spec "tcp:1234" = Raised (ValueError (Not_enough_values 2 1))
  /\ parse_address_spec "tcp:host:notanumber"
     = Raised (ValueError (Invalid_literal "notanumber"))
  /\ parse_address_spec ("tcp:h:" +:+ String "031" "7")
     = Raised (ValueError (Invalid_literal (String "031" "7"))).
Proof.
  destruct parse_address_spec_failures as (Hu & _ & Hs & Hp & Hc & _).
  split; [apply (Hu "foo" "bar"); [reflexivity | discriminate..]|].
  split; [apply (Hs "tcp" "1234"); [now left | reflexivity]|].
  split; [apply (Hp "tcp" "host" "notanumber"); [now left | reflexivity..]|].
  apply (Hc "tcp" "h" (String "031" "7") "031"%char);
    [now left | reflexivity.. | discriminate | discriminate | discriminate].
Defined.

End Parse.

(** * Running programs under an arbitrary handler *)


Section Exec_facts.

Context {W : Type} (h : handler W).

Lemma exec_bind {A B} (p : prog A) (f : A -> prog B) (w : W) :
  exec h (bind p f) w
  = match exec h p w with
    | (Returned a, w1, t) =>
        let '(o, w2, t2) := exec h (f a) w1 in (o, w2, t ++ t2)
    | (Raised e, w1, t) => (Raised e, w1, t)
    end.
Proof.
  revert w. induction p as [a|e|T c k IH]; intros w; cbn [bind exec].
  - destruct (exec h (f a) w) as [[o w2] t2]. reflexivity.
  - reflexivity.
  - destruct (h T c w) as [r w1]. rewrite IH.
    destruct (exec h (k r) w1) as [[[a|e] w2] t]; [|reflexivity].
    destruct (exec h (f a) w2) as [[o w3] t3]. reflexivity.
Qed.

(** A [for] loop over a generator: the generator runs to its first
    [yield], then the body runs; the generator is resumed only when the
    body falls through. *)
Lemma exec_for_in {A} (g : prog unit) (body : string -> prog (flow A)) (w : W) :
  exec h (for_in g body) w
  = match until_yield h g w with
    | (Finished (Returned _), w1, t) => (Returned None, w1, t)
    | (Finished (Raised e), w1, t) => (Raised e, w1, t)
    | (Yielded v rest, w1, t) =>
        match exec h (body v) w1 with
        | (Returned (Return a), w2, t2) => (Returned (Some a), w2, t ++ t2)
        | (Returned Next, w2, t2) =>
            let '(o, w3, t3) := exec h (for_in rest body) w2 in
            (o, w3, t ++ t2 ++ t3)
        | (Raised e, w2, t2) => (Raised e, w2, t ++ t2)
        end
    end.
Proof.
  revert w. induction g as [a|e|T c k IH]; intros w.
  - destruct a. reflexivity.
  - reflexivity.
  - destruct c; cbn [for_in until_yield exec];
      try (destruct (h _ _ w) as [r w1]; rewrite IH;
           destruct (until_yield h (k r) w1) as [[[? ?|[[]|?]] ?] ?];
           [ destruct (exec h (body _) _) as [[[[|?]|?] ?] ?];
             [ destruct (exec h (for_in _ body) _) as [[? ?] ?] | .. ]
           | .. ]; reflexivity).
    rewrite exec_bind.
    destruct (exec h (body v) w) as [[[[|?]|?] w2] t2]; try reflexivity.
    cbn [exec]. destruct (exec h (for_in (k ()) body) w2) as [[o w3] t3].
    cbn [app]. now rewrite app_nil_r.
Qed.

End Exec_facts.


Section Filesystem_coordinator.

Context {W : Type} (h : handler W).
Variable appname : string.
Variable is_macos : bool.

Lemma count_app f t1 t2 : count f (t1 ++ t2) = count f t1 + count f t2.
Proof. unfold count. now rewrite List.filter_app, length_app. Qed.

(** What every run of the loop body looks like: it never falls through
    to a next iteration, it opens one lock file, asks for the lock at most
    once, binds at most twice and unlinks at most once; and when the open
    fails, that error is what the body raises. *)
Lemma body_shape path w :
  let x := exec h (single_instance_unix_body path) w in
  result_of x <> Returned Next
  /\ count is_Open (trace_of x) = 1
  /\ count is_Lockf (trace_of x) <= 1
  /\ count is_Bind (trace_of x) <= 2
  /\ count is_Unlink (trace_of x) <= 1
  /\ Forall (fun ev => forall e, failed_open ev = Some e ->
                                 result_of x = Raised (OSError e)) (trace_of x).
Proof.
  unfold single_instance_unix_body. answer_cases h.
  all: cbn; repeat split; try discriminate; try lia;
    repeat constructor; cbn; congruence.
Qed.

(** The generator makes no call but the look-ups of the directories and
    the access checks. *)
Lemma paths_prefix name ext w :
  let x := until_yield h (unix_socket_paths is_macos name ext) w in
  count is_Open (snd x) = 0 /\ count is_Lockf (snd x) = 0
  /\ count is_Bind (snd x) = 0 /\ count is_Unlink (snd x) = 0
  /\ Forall (fun ev => failed_open ev = None) (snd x).
Proof.
  unfold unix_socket_paths. destruct is_macos; answer_cases h.
  all: cbn; repeat split; repeat constructor.
Qed.

(** [single_instance_unix] works on one candidate only. *)
Lemma single_instance_unix_shape name w :
  let x := exec h (single_instance_unix is_macos name) w in
  count is_Open (trace_of x) <= 1
  /\ count is_Lockf (trace_of x) <= 1
  /\ count is_Bind (trace_of x) <= 2
  /\ count is_Unlink (trace_of x) <= 1
  /\ Forall (fun ev => forall e, failed_open ev = Some e ->
                                 result_of x = Raised (OSError e)) (trace_of x).
Proof.
  unfold single_instance_unix. rewrite exec_for_in.
  pose proof (paths_prefix name ".lock" w) as Hp.
  destruct (until_yield h (unix_socket_paths is_macos name ".lock") w)
    as [[[v rest|[[]|e]] w1] t]; cbn [snd] in Hp;
    destruct Hp as (Ho & Hl & Hb & Hu & Hf).
  - pose proof (body_shape v w1) as Hbody.
    destruct (exec h (single_instance_unix_body v) w1) as [[[[|a]|e] w2] t2];
      cbn [result_of trace_of fst snd] in Hbody |- *;
      destruct Hbody as (Hn & Ho2 & Hl2 & Hb2 & Hu2 & Hf2); [congruence|..].
    all: rewrite !count_app, Ho, Hl, Hb, Hu; repeat split; try lia.
    all: apply Forall_app; split;
      [ eapply Forall_impl; [exact Hf|]; cbn; intros ev Hev e' He'; congruence
      | eapply Forall_impl; [exact Hf2|]; cbn; intros ev Hev e' He';
        specialize (Hev e' He'); congruence ].
  - cbn [trace_of snd]. rewrite Ho, Hl, Hb, Hu. repeat split; try lia.
    eapply Forall_impl; [exact Hf|]. cbn. congruence.
  - cbn [trace_of snd]. rewrite Ho, Hl, Hb, Hu. repeat split; try lia.
    eapply Forall_impl; [exact Hf|]. cbn. congruence.
Qed.

(** *** The access checks

    Under every system the generator asks for the directories, checks each
    candidate for write, read and execute access, in the order of the
    list, and yields the path in each directory that passes. *)
Lemma paths_checks name ext w :
  let home := fst (h _ (Expanduser "~") w) in
  let w1 := snd (h _ (Expanduser "~") w) in
  let tmp := fst (h _ Gettempdir w1) in
  let w2 := snd (h _ Gettempdir w1) in
  let ucd := fst (h _ User_cache_dir w2) in
  let x := exec h (unix_socket_paths is_macos name ext) w in
  let cs := access_checks (trace_of x) in
  result_of x = Returned tt
  /\ List.map (fun a => fst (fst a)) cs
     = (if is_macos then [ucd; "/Library/Caches"] else [tmp; home])
  /\ Forall (fun a => snd (fst a) = [W_OK; R_OK; X_OK]) cs
  /\ yielded (trace_of x)
     = List.map (fun a => path_join (fst (fst a))
                            ((if String.eqb (fst (fst a)) home then "." else "")
                             +:+ name +:+ ext))
         (List.filter (fun a => snd a) cs).
Proof.
  cbv zeta. unfold unix_socket_paths. exec_step.
  destruct (h _ (Expanduser "~") w) as [home w1]. cbn [fst snd]. exec_step.
  destruct (h _ Gettempdir w1) as [tmp w2]. cbn [fst snd].
  destruct is_macos; exec_step.
  - destruct (h _ User_cache_dir w2) as [ucd w3]. cbn [fst snd].
    answer_cases h; cbn; repeat split; repeat constructor.
  - answer_cases h; cbn; repeat split; repeat constructor.
Qed.

(** [single_instance_unix] stops at the first directory that passes the
    check for write, read and execute access: the directories are checked
    in the order of the list, every check before the last one has failed,
    and the lock file that is opened lies in the directory that passed;
    when none passes, nothing is opened and the result is [None]. *)
Lemma single_instance_unix_checks name w :
  let home := fst (h _ (Expanduser "~") w) in
  let w1 := snd (h _ (Expanduser "~") w) in
  let tmp := fst (h _ Gettempdir w1) in
  let w2 := snd (h _ Gettempdir w1) in
  let ucd := fst (h _ User_cache_dir w2) in
  let x := exec h (single_instance_unix is_macos name) w in
  let cs := access_checks (trace_of x) in
  Forall (fun a => snd (fst a) = [W_OK; R_OK; X_OK]) cs
  /\ (exists rest, List.map (fun a => fst (fst a)) cs ++ rest
                   = (if is_macos then [ucd; "/Library/Caches"] else [tmp; home]))
  /\ (Forall (fun a => snd a = false) cs ->
      result_of x = Returned None /\ opened_paths (trace_of x) = [])
  /\ (forall d m, In (d, m, true) cs ->
        exists pre,
          cs = pre ++ [(d, m, true)]
          /\ Forall (fun a => snd a = false) pre
          /\ opened_paths (trace_of x)
             = [path_join d ((if String.eqb d home then "." else "")
                             +:+ name +:+ ".lock")]).
Proof.
  cbv zeta. unfold single_instance_unix, unix_socket_paths, single_instance_unix_body.
  cbn [for_in bind py_call]. exec_step.
  destruct (h _ (Expanduser "~") w) as [home w1]. cbn [fst snd].
  cbn [for_in bind py_call]. exec_step.
  destruct (h _ Gettempdir w1) as [tmp w2]. cbn [fst snd].
  destruct is_macos; cbn [for_in bind py_call]; exec_step.
  1: destruct (h _ User_cache_dir w2) as [ucd w3]; cbn [fst snd].
  all: repeat (progress (cbn [for_in bind py_call os_call for_list]; answer_cases h)).
  all: cbn; (split; [repeat constructor|]); (split; [eexists; reflexivity|]).
  all: split; [intros HF; repeat (inversion HF as [|? ? ? HF']; clear HF; rename HF' into HF;
                                  try discriminate); split; reflexivity|].
  all: intros d m Hin; cbn in Hin.
  all: repeat match goal with
              | H : _ \/ _ |- _ => destruct H as [H|H]
              | H : False |- _ => destruct H
              | H : (_, _, _) = (_, _, _) |- _ =>
                  first [discriminate H | injection H as <- <-]
              end.
  all: first [ exists []; split; [reflexivity|split; [constructor|reflexivity]]
             | eexists [_]; split;
               [reflexivity|split; [repeat constructor|reflexivity]] ].
Qed.

End Filesystem_coordinator.

Section Dispatch.

Context {W : Type} (h : handler W).
Variable appname : string.
Variable is_macos : bool.

(** The lock is refused. *)
Lemma body_lock_failure path w f w1 e w2 :
  h _ (Open path open_flags) w = (Ok f, w1) ->
  h _ (Lockf f lock_flags) w1 = (Err e, w2) ->
  let sp := socket_path_of path in
  let pre := [Ev (Open path open_flags) (Ok f); Ev (Lockf f lock_flags) (Err e)] in
  exec h (single_instance_unix_body path) w
  = if in_errnos e [EAGAIN; EACCES] then
      match h _ (Socket AF_UNIX) w2 with
      | (Err e1, w3) =>
          (Raised (OSError e1), w3, pre ++ [Ev (Socket AF_UNIX) (Err e1)])
      | (Ok s, w3) =>
          match h _ (Connect s sp) w3 with
          | (Err e2, w4) =>
              (Raised (OSError e2), w4,
               pre ++ [Ev (Socket AF_UNIX) (Ok s); Ev (Connect s sp) (Err e2)])
          | (Ok u, w4) =>
              (Returned (Return false), snd (h _ (Set_socket s) w4),
               pre ++ [Ev (Socket AF_UNIX) (Ok s); Ev (Connect s sp) (Ok u);
                       Ev (Set_socket s) (fst (h _ (Set_socket s) w4))])
          end
      end
    else (Raised (OSError e), w2, pre).
Proof.
  intros Ho Hl. unfold single_instance_unix_body, open_flags, lock_flags in *.
  exec_step. rewrite Ho. exec_step. rewrite Hl.
  destruct e; answer_cases h; reflexivity.
Qed.

(** The lock is held and the first bind fails. *)
Lemma body_bind_failure path w f w1 u w2 s w3 e w4 :
  h _ (Open path open_flags) w = (Ok f, w1) ->
  h _ (Lockf f lock_flags) w1 = (Ok u, w2) ->
  h _ (Socket AF_UNIX) w2 = (Ok s, w3) ->
  let sp := socket_path_of path in
  h _ (Bind s sp) w3 = (Err e, w4) ->
  let pre := [Ev (Open path open_flags) (Ok f); Ev (Lockf f lock_flags) (Ok u);
              Ev (Socket AF_UNIX) (Ok s); Ev (Bind s sp) (Err e)] in
  exec h (single_instance_unix_body path) w
  = if in_errnos e [EADDRINUSE; EEXIST] then
      match h _ (Unlink sp) w4 with
      | (Rejected v, w5) =>
          (Raised (ValueError v), w5, pre ++ [Ev (Unlink sp) (Rejected v)])
      | (Asked (Err e1), w5) =>
          (Raised (OSError e1), w5, pre ++ [Ev (Unlink sp) (Err e1)])
      | (Asked (Ok u1), w5) =>
          match h _ (Bind s sp) w5 with
          | (Err e2, w6) =>
              (Raised (OSError e2), w6,
               pre ++ [Ev (Unlink sp) (Ok u1); Ev (Bind s sp) (Err e2)])
          | (Ok u2, w6) =>
              let '(o, w7, t) :=
                exec h (py_call (Set_socket s) ;;
                        py_call (Atexit_register s (Some sp)) ;;
                        os_call (Listen s) ;;
                        os_call (Set_inheritable s false) ;;
                        Ret (Return true)) w6 in
              (o, w7, pre ++ [Ev (Unlink sp) (Ok u1); Ev (Bind s sp) (Ok u2)] ++ t)
          end
      end
    else (Raised (OSError e), w4, pre).
Proof.
  intros Ho Hl Hs sp Hb.
  unfold single_instance_unix_body, open_flags, lock_flags in *.
  exec_step. rewrite Ho. exec_step. rewrite Hl. exec_step. rewrite Hs.
  exec_step. fold sp. rewrite Hb.
  destruct e; answer_cases h; reflexivity.
Qed.

(** How the tail of a successful acquisition ends. *)
Lemma body_tail s sp w :
  let x := exec h (py_call (Set_socket s) ;;
                   py_call (Atexit_register s (Some sp)) ;;
                   os_call (Listen s) ;;
                   os_call (Set_inheritable s false) ;;
                   Ret (Return true)) w in
  count is_Bind (trace_of x) = 0 /\ count is_Unlink (trace_of x) = 0
  /\ (result_of x = Returned (Return true)
      \/ exists e, result_of x = Raised (OSError e)).
Proof.
  answer_cases h; cbn; repeat split; eauto.
Qed.

(** The bind of the abstract address fails. *)
Lemma call_bind_failure group_id w uid w1 s w2 e w3 :
  h _ Geteuid w = (uid, w1) ->
  h _ (Socket AF_UNIX) w1 = (Ok s, w2) ->
  let name := instance_name appname uid group_id in
  let addr := String NUL name in
  h _ (Bind s addr) w2 = (Err e, w3) ->
  let pre := [Ev Geteuid uid; Ev (Socket AF_UNIX) (Ok s); Ev (Bind s addr) (Err e)] in
  exec h (SingleInstance_call appname is_macos group_id) w
  = if errno_eqb e ENOENT then
      let '(o, w4, t) := exec h (single_instance_unix is_macos name) w3 in
      (o, w4, pre ++ t)
    else if errno_eqb e EADDRINUSE then
      match h _ (Connect s addr) w3 with
      | (Err e1, w4) => (Raised (OSError e1), w4, pre ++ [Ev (Connect s addr) (Err e1)])
      | (Ok u, w4) =>
          (Returned (Some false), snd (h _ (Set_socket s) w4),
           pre ++ [Ev (Connect s addr) (Ok u);
                   Ev (Set_socket s) (fst (h _ (Set_socket s) w4))])
      end
    else (Raised (OSError e), w3, pre).
Proof.
  intros Hu Hs name addr Hb. unfold SingleInstance_call.
  exec_step. rewrite Hu. exec_step. rewrite Hs. exec_step.
  fold name addr. rewrite Hb.
  destruct e; exec_step; try reflexivity.
  - rewrite !exec_bind.
    destruct (exec h (single_instance_unix is_macos name) w3) as [[[r|e] w4] t];
      cbn; rewrite ?app_nil_r; reflexivity.
  - answer_cases h; reflexivity.
Qed.

(** [remove_socket_file] suppresses every [OSError]: it returns unless
    [os.unlink] rejects the path, and then it raises that [ValueError]. *)
Lemma remove_socket_file_result s path w :
  let x := exec h (remove_socket_file s path) w in
  (forall e, result_of x <> Raised (OSError e))
  /\ (Forall (fun ev => rejected ev = None) (trace_of x) -> result_of x = Returned tt)
  /\ Forall (fun ev => forall v, rejected ev = Some v ->
                                 result_of x = Raised (ValueError v)) (trace_of x).
Proof.
  unfold remove_socket_file. destruct path as [[|c p]|]; answer_cases h.
  all: cbn; repeat split; try discriminate; try reflexivity.
  all: try (intros HF; inversion HF as [|? ? _ HF']; inversion HF'; discriminate).
  all: repeat constructor; cbn; congruence.
Qed.

(** It returns when [os.unlink] takes the path, whatever the system
    answers. *)
Lemma remove_socket_file_returns s path w :
  (forall p w', path = Some p ->
                rejected (Ev (Unlink p) (fst (h _ (Unlink p) w'))) = None) ->
  result_of (exec h (remove_socket_file s path) w) = Returned tt.
Proof.
  intros Hh. unfold remove_socket_file. destruct path as [[|c p]|].
  1, 3: answer_cases h; reflexivity.
  exec_step. destruct (h _ (Close s) w) as [[?|?] w1]; exec_step.
  all: cbn [PyStr.truthy]; exec_step;
    specialize (Hh (String c p) w1 eq_refl);
    destruct (h _ (Unlink (String c p)) w1) as [[[?|?]|?] w2];
    cbn in Hh; try discriminate; exec_step;
    repeat match goal with v : unit |- _ => destruct v end; reflexivity.
Qed.

Lemma remove_socket_file_twice s path w :
  (forall p w', path = Some p ->
                rejected (Ev (Unlink p) (fst (h _ (Unlink p) w'))) = None) ->
  result_of (exec h (remove_socket_file s path ;; remove_socket_file s path) w)
  = Returned tt.
Proof.
  intros Hh. rewrite exec_bind.
  pose proof (remove_socket_file_returns s path w Hh) as H1.
  destruct (exec h (remove_socket_file s path) w) as [[o w1] t].
  cbn in H1. subst o.
  pose proof (remove_socket_file_returns s path w1 Hh) as H2.
  destruct (exec h (remove_socket_file s path) w1) as [[o w2] t2].
  cbn in H2. now subst o.
Qed.

(** The calls [remove_socket_file] makes. *)
Lemma remove_socket_file_calls s path w :
  let t := trace_of (exec h (remove_socket_file s path) w) in
  if PyStr.truthy_opt path then
    exists r1 r2, t = [Ev (Close s) r1; Ev (Unlink (default "" path)) r2]
  else exists r1, t = [Ev (Close s) r1].
Proof.
  unfold remove_socket_file. destruct path as [[|c p]|]; answer_cases h; cbn; eauto.
Qed.

End Dispatch.

Section Kernel_facts.

Variable is_macos : bool.

Lemma paths_kernel pid name ext w :
  let x := exec (kernel pid) (unix_socket_paths is_macos name ext) w in
  result_of x = Returned tt /\ world_of x = w
  /\ yielded (trace_of x) = candidate_paths is_macos (plat w) name ext.
Proof.
  unfold unix_socket_paths, candidate_paths, candidate_dirs, candidate_file, passes_access.
  destruct is_macos; cbn -[String.eqb path_join];
    change ("~" =? "~") with true; cbv iota.
  all: repeat (match goal with
               | |- context [existsb ?f ?l] => destruct (existsb f l)
               end; cbn -[String.eqb path_join]).
  all: auto.
Qed.

(** *** The answers of the kernel *)

Lemma fresh_fd_None w : fds w !! fresh (dom (fds w)) = None.
Proof. apply not_elem_of_dom, is_fresh. Qed.

Lemma fresh_sock_None w : sockets w !! fresh (dom (sockets w)) = None.
Proof. apply not_elem_of_dom, is_fresh. Qed.

Lemma is_abstract_ext stem ext :
  is_abstract stem = false -> is_abstract ext = false ->
  is_abstract (stem +:+ ext) = false.
Proof. now destruct stem. Qed.

Lemma lock_sock_differ stem : stem +:+ ".lock" <> stem +:+ ".sock".
Proof. intros H. apply (inj (String.app stem)) in H. discriminate. Qed.

Lemma k_open_ok pid p w :
  files w !! p = None \/ files w !! p = Some (File true) ->
  k_open pid p w
  = (Ok (fresh (dom (fds w))),
     with_fds (<[fresh (dom (fds w)) := (pid, p)]> (fds w))
       (with_files (<[p := File true]> (files w)) w)).
Proof. unfold k_open. now intros [-> | ->]. Qed.

Lemma k_lockf_ok pid f q p w :
  fds w !! f = Some (q, p) ->
  locks w !! p = None \/ locks w !! p = Some pid ->
  k_lockf pid f w = (Ok tt, with_locks (<[p := pid]> (locks w)) w).
Proof.
  unfold k_lockf. intros -> [Hl | Hl]; rewrite Hl; [reflexivity|].
  rewrite Nat.eqb_refl, (insert_id _ _ _ Hl). now destruct w.
Qed.

Lemma k_lockf_denied pid f q p r w :
  fds w !! f = Some (q, p) ->
  locks w !! p = Some r -> r <> pid ->
  k_lockf pid f w = (Err EAGAIN, w).
Proof.
  unfold k_lockf. intros -> -> Hr. apply Nat.eqb_neq in Hr. now rewrite Hr.
Qed.

Lemma k_bind_path_ok s a w :
  state_of s w = Some Fresh -> is_abstract a = false -> files w !! a = None ->
  k_bind s a w
  = (Ok tt, set_state s (Bound a) (with_files (<[a := Socket_file s]> (files w)) w)).
Proof. unfold k_bind. now intros -> -> ->. Qed.

Lemma k_bind_path_in_use s a n w :
  state_of s w = Some Fresh -> is_abstract a = false -> files w !! a = Some n ->
  k_bind s a w = (Err EADDRINUSE, w).
Proof. unfold k_bind. now intros -> -> ->. Qed.

Lemma k_unlink_ok p n w :
  files w !! p = Some n -> k_unlink p w = (Ok tt, with_files (delete p (files w)) w).
Proof. unfold k_unlink. now intros ->. Qed.

Lemma k_listen_ok s a w :
  state_of s w = Some (Bound a) -> k_listen s w = (Ok tt, set_state s (Listening a) w).
Proof. unfold k_listen. now intros ->. Qed.

Lemma k_set_inheritable_ok s so b w :
  sockets w !! s = Some so -> so_state so <> Closed ->
  k_set_inheritable s b w
  = (Ok tt, with_sockets (<[s := Build_socket (so_owner so) (so_state so) b]> (sockets w)) w).
Proof. unfold k_set_inheritable. intros -> H. now destruct (so_state so). Qed.

(** A process that finds the lock file usable and the lock free becomes
    the primary, whatever is left at the socket path. *)
Lemma body_primary pid w stem :
  let path := stem +:+ ".lock" in
  let sp := stem +:+ ".sock" in
  is_abstract stem = false ->
  (files w !! path = None \/ files w !! path = Some (File true)) ->
  (locks w !! path = None \/ locks w !! path = Some pid) ->
  let f := fresh (dom (fds w)) in
  let s := fresh (dom (sockets w)) in
  exists t,
    exec (kernel pid) (single_instance_unix_body path) w
    = (Returned (Return true),
       Build_world (plat w)
         (<[sp := Socket_file s]> (<[path := File true]> (files w)))
         (abstract w)
         (<[path := pid]> (locks w))
         (<[f := (pid, path)]> (fds w))
         (<[s := Build_socket pid (Listening sp) false]> (sockets w))
         (<[pid := Build_proc (Some s) ((s, Some sp) :: p_atexit (the_proc pid w))]>
            (procs w)),
       t)
    /\ (is_Some (files w !! sp) -> count is_Unlink t = 1 /\ count is_Bind t = 2)
    /\ (files w !! sp = None -> count is_Unlink t = 0 /\ count is_Bind t = 1).
Proof.
  intros path sp Habs Hfile Hlock f s.
  assert (Hsp : is_abstract sp = false) by now apply is_abstract_ext.
  assert (Hne : path <> sp) by apply lock_sock_differ.
  unfold single_instance_unix_body. subst path.
  rewrite socket_path_of_lock. fold sp. set (path := stem +:+ ".lock") in *.
  kstep. rewrite (k_open_ok _ _ _ Hfile). fold f. kstep.
  erewrite k_lockf_ok; [|apply lookup_insert_eq|exact Hlock]. kstep.
  unfold k_socket. kstep. fold s.
  destruct (files w !! sp) as [n|] eqn:Hn.
  - erewrite k_bind_path_in_use;
      [|unfold state_of; kstep; now rewrite lookup_insert_eq|exact Hsp
       |kstep; rewrite lookup_insert_ne by exact Hne; exact Hn].
    kstep. erewrite k_unlink_ok;
      [|kstep; rewrite lookup_insert_ne by exact Hne; exact Hn].
    kstep. erewrite k_bind_path_ok;
      [|unfold state_of; kstep; now rewrite lookup_insert_eq|exact Hsp
       |kstep; apply lookup_delete_eq].
    unfold set_state. kstep. rewrite alter_insert_eq. kstep.
    unfold k_set_socket, k_atexit, the_proc. kstep.
    rewrite lookup_insert_eq. kstep. rewrite insert_insert_eq.
    erewrite k_listen_ok; [|unfold state_of; kstep; now rewrite lookup_insert_eq].
    unfold set_state. kstep. rewrite alter_insert_eq. kstep.
    erewrite k_set_inheritable_ok; [|kstep; apply lookup_insert_eq|discriminate].
    kstep. rewrite insert_insert_eq, insert_delete_eq.
    eexists. split; [reflexivity|]. split; [intros _; split; reflexivity|].
    discriminate.
  - erewrite k_bind_path_ok;
      [|unfold state_of; kstep; now rewrite lookup_insert_eq|exact Hsp
       |kstep; rewrite lookup_insert_ne by exact Hne; exact Hn].
    unfold set_state. kstep. rewrite alter_insert_eq. kstep.
    unfold k_set_socket, k_atexit, the_proc. kstep.
    rewrite lookup_insert_eq. kstep. rewrite insert_insert_eq.
    erewrite k_listen_ok; [|unfold state_of; kstep; now rewrite lookup_insert_eq].
    unfold set_state. kstep. rewrite alter_insert_eq. kstep.
    erewrite k_set_inheritable_ok; [|kstep; apply lookup_insert_eq|discriminate].
    kstep. rewrite insert_insert_eq.
    eexists. split; [reflexivity|]. split; [intros [? [=]]|].
    intros _; split; reflexivity.
Qed.

(** *** The first candidate *)

Lemma first_candidate pid name w :
  exists t0,
    match candidate_paths is_macos (plat w) name ".lock" with
    | p :: _ =>
        exists rest,
          until_yield (kernel pid) (unix_socket_paths is_macos name ".lock") w
          = (Yielded p rest, w, t0)
    | [] =>
        until_yield (kernel pid) (unix_socket_paths is_macos name ".lock") w
        = (Finished (Returned tt), w, t0)
    end
    /\ count is_Open t0 = 0 /\ count is_Bind t0 = 0 /\ count is_Unlink t0 = 0.
Proof.
  unfold unix_socket_paths, candidate_paths, candidate_dirs, candidate_file, passes_access.
  destruct is_macos; cbn -[String.eqb path_join];
    change ("~" =? "~") with true; cbv iota.
  all: repeat (match goal with
               | |- context [existsb ?f ?l] => destruct (existsb f l)
               end; cbn -[String.eqb path_join]).
  all: eexists; split; [try eexists; reflexivity|]; repeat split.
Qed.

(** [single_instance_unix] is its loop body on the first candidate. *)
Lemma single_instance_unix_first pid name w p ps :
  candidate_paths is_macos (plat w) name ".lock" = p :: ps ->
  exists t0,
    count is_Open t0 = 0 /\ count is_Bind t0 = 0 /\ count is_Unlink t0 = 0 /\
    forall o w1 t,
      exec (kernel pid) (single_instance_unix_body p) w = (o, w1, t) ->
      exec (kernel pid) (single_instance_unix is_macos name) w
      = (after_loop o, w1, t0 ++ t).
Proof.
  intros Hc. destruct (first_candidate pid name w) as (t0 & Hy & H1 & H2 & H3).
  rewrite Hc in Hy. destruct Hy as [rest Hy].
  exists t0. repeat split; try assumption.
  intros o w1 t Hb. unfold single_instance_unix.
  rewrite exec_for_in, Hy, Hb.
  pose proof (body_shape (kernel pid) p w) as (Hn & _).
  rewrite Hb in Hn. cbn in Hn.
  destruct o as [[|b]|e]; [congruence|reflexivity..].
Qed.

Lemma single_instance_unix_no_candidate pid name w :
  candidate_paths is_macos (plat w) name ".lock" = [] ->
  result_of (exec (kernel pid) (single_instance_unix is_macos name) w) = Returned None.
Proof.
  intros Hc. destruct (first_candidate pid name w) as (t0 & Hy & _).
  rewrite Hc in Hy. unfold single_instance_unix. now rewrite exec_for_in, Hy.
Qed.

(** *** Cleanup *)

Lemma release_name_only st w :
  release_name st w = with_abstract (abstract (release_name st w)) w.
Proof.
  destruct w, st as [|a|a| |]; cbn; try reflexivity; destruct (is_abstract a); reflexivity.
Qed.

(** Closing a socket touches the socket table and the abstract names,
    nothing else; afterwards the socket is closed. *)
Lemma k_close_effect s w :
  exists a' so',
    snd (k_close s w) = with_sockets so' (with_abstract a' w)
    /\ (so' !! s = None \/ so_state <$> so' !! s = Some Closed).
Proof.
  unfold k_close, state_of.
  destruct (sockets w !! s) as [so|] eqn:Hso; cbn [fmap option_fmap option_map].
  2:{ exists (abstract w), (sockets w). split; [now destruct w | now left]. }
  assert (Hclosed : so_state so = Closed ->
            exists a' so', w = with_sockets so' (with_abstract a' w)
            /\ (so' !! s = None \/ so_state <$> so' !! s = Some Closed)).
  { intros Hc. exists (abstract w), (sockets w). split; [now destruct w|].
    right. now rewrite Hso, <- Hc. }
  assert (Hopen : forall st, 
            exists a' so', set_state s Closed (release_name st w)
                            = with_sockets so' (with_abstract a' w)
            /\ (so' !! s = None \/ so_state <$> so' !! s = Some Closed)).
  { intros st. rewrite (release_name_only st w). unfold set_state. kstep.
    eexists _, _. split; [reflexivity|]. right.
    now rewrite lookup_alter_eq, Hso. }
  destruct (so_state so) eqn:Hst; cbn [snd]; auto.
Qed.

Lemma k_unlink_effect p w :
  snd (k_unlink p w) = with_files (delete p (files w)) w.
Proof.
  unfold k_unlink. destruct (files w !! p) eqn:Hp; [reflexivity|].
  cbn [snd]. rewrite delete_id by exact Hp. now destruct w.
Qed.

(** What [remove_socket_file] leaves: descriptors, locks and the process
    table as they were, the socket closed, and of the files only the one
    at [path] gone. *)
Lemma remove_socket_file_effect pid s path w :
  let w1 := world_of (exec (kernel pid) (remove_socket_file s path) w) in
  fds w1 = fds w /\ locks w1 = locks w /\ procs w1 = procs w /\ plat w1 = plat w
  /\ files w1 = (if PyStr.truthy_opt path then delete (default "" path) (files w)
                 else files w)
  /\ (state_of s w1 = None \/ state_of s w1 = Some Closed).
Proof.
  unfold remove_socket_file, world_of.
  destruct (k_close_effect s w) as (a' & so' & Hw & Hst).
  destruct (k_close s w) as [r w0] eqn:Hc. cbn [snd] in Hw. subst w0.
  assert (Hrun : forall (k : unit -> prog unit),
             exec (kernel pid) (suppress_OSError (os_call (Close s)) ;; k tt) w
             = let '(o, w2, t) := exec (kernel pid) (k tt)
                                    (with_sockets so' (with_abstract a' w)) in
               (o, w2, Ev (Close s) r :: t)).
  { intros k. kstep. rewrite Hc. destruct r as [[]|e]; kstep; reflexivity. }
  assert (Hs : forall w', state_of s (with_sockets so' w') = None
                          \/ state_of s (with_sockets so' w') = Some Closed).
  { intros w'. unfold state_of. cbn [sockets with_sockets].
    destruct Hst as [-> | ->]; auto. }
  destruct path as [[|c p]|]; cbn [PyStr.truthy].
  - rewrite (Hrun (fun _ => Ret tt)). cbn -[state_of]; repeat split; try reflexivity; apply Hs.
  - rewrite (Hrun (fun _ => suppress_OSError (checked_call (Unlink (String c p))))).
    kstep. pose proof (k_unlink_effect (String c p) (with_sockets so' (with_abstract a' w))) as Hu.
    destruct (k_unlink (String c p) (with_sockets so' (with_abstract a' w))) as [r2 w2].
    cbn [snd] in Hu. subst w2. destruct r2 as [[]|e]; cbn -[state_of]; repeat split; try reflexivity; apply Hs.
  - rewrite (Hrun (fun _ => Ret tt)). cbn -[state_of]; repeat split; try reflexivity; apply Hs.
Qed.

(** The kernel rejects no path. *)
Lemma kernel_rejects_nothing pid p w :
  rejected (Ev (Unlink p) (fst (kernel pid _ (Unlink p) w))) = None.
Proof. cbn. now destruct (k_unlink p w). Qed.

Lemma remove_socket_file_on_kernel pid s path w :
  result_of (exec (kernel pid) (remove_socket_file s path) w) = Returned tt.
Proof.
  apply remove_socket_file_returns. intros. apply kernel_rejects_nothing.
Qed.

(** The [os] module is the kernel for a path without a NUL byte, and
    rejects the others when they come to [os.unlink]. *)
Lemma os_module_remove pid s path w :
  PyStr.contains NUL (default "" path) = false ->
  exec (os_module pid) (remove_socket_file s path) w
  = exec (kernel pid) (remove_socket_file s path) w.
Proof.
  intros Hn. unfold remove_socket_file. destruct path as [[|c p]|].
  1, 3: cbn; destruct (k_close s w) as [[[]|e] w1]; reflexivity.
  cbn [default] in Hn. unfold id in Hn.
  cbn [exec bind os_call checked_call try_OSError suppress_OSError os_module kernel
         PyStr.truthy].
  destruct (k_close s w) as [[[]|e] w1];
    cbn [exec bind os_call checked_call try_OSError suppress_OSError os_module kernel];
    rewrite Hn; destruct (k_unlink (String c p) w1) as [[[]|e2] w2]; reflexivity.
Qed.

Lemma os_module_rejects pid s p w :
  PyStr.contains NUL p = true ->
  exec (os_module pid) (remove_socket_file s (Some p)) w
  = (Raised (ValueError Embedded_null), snd (k_close s w),
     [Ev (Close s) (fst (k_close s w)); Ev (Unlink p) (Rejected Embedded_null)]).
Proof.
  intros Hn. unfold remove_socket_file. destruct p as [|c p]; [discriminate|].
  cbn [exec bind os_call checked_call try_OSError suppress_OSError os_module kernel
         PyStr.truthy].
  destruct (k_close s w) as [[[]|e] w1];
    cbn [exec bind os_call checked_call try_OSError suppress_OSError os_module kernel
           fst snd];
    rewrite Hn; reflexivity.
Qed.

(** *** The death of a process *)

Lemma reap_files pid w : files (reap pid w) = files w.
Proof. reflexivity. Qed.

Lemma reap_unlocks pid w p : locks w !! p = Some pid -> locks (reap pid w) !! p = None.
Proof.
  intros H. cbn. apply map_lookup_filter_None. right. intros q Hq.
  rewrite H in Hq. injection Hq as <-. cbn. congruence.
Qed.

Lemma reap_keeps_lock pid w p q :
  locks w !! p = Some q -> q <> pid -> locks (reap pid w) !! p = Some q.
Proof. intros H Hq. cbn. apply map_lookup_filter_Some. split; [exact H | exact Hq]. Qed.

Lemma reap_no_lock pid w p : locks w !! p = None -> locks (reap pid w) !! p = None.
Proof. intros H. cbn. apply map_lookup_filter_None. now left. Qed.

End Kernel_facts.

(** * The abstract coordinator: dispatch on the error of the bind *)

Section Abstract_dispatch.

Context {W : Type} (h : handler W).
Variable appname : string.
Variable is_macos : bool.

(** C2: when the bind of the abstract address fails, what happens next
    depends on the error alone.  With ENOENT the call is that of
    [single_instance_unix] on the same name, result and world unchanged;
    with EADDRINUSE the same socket is connected to the same address and
    the result is [False] (the error of a refused connect would be raised);
    any other error is raised as it is. *)
Theorem abstract_bind_failure_dispatch group_id w uid w1 s w2 e w3 :
  h _ Geteuid w = (uid, w1) ->
  h _ (Socket AF_UNIX) w1 = (Ok s, w2) ->
  let name := instance_name appname uid group_id in
  let addr := String NUL name in
  h _ (Bind s addr) w2 = (Err e, w3) ->
  let pre := [Ev Geteuid uid; Ev (Socket AF_UNIX) (Ok s); Ev (Bind s addr) (Err e)] in
  exec h (SingleInstance_call appname is_macos group_id) w
  = if errno_eqb e ENOENT then
      let '(o, w4, t) := exec h (single_instance_unix is_macos name) w3 in
      (o, w4, pre ++ t)
    else if errno_eqb e EADDRINUSE then
      match h _ (Connect s addr) w3 with
      | (Err e1, w4) => (Raised (OSError e1), w4, pre ++ [Ev (Connect s addr) (Err e1)])
      | (Ok u, w4) =>
          (Returned (Some false), snd (h _ (Set_socket s) w4),
           pre ++ [Ev (Connect s addr) (Ok u);
                   Ev (Set_socket s) (fst (h _ (Set_socket s) w4))])
      end
    else (Raised (OSError e), w3, pre).
Proof. apply call_bind_failure. Qed.

End Abstract_dispatch.

Lemma abstract_bind_failure_dispatch_witness :
  result_of (exec (Posix.kernel 2) (SingleInstance_call "kitty" false None)
               Demo.linux_primary)
  = Returned (Some false).
Proof.
  pose (w2 := snd (Posix.kernel 2 _ (Socket AF_UNIX) Demo.linux_primary)).
  rewrite (abstract_bind_failure_dispatch (Posix.kernel 2) "kitty" false None
             Demo.linux_primary 1000 Demo.linux_primary 1 w2 EADDRINUSE w2);
    [ | vm_compute; reflexivity ..].
  vm_compute. reflexivity.
Defined.

(** * The filesystem coordinator *)

Section Lock_dispatch.

Context {W : Type} (h : handler W).
Variable is_macos : bool.

(** C7: when the lock is refused with EAGAIN or EACCES, the process
    makes a socket, connects it to the socket path that belongs to the same
    lock file and returns [False] (the error of a failed connect would be
    raised); any other error of the lock is raised as it is.  In either case
    no second lock file is opened or locked, and the socket path lies where
    the lock file lies. *)
Theorem lock_denied_connects_and_stops :
  (forall path w f w1 e w2,
      h _ (Open path open_flags) w = (Ok f, w1) ->
      h _ (Lockf f lock_flags) w1 = (Err e, w2) ->
      let sp := socket_path_of path in
      let pre := [Ev (Open path open_flags) (Ok f); Ev (Lockf f lock_flags) (Err e)] in
      exec h (single_instance_unix_body path) w
      = if in_errnos e [EAGAIN; EACCES] then
          match h _ (Socket AF_UNIX) w2 with
          | (Err e1, w3) =>
              (Raised (OSError e1), w3, pre ++ [Ev (Socket AF_UNIX) (Err e1)])
          | (Ok s, w3) =>
              match h _ (Connect s sp) w3 with
              | (Err e2, w4) =>
                  (Raised (OSError e2), w4,
                   pre ++ [Ev (Socket AF_UNIX) (Ok s); Ev (Connect s sp) (Err e2)])
              | (Ok u, w4) =>
                  (Returned (Return false), snd (h _ (Set_socket s) w4),
                   pre ++ [Ev (Socket AF_UNIX) (Ok s); Ev (Connect s sp) (Ok u);
                           Ev (Set_socket s) (fst (h _ (Set_socket s) w4))])
              end
          end
        else (Raised (OSError e), w2, pre))
  /\ (forall name w,
        let t := trace_of (exec h (single_instance_unix is_macos name) w) in
        count is_Open t <= 1 /\ count is_Lockf t <= 1)
  /\ (forall dir file,
        socket_path_of (path_join dir (file +:+ ".lock"))
        = path_join dir (file +:+ ".sock")).
Proof.
  split; [|split].
  - intros. eapply body_lock_failure; eassumption.
  - intros name w.
    destruct (single_instance_unix_shape h is_macos name w) as (? & ? & ? & ? & ?).
    cbv zeta. auto.
  - apply socket_path_of_join.
Qed.

(** C6, the part that holds for every system: when the lock is held
    and the first bind fails with EADDRINUSE or EEXIST, the socket path is
    unlinked and the bind is made once more; the error of that second bind
    is raised as it is; and no run binds more than twice or unlinks more
    than once. *)
Lemma stale_bind_retried_once :
  (forall path w f w1 u w2 s w3 e w4,
      h _ (Open path open_flags) w = (Ok f, w1) ->
      h _ (Lockf f lock_flags) w1 = (Ok u, w2) ->
      h _ (Socket AF_UNIX) w2 = (Ok s, w3) ->
      let sp := socket_path_of path in
      h _ (Bind s sp) w3 = (Err e, w4) ->
      let pre := [Ev (Open path open_flags) (Ok f); Ev (Lockf f lock_flags) (Ok u);
                  Ev (Socket AF_UNIX) (Ok s); Ev (Bind s sp) (Err e)] in
      exec h (single_instance_unix_body path) w
      = if in_errnos e [EADDRINUSE; EEXIST] then
          match h _ (Unlink sp) w4 with
          | (Rejected v, w5) =>
              (Raised (ValueError v), w5, pre ++ [Ev (Unlink sp) (Rejected v)])
          | (Asked (Err e1), w5) =>
              (Raised (OSError e1), w5, pre ++ [Ev (Unlink sp) (Err e1)])
          | (Asked (Ok u1), w5) =>
              match h _ (Bind s sp) w5 with
              | (Err e2, w6) =>
                  (Raised (OSError e2), w6,
                   pre ++ [Ev (Unlink sp) (Ok u1); Ev (Bind s sp) (Err e2)])
              | (Ok u2, w6) =>
                  let '(o, w7, t) :=
                    exec h (py_call (Set_socket s) ;;
                            py_call (Atexit_register s (Some sp)) ;;
                            os_call (Listen s) ;;
                            os_call (Set_inheritable s false) ;;
                            Ret (Return true)) w6 in
                  (o, w7, pre ++ [Ev (Unlink sp) (Ok u1); Ev (Bind s sp) (Ok u2)] ++ t)
              end
          end
        else (Raised (OSError e), w4, pre))
  /\ (forall name w,
        let t := trace_of (exec h (single_instance_unix is_macos name) w) in
        count is_Bind t <= 2 /\ count is_Unlink t <= 1).
Proof.
  split.
  - intros. eapply body_bind_failure; eassumption.
  - intros name w.
    destruct (single_instance_unix_shape h is_macos name w) as (? & ? & ? & ? & ?).
    cbv zeta. auto.
Qed.

End Lock_dispatch.

Lemma lock_denied_connects_and_stops_witness :
  result_of (exec (Posix.kernel 2) (single_instance_unix_body "/tmp/kitty-ipc-1000.lock")
               Demo.bsd_primary)
  = Returned (Return false).
Proof.
  destruct (lock_denied_connects_and_stops (Posix.kernel 2) false) as (H & _ & _).
  pose (w1 := snd (Posix.kernel 2 _ (Open "/tmp/kitty-ipc-1000.lock" open_flags)
                     Demo.bsd_primary)).
  rewrite (H "/tmp/kitty-ipc-1000.lock" Demo.bsd_primary 1 w1 EAGAIN w1);
    [ | vm_compute; reflexivity ..].
  vm_compute. reflexivity.
Defined.

Section On_the_kernel.

Import Posix.





Lemma is_listening_insert s a w so :
  so_state so = Listening a ->
  sockets w !! s = Some so -> is_listening s w = true.
Proof. unfold is_listening, state_of. intros Hs ->. cbn. now rewrite Hs. Qed.

(** C6: with the lock held, a bind that fails with EADDRINUSE or
    EEXIST is followed by one unlink of the socket path and one more bind,
    and the error of that second bind is raised as it is.  On the kernel,
    whatever sits at the socket path when the lock is free is replaced: the
    process becomes the primary and the path names its new, listening
    socket.  In particular this is what happens to the next process after
    the primary was killed. *)
Theorem stale_socket_is_replaced :
  (forall W (h : handler W) path w f w1 u w2 s w3 e w4 u1 w5 r w6,
      h _ (Open path open_flags) w = (Ok f, w1) ->
      h _ (Lockf f lock_flags) w1 = (Ok u, w2) ->
      h _ (Socket AF_UNIX) w2 = (Ok s, w3) ->
      let sp := socket_path_of path in
      h _ (Bind s sp) w3 = (Err e, w4) ->
      in_errnos e [EADDRINUSE; EEXIST] = true ->
      h _ (Unlink sp) w4 = (Ok u1, w5) ->
      h _ (Bind s sp) w5 = (r, w6) ->
      let x := exec h (single_instance_unix_body path) w in
      count is_Unlink (trace_of x) = 1 /\ count is_Bind (trace_of x) = 2
      /\ (forall e2, r = Err e2 ->
                     x = (Raised (OSError e2), w6,
                          [Ev (Open path open_flags) (Ok f);
                           Ev (Lockf f lock_flags) (Ok u);
                           Ev (Socket AF_UNIX) (Ok s); Ev (Bind s sp) (Err e);
                           Ev (Unlink sp) (Ok u1); Ev (Bind s sp) (Err e2)])))
  /\ (forall pid w stem n,
        let path := stem +:+ ".lock" in
        let sp := stem +:+ ".sock" in
        is_abstract stem = false ->
        (files w !! path = None \/ files w !! path = Some (File true)) ->
        (locks w !! path = None \/ locks w !! path = Some pid) ->
        files w !! sp = Some n ->
        let x := exec (kernel pid) (single_instance_unix_body path) w in
        let s := fresh (dom (sockets w)) in
        result_of x = Returned (Return true)
        /\ count is_Unlink (trace_of x) = 1 /\ count is_Bind (trace_of x) = 2
        /\ files (world_of x) !! sp = Some (Socket_file s)
        /\ sockets w !! s = None
        /\ is_listening s (world_of x) = true)
  /\ (forall pid1 pid2 w stem,
        let path := stem +:+ ".lock" in
        let sp := stem +:+ ".sock" in
        pid1 <> pid2 ->
        is_abstract stem = false ->
        (files w !! path = None \/ files w !! path = Some (File true)) ->
        (locks w !! path = None \/ locks w !! path = Some pid1) ->
        let w1 := world_of (exec (kernel pid1) (single_instance_unix_body path) w) in
        let s1 := fresh (dom (sockets w)) in
        let w2 := kill_process pid1 w1 in
        let x := exec (kernel pid2) (single_instance_unix_body path) w2 in
        let s2 := fresh (dom (sockets w2)) in
        files w2 !! sp = Some (Socket_file s1)
        /\ is_listening s1 w2 = false
        /\ result_of x = Returned (Return true)
        /\ count is_Unlink (trace_of x) = 1
        /\ files (world_of x) !! sp = Some (Socket_file s2)
        /\ s2 <> s1
        /\ is_listening s2 (world_of x) = true).
Proof.
  split; [|split].
  - intros W h path w f w1 u w2 s w3 e w4 u1 w5 r w6 Ho Hl Hs sp Hb He Hu Hb2 x.
    subst x. rewrite (body_bind_failure h path w f w1 u w2 s w3 e w4 Ho Hl Hs Hb).
    rewrite He. fold sp. rewrite Hu, Hb2.
    destruct r as [u2|e2].
    + pose proof (body_tail h s sp w6) as Ht. cbv zeta in Ht.
      destruct (exec h _ w6) as [[o w7] t].
      cbn [trace_of result_of fst snd] in Ht |- *.
      destruct Ht as (Hb0 & Hu0 & _).
      rewrite !count_app, Hb0, Hu0. repeat split; try reflexivity. discriminate.
    + repeat split; try reflexivity. now intros ? [= <-].
  - intros pid w stem n path sp Habs Hfile Hlock Hn x s.
    destruct (body_primary pid w stem Habs Hfile Hlock) as (t & Hx & Hsome & _).
    subst x path sp s. rewrite Hx. cbn [result_of world_of trace_of fst snd files].
    destruct Hsome as [Hu Hb]; [now rewrite Hn|].
    repeat split; try assumption.
    + apply lookup_insert_eq.
    + apply fresh_sock_None.
    + eapply is_listening_insert; [|apply lookup_insert_eq]. reflexivity.
  - intros pid1 pid2 w stem path sp Hpid Habs Hfile Hlock w1 s1 w2 x s2.
    destruct (body_primary pid1 w stem Habs Hfile Hlock) as (t1 & Hx1 & _).
    subst x s2 w2 w1 path sp. rewrite Hx1. cbn [world_of fst snd].
    set (path := stem +:+ ".lock") in *. set (sp := stem +:+ ".sock") in *.
    set (w1 := Build_world _ _ _ _ _ _ _).
    set (w2 := kill_process pid1 w1).
    assert (Hsp : files w2 !! sp = Some (Socket_file s1)).
    { subst w2. unfold kill_process. rewrite reap_files. apply lookup_insert_eq. }
    assert (Hp : files w2 !! path = Some (File true)).
    { subst w2. unfold kill_process. rewrite reap_files. cbn.
      rewrite lookup_insert_ne by (apply not_eq_sym, lock_sock_differ).
      apply lookup_insert_eq. }
    assert (Hl : locks w2 !! path = None).
    { subst w2. apply reap_unlocks. apply lookup_insert_eq. }
    destruct (body_primary pid2 w2 stem Habs (or_intror Hp) (or_introl Hl))
      as (t2 & Hx2 & Hsome & _).
    fold path sp in Hx2. rewrite Hx2.
    cbn [result_of world_of trace_of fst snd files].
    destruct Hsome as [Hu Hb]; [fold sp; now rewrite Hsp|].
    assert (Hs1 : sockets w2 !! s1 = Some (Build_socket pid1 Closed false)).
    { subst w2. cbn. rewrite lookup_fmap. fold s1. rewrite lookup_insert_eq. cbn.
      now rewrite Nat.eqb_refl. }
    repeat split; try assumption.
    + unfold is_listening, state_of. now rewrite Hs1.
    + apply lookup_insert_eq.
    + intros Heq. pose proof (fresh_sock_None w2) as Hf.
      rewrite Heq, Hs1 in Hf. discriminate.
    + eapply is_listening_insert; [|apply lookup_insert_eq]. reflexivity.
Qed.

Lemma stale_socket_is_replaced_witness :
  result_of (exec (kernel 3) (single_instance_unix_body "/tmp/kitty-ipc-1000.lock")
               Demo.bsd_stale)
  = Returned (Return true)
  /\ count is_Unlink (trace_of (exec (kernel 3)
                                  (single_instance_unix_body "/tmp/kitty-ipc-1000.lock")
                                  Demo.bsd_stale)) = 1.
Proof.
  destruct stale_socket_is_replaced as (_ & H & _).
  destruct (H 3 Demo.bsd_stale "/tmp/kitty-ipc-1000" (Socket_file 1))
    as (Hr & Hu & _).
  - reflexivity.
  - right. vm_compute. reflexivity.
  - left. vm_compute. reflexivity.
  - vm_compute. reflexivity.
  - split; [exact Hr | exact Hu].
Defined.





(** C10: a process that became the primary through the lock file has
    registered one cleanup, for its listening socket and the socket path.
    Running it closes that socket and unlinks that path and does nothing
    else: the descriptor of the lock file stays open, the lock stays held,
    the lock file stays where it is.  After the exit of the process the lock
    file is still there and the socket path is gone.  In every world the
    cleanup leaves descriptors and locks alone and removes no file but the
    one at its path. *)
Theorem cleanup_leaves_the_lock_file :
  (forall pid w stem,
      let path := stem +:+ ".lock" in
      let sp := stem +:+ ".sock" in
      is_abstract stem = false ->
      (files w !! path = None \/ files w !! path = Some (File true)) ->
      (locks w !! path = None \/ locks w !! path = Some pid) ->
      p_atexit (the_proc pid w) = [] ->
      let x := exec (kernel pid) (single_instance_unix_body path) w in
      let w1 := world_of x in
      let s := fresh (dom (sockets w)) in
      let f := fresh (dom (fds w)) in
      let y := run_atexit pid w1 in
      result_of x = Returned (Return true)
      /\ p_atexit (the_proc pid w1) = [(s, Some sp)]
      /\ (exists r1 r2, trace_of y = [Ev (Close s) r1; Ev (Unlink sp) r2])
      /\ fds (world_of y) !! f = Some (pid, path)
      /\ locks (world_of y) !! path = Some pid
      /\ files (world_of y) !! path = Some (File true)
      /\ files (world_of y) !! sp = None
      /\ files (exit_process pid w1) !! path = Some (File true)
      /\ files (exit_process pid w1) !! sp = None)
  /\ (forall pid s path w,
        let w1 := world_of (exec (kernel pid) (remove_socket_file s path) w) in
        fds w1 = fds w /\ locks w1 = locks w
        /\ forall q, path <> Some q -> files w1 !! q = files w !! q).
Proof.
  split.
  - intros pid w stem path sp Habs Hfile Hlock Hat x w1 s f y.
    destruct (body_primary pid w stem Habs Hfile Hlock) as (t & Hx & _).
    subst y w1 x path sp. rewrite Hx. cbn [result_of world_of fst snd].
    set (path := stem +:+ ".lock") in *. set (sp := stem +:+ ".sock") in *.
    set (w1 := Build_world _ _ _ _ _ _ _).
    assert (Hreg : p_atexit (the_proc pid w1) = [(s, Some sp)]).
    { unfold the_proc at 1. subst w1. cbn [procs]. rewrite lookup_insert_eq.
      cbn [default p_atexit]. now rewrite Hat. }
    assert (Hsp : PyStr.truthy_opt (Some sp) = true) by (subst sp; now destruct stem).
    unfold exit_process, run_atexit. rewrite Hreg. cbn [run_handlers].
    destruct (remove_socket_file_effect pid s (Some sp) w1)
      as (Hfd & Hlk & _ & _ & Hfl & _).
    pose proof (remove_socket_file_on_kernel pid s (Some sp) w1) as Hret.
    pose proof (remove_socket_file_calls (kernel pid) s (Some sp) w1) as Hcalls.
    cbv zeta in Hcalls. rewrite Hsp in Hcalls, Hfl. cbn [default] in Hcalls, Hfl.
    destruct (exec (kernel pid) (remove_socket_file s (Some sp)) w1) as [[o w2] t2].
    cbn [result_of world_of trace_of fst snd] in *. subst o.
    cbn [result_of world_of trace_of fst snd]. rewrite app_nil_r, reap_files.
    rewrite Hfd, Hlk, Hfl. subst w1. cbn [fds locks files].
    assert (Hne : sp <> path) by apply not_eq_sym, lock_sock_differ.
    repeat split; try reflexivity; try assumption.
    + apply lookup_insert_eq.
    + apply lookup_insert_eq.
    + rewrite lookup_delete_ne, lookup_insert_ne by exact Hne. apply lookup_insert_eq.
    + apply lookup_delete_eq.
    + rewrite lookup_delete_ne, lookup_insert_ne by exact Hne. apply lookup_insert_eq.
    + apply lookup_delete_eq.
  - intros pid s path w w1.
    destruct (remove_socket_file_effect pid s path w) as (Hfd & Hlk & _ & _ & Hfl & _).
    fold w1 in Hfd, Hlk, Hfl. repeat split; try assumption.
    intros q Hq. rewrite Hfl.
    destruct path as [p|]; cbn [PyStr.truthy_opt default]; [|reflexivity].
    destruct (PyStr.truthy p); [|reflexivity].
    apply lookup_delete_ne. intros Heq. apply Hq. exact (f_equal Some Heq).
Qed.

Lemma cleanup_leaves_the_lock_file_witness :
  let w1 := world_of (exec (kernel 1) (single_instance_unix_body "/tmp/kitty-ipc-1000.lock")
                        (Demo.boot Demo.bsd)) in
  files (exit_process 1 w1) !! "/tmp/kitty-ipc-1000.lock" = Some (File true)
  /\ files (exit_process 1 w1) !! "/tmp/kitty-ipc-1000.sock" = None.
Proof.
  destruct cleanup_leaves_the_lock_file as (H & _).
  destruct (H 1 (Demo.boot Demo.bsd) "/tmp/kitty-ipc-1000")
    as (_ & _ & _ & _ & _ & _ & _ & Hl & Hs);
    [reflexivity | now left | now left | reflexivity |].
  split; [exact Hl | exact Hs].
Defined.

End On_the_kernel.

(** * Processes that race *)

Section Race_facts.

Import Posix Race.

Lemma feed_answer {A T} (c : call T) (k : T -> prog A) (r : T) :
  feed (Sys c k) (answer_of c r) = k r.
Proof. destruct c; try destruct r; reflexivity. Qed.

Lemma resume_snoc {A} (p : prog A) h a : resume p (h ++ [a]) = feed (resume p h) a.
Proof. unfold resume. now rewrite fold_left_app. Qed.

Lemma run_app s1 s2 sigma : run (s1 ++ s2) sigma = run s2 (run s1 sigma).
Proof. unfold run. now rewrite fold_left_app. Qed.

Lemma step_length i sigma : length (sys_procs (step i sigma)) = length (sys_procs sigma).
Proof.
  unfold step. destruct (sys_procs sigma !! i) as [p|]; [|reflexivity].
  destruct (advance i p (sys_world sigma)). cbn. apply length_insert.
Qed.

Lemma step_other i j sigma :
  i <> j -> sys_procs (step i sigma) !! j = sys_procs sigma !! j.
Proof.
  intros Hij. unfold step.
  destruct (sys_procs sigma !! i) as [p|]; [|reflexivity].
  destruct (advance i p (sys_world sigma)). cbn. now apply list_lookup_insert_ne.
Qed.

Lemma advance_feed {A} i (p : prog A) w a :
  next_answer i p w = Some a -> fst (advance i p w) = feed p a.
Proof.
  destruct p as [v|e|T c k]; [discriminate..|].
  unfold next_answer, advance. intros [= <-].
  destruct (kernel i T c w) as [r w1]. cbn [fst]. symmetry. apply feed_answer.
Qed.

Lemma advance_terminated {A} i (p : prog A) w :
  next_answer i p w = None -> advance i p w = (p, w).
Proof. destruct p; cbn; [reflexivity..|discriminate]. Qed.

(** Every process can be run to its end: its program is a finite tree. *)
Lemma finish_one (p : prog (option bool)) :
  forall i sigma, sys_procs sigma !! i = Some p ->
    exists n q, sys_procs (run (replicate n i) sigma) !! i = Some q
                /\ terminated q = true.
Proof.
  induction p as [v|e|T c k IH]; intros i sigma Hp.
  - exists 0, (Ret v). now split.
  - exists 0, (Raise e). now split.
  - destruct (kernel i T c (sys_world sigma)) as [r w1] eqn:Hk.
    assert (Hs : sys_procs (step i sigma) !! i = Some (k r)).
    { unfold step. rewrite Hp. cbn [advance]. rewrite Hk. cbn.
      apply list_lookup_insert_eq. now apply lookup_lt_Some in Hp. }
    destruct (IH r i (step i sigma) Hs) as (n & q & Hq & Ht).
    exists (S n), q. split; [exact Hq | exact Ht].
Qed.

Lemma run_same_other n i j sigma :
  i <> j ->
  sys_procs (run (replicate n i) sigma) !! j = sys_procs sigma !! j.
Proof.
  intros Hij. revert sigma. induction n as [|n IH]; intros sigma; [reflexivity|].
  cbn. change (fold_left _ (replicate n i) (step i sigma))
    with (run (replicate n i) (step i sigma)).
  rewrite IH. now apply step_other.
Qed.

Lemma run_length s sigma : length (sys_procs (run s sigma)) = length (sys_procs sigma).
Proof.
  revert sigma. induction s as [|i s IH]; intros sigma; [reflexivity|].
  cbn. change (fold_left _ s (step i sigma)) with (run s (step i sigma)).
  rewrite IH. apply step_length.
Qed.

Lemma finish_upto m :
  forall sigma, m <= length (sys_procs sigma) ->
    exists s, forall j q, j < m -> sys_procs (run s sigma) !! j = Some q ->
                          terminated q = true.
Proof.
  induction m as [|m IH]; intros sigma Hm.
  - exists []. intros j q Hj. lia.
  - destruct (IH sigma) as [s Hs]; [lia|].
    destruct (lookup_lt_is_Some_2 (sys_procs (run s sigma)) m) as [p Hp].
    { rewrite run_length. lia. }
    destruct (finish_one p m (run s sigma) Hp) as (n & q & Hq & Ht).
    exists (s ++ replicate n m). intros j q' Hj Hq'. rewrite run_app in Hq'.
    destruct (decide (j = m)) as [->|Hne].
    + rewrite Hq in Hq'. now injection Hq' as <-.
    + rewrite run_same_other in Hq' by congruence.
      apply (Hs j q'); [lia | exact Hq'].
Qed.

(** From every state some schedule leads to a state in which every
    process has returned or raised. *)
Lemma can_finish sigma : exists s, finished (run s sigma) = true.
Proof.
  destruct (finish_upto (length (sys_procs sigma)) sigma) as [s Hs]; [lia|].
  exists s. unfold finished. apply forallb_forall. intros q Hq.
  apply list_elem_of_In, list_elem_of_lookup in Hq as [j Hj].
  apply (Hs j q); [|exact Hj].
  apply lookup_lt_Some in Hj. now rewrite run_length in Hj.
Qed.

End Race_facts.

Section Abstract_race_facts.

Import Posix Race.

Variable appname : string.
Variable is_macos : bool.
Variable group_id : option string.
Variable pl : platform.
Hypothesis Hns : abstract_ns pl = true.

Local Abbreviation P0 := (SingleInstance_call appname is_macos group_id).
Local Abbreviation addr := (the_address appname group_id pl).
Local Abbreviation at_pc := (at_abstract appname group_id pl).
Local Abbreviation spares := (Race.spares appname group_id pl).

(** *** What a step leaves to the other processes *)

Lemma spares_refl j w : spares j w w.
Proof. repeat split; auto. Qed.

Lemma spares_trans j w w1 w2 : spares j w w1 -> spares j w1 w2 -> spares j w w2.
Proof.
  intros (H1 & H2 & H3 & H4 & H5) (K1 & K2 & K3 & K4 & K5).
  repeat split; [congruence|auto..|congruence].
Qed.

Lemma is_listening_eq t w w1 :
  sockets w1 !! t = sockets w !! t -> is_listening t w1 = is_listening t w.
Proof. unfold is_listening, state_of. now intros ->. Qed.

Lemma spares_new_socket j w s so :
  sockets w !! s = None -> spares j w (with_sockets (<[s := so]> (sockets w)) w).
Proof.
  intros Hs. repeat split; cbn [sockets with_sockets abstract plat]; auto.
  - intros s' so' Hs' _. rewrite lookup_insert_ne; [exact Hs'|congruence].
  - intros t Ht. rewrite <- Ht. apply is_listening_eq. cbn.
    apply lookup_insert_ne. intros ->. unfold is_listening, state_of in Ht.
    now rewrite Hs in Ht.
Qed.

(** A process changes one of its own sockets, and if that socket was
    listening it still is. *)
Lemma spares_own_socket j w s so so1 :
  sockets w !! s = Some so -> so_owner so <> j ->
  (is_listening s w = true -> exists a, so_state so1 = Listening a) ->
  spares j w (with_sockets (<[s := so1]> (sockets w)) w).
Proof.
  intros Hs Ho Hl. repeat split; cbn [sockets with_sockets abstract plat]; auto.
  - intros s' so' Hs' Ho'. rewrite lookup_insert_ne; [exact Hs'|].
    intros ->. rewrite Hs in Hs'. congruence.
  - intros t Ht. destruct (decide (t = s)) as [->|Hne].
    + destruct (Hl Ht) as [a Ha]. unfold is_listening, state_of. cbn.
      rewrite lookup_insert_eq. cbn. now rewrite Ha.
    + rewrite <- Ht. apply is_listening_eq. cbn. now apply lookup_insert_ne.
Qed.

Lemma set_state_insert s st w so :
  sockets w !! s = Some so ->
  set_state s st w
  = with_sockets (<[s := Build_socket (so_owner so) st (so_inheritable so)]> (sockets w)) w.
Proof.
  intros Hs. unfold set_state. f_equal. apply map_eq. intros s'.
  destruct (decide (s' = s)) as [->|Hne].
  - now rewrite lookup_alter_eq, lookup_insert_eq, Hs.
  - now rewrite lookup_alter_ne, lookup_insert_ne by congruence.
Qed.

Lemma spares_bind j w s :
  abstract w !! addr = None ->
  spares j w (with_abstract (<[addr := s]> (abstract w)) w).
Proof.
  intros Ha. repeat split; cbn [sockets with_abstract abstract plat]; auto.
  intros t Ht. congruence.
Qed.

Lemma the_proc_other i j w p :
  j <> i -> the_proc j (with_procs (<[i := p]> (procs w)) w) = the_proc j w.
Proof. intros H. unfold the_proc. cbn. now rewrite lookup_insert_ne by congruence. Qed.

Lemma spares_procs i j w p :
  j <> i -> spares j w (with_procs (<[i := p]> (procs w)) w).
Proof.
  intros H. repeat split; cbn [sockets with_procs abstract plat]; auto.
  now apply the_proc_other.
Qed.

Lemma not_listening_fresh i s w :
  sock_is i s Fresh w -> is_listening s w = false.
Proof. intros [inh H]. unfold is_listening, state_of. now rewrite H. Qed.

Lemma is_abstract_address : is_abstract addr = true.
Proof. reflexivity. Qed.

Lemma abstract_own_step i w h :
  plat w = pl -> at_pc i w h ->
  match next_answer i (resume P0 h) w with
  | Some a =>
      let w1 := snd (advance i (resume P0 h) w) in
      at_pc i w1 (h ++ [a])
      /\ (forall t, abstract w1 !! addr = Some t ->
                    abstract w !! addr = Some t
                    \/ (h = got_socket pl t /\ a = done))
      /\ (forall j, j <> i -> spares j w w1)
  | None => True
  end.
Proof.
  intros Hpl Hat.
  destruct Hat as [ | |s Hs|s Hs Ha|s Hs Ha|s Hs Ha Hp|s Hs Ha Hp|s Hs Ha Hp
                   |s t Hs Ha|s t Hs Hl Ha|s t Hs Hl Ha Hp|s t Ha];
    cbn [resume fold_left feed next_answer advance SingleInstance_call bind os_call
         py_call try_OSError answer_of kernel fst snd app got_socket done errno_eqb];
    try change (String NUL (instance_name appname (euid pl) group_id)) with addr.
  - (* geteuid *)
    rewrite Hpl. split; [constructor|]. split; [auto|]. intros; apply spares_refl.
  - (* socket *)
    unfold k_socket. cbn [fst snd]. split; [|split].
    + apply A_socket. exists false. cbn. apply lookup_insert_eq.
    + cbn. auto.
    + intros j Hj. apply spares_new_socket, fresh_sock_None.
  - (* bind *)
    destruct Hs as [inh Hs]. unfold k_bind, state_of. rewrite Hs. cbn [fmap option_fmap option_map so_state].
    rewrite is_abstract_address, Hpl, Hns.
    destruct (abstract w !! addr) as [t|] eqn:Ha; cbn [fst snd].
    + split; [|split].
      * eapply A_in_use; [exists inh; exact Hs | exact Ha].
      * intros ? ?. left. congruence.
      * intros; apply spares_refl.
    + rewrite (set_state_insert s _ (with_abstract _ w) _ Hs).
      cbn [sockets with_abstract so_owner so_inheritable].
      split; [|split].
      * apply A_bound; [exists inh; cbn; apply lookup_insert_eq | cbn; apply lookup_insert_eq].
      * cbn. rewrite lookup_insert_eq. intros t [= <-]. now right.
      * intros j Hj.
        apply (spares_trans j w (with_abstract (<[addr := s]> (abstract w)) w));
          [apply spares_bind; exact Ha|].
        apply (spares_own_socket j (with_abstract (<[addr := s]> (abstract w)) w) s
                 _ _ Hs); [cbn; congruence|].
        intros Hl. unfold is_listening, state_of in Hl. cbn in Hl. now rewrite Hs in Hl.
  - (* listen *)
    destruct Hs as [inh Hs]. unfold k_listen, state_of. rewrite Hs.
    cbn [fmap option_fmap option_map so_state fst snd].
    rewrite (set_state_insert s _ w _ Hs). cbn [so_owner so_inheritable].
    split; [|split].
    + apply A_listening; [exists inh; cbn; apply lookup_insert_eq | exact Ha].
    + intros ? Hx; cbn in Hx; left; first [assumption | congruence].
    + intros j Hj. apply (spares_own_socket j w s _ _ Hs); [cbn; congruence|].
      intros _. now exists addr.
  - (* single_instance.socket = s *)
    split; [|split].
    + apply A_kept; [exact Hs | exact Ha |].
      unfold k_set_socket, the_proc. cbn. now rewrite lookup_insert_eq.
    + intros ? Hx; cbn in Hx; left; first [assumption | congruence].
    + intros j Hj. now apply spares_procs.
  - (* set_inheritable *)
    destruct Hs as [inh Hs]. unfold k_set_inheritable. rewrite Hs.
    cbn [so_state so_owner fst snd].
    split; [|split].
    + apply A_private; [exists false; cbn; apply lookup_insert_eq | exact Ha | exact Hp].
    + intros ? Hx; cbn in Hx; left; first [assumption | congruence].
    + intros j Hj. apply (spares_own_socket j w s _ _ Hs); [cbn; congruence|].
      intros _. now exists addr.
  - (* atexit.register *)
    split; [|split].
    + apply A_primary; [exact Hs | exact Ha |].
      unfold k_atexit, the_proc. cbn. rewrite lookup_insert_eq. cbn. exact Hp.
    + intros ? Hx; cbn in Hx; left; first [assumption | congruence].
    + intros j Hj. now apply spares_procs.
  - (* the primary has returned *)
    exact I.
  - (* connect *)
    pose proof (not_listening_fresh i s w Hs) as Hnl.
    destruct Hs as [inh Hs]. unfold k_connect, state_of, target. rewrite Hs.
    cbn [fmap option_fmap option_map so_state].
    rewrite is_abstract_address, Ha.
    destruct (is_listening t w) eqn:Hl; cbn [fst snd].
    + rewrite (set_state_insert s _ w _ Hs). cbn [so_owner so_inheritable].
      split; [|split].
      * apply A_connected with (t := t);
          [exists inh; cbn; apply lookup_insert_eq | | exact Ha].
        rewrite <- Hl. apply is_listening_eq. cbn. apply lookup_insert_ne.
        intros <-. congruence.
      * intros ? Hx; cbn in Hx; left; first [assumption | congruence].
      * intros j Hj. apply (spares_own_socket j w s _ _ Hs); [cbn; congruence|].
        intros Hl'. congruence.
    + split; [|split].
      * eapply A_refused. exact Ha.
      * intros ? Hx; cbn in Hx; left; first [assumption | congruence].
      * intros; apply spares_refl.
  - (* single_instance.socket = s *)
    split; [|split].
    + apply A_secondary with (t := t); [exact Hs | exact Hl | exact Ha |].
      unfold k_set_socket, the_proc. cbn. now rewrite lookup_insert_eq.
    + intros ? Hx; cbn in Hx; left; first [assumption | congruence].
    + intros j Hj. now apply spares_procs.
  - exact I.
  - exact I.
Qed.

(** What a process knows survives the steps of the others. *)
Lemma abstract_stable i w w1 h :
  spares i w w1 -> at_pc i w h -> at_pc i w1 h.
Proof.
  intros (H1 & H2 & H3 & H4 & H5) Hat.
  assert (Hsock : forall s st, sock_is i s st w -> sock_is i s st w1).
  { intros s st [inh Hs]. exists inh. now apply H2. }
  destruct Hat; econstructor; eauto; rewrite H5; assumption.
Qed.

Local Abbreviation Inv := (abstract_race appname group_id pl is_macos).

Lemma abstract_race_start n w0 :
  plat w0 = pl -> abstract w0 !! addr = None -> Inv (start P0 n w0).
Proof.
  intros Hpl Ha. split; [exact Hpl|]. exists (replicate n []).
  split; [|split].
  - cbn. now rewrite fmap_replicate.
  - intros i h Hh. apply lookup_replicate in Hh as [-> _]. constructor.
  - cbn. intros t Ht. congruence.
Qed.

Lemma abstract_race_step i sigma : Inv sigma -> Inv (step i sigma).
Proof.
  intros (Hpl & hs & Hprocs & Hloc & Hhold). unfold step.
  rewrite Hprocs, list_lookup_fmap.
  destruct (hs !! i) as [h|] eqn:Hh; cbn [fmap option_fmap option_map];
    [|split; [exact Hpl|]; exists hs; now rewrite <- Hprocs].
  pose proof (abstract_own_step i (sys_world sigma) h Hpl (Hloc i h Hh)) as Hown.
  destruct (next_answer i (resume P0 h) (sys_world sigma)) as [a|] eqn:Hna.
  - pose proof (advance_feed i _ _ a Hna) as Hfeed.
    destruct (advance i (resume P0 h) (sys_world sigma)) as [p1 w1].
    cbn [fst snd] in Hown, Hfeed. destruct Hown as (Hat & Habs & Hsp).
    split; [destruct (Hsp (S i)) as (Hp1 & _); [lia | cbn [sys_world]; congruence]|].
    exists (<[i := h ++ [a]]> hs). cbn [sys_procs sys_world]. split; [|split].
    + rewrite list_fmap_insert, resume_snoc. now rewrite Hfeed.
    + intros j hj Hj. destruct (decide (j = i)) as [->|Hne].
      * rewrite list_lookup_insert_eq in Hj by (now apply lookup_lt_Some in Hh).
        now injection Hj as <-.
      * rewrite list_lookup_insert_ne in Hj by congruence.
        apply (abstract_stable j (sys_world sigma)); [now apply Hsp | now apply Hloc].
    + intros t Ht. destruct (Habs t Ht) as [Hold | [-> ->]].
      * destruct (Hhold t Hold) as (j & rest & Hj).
        destruct (decide (j = i)) as [->|Hne].
        -- exists i, (rest ++ [a]).
           rewrite list_lookup_insert_eq by (now apply lookup_lt_Some in Hh).
           rewrite Hh in Hj. injection Hj as ->. reflexivity.
        -- exists j, rest. now rewrite list_lookup_insert_ne by congruence.
      * exists i, []. now rewrite list_lookup_insert_eq by (now apply lookup_lt_Some in Hh).
  - rewrite (advance_terminated i _ _ Hna).
    split; [exact Hpl|]. exists hs. cbn [sys_procs sys_world].
    split; [|split; assumption].
    apply list_insert_id. now rewrite list_lookup_fmap, Hh.
Qed.

Lemma abstract_race_run s sigma : Inv sigma -> Inv (run s sigma).
Proof.
  revert sigma. induction s as [|i s IH]; intros sigma H; [exact H|].
  cbn. apply IH, abstract_race_step, H.
Qed.

(** *** What the invariant says of a process that has finished *)

Ltac resume_at :=
  cbn [resume fold_left feed SingleInstance_call bind os_call py_call try_OSError
       app got_socket done errno_eqb terminated].

Lemma abstract_primary i w h :
  at_pc i w h -> resume P0 h = Ret (Some true) ->
  exists s, sock_is i s (Listening addr) w /\ abstract w !! addr = Some s.
Proof.
  intros Hat. destruct Hat; resume_at; intros Heq; try discriminate Heq; eauto.
Qed.

Lemma abstract_secondary i w h :
  at_pc i w h -> resume P0 h = Ret (Some false) ->
  exists s t, sock_is i s (Connected t) w /\ is_listening t w = true
              /\ abstract w !! addr = Some t
              /\ p_socket (the_proc i w) = Some s.
Proof.
  intros Hat. destruct Hat; resume_at; intros Heq; try discriminate Heq; eauto 10.
Qed.

Lemma abstract_terminal i w h :
  at_pc i w h -> terminated (resume P0 h) = true ->
  resume P0 h = Ret (Some true)
  \/ ((resume P0 h = Ret (Some false)
       \/ resume P0 h = Raise (OSError ECONNREFUSED))
      /\ exists t, abstract w !! addr = Some t).
Proof.
  intros Hat. destruct Hat; resume_at; intros Heq; try discriminate Heq; eauto 10.
Qed.

(** The process past its bind owns the socket at the address, and it
    ends as the primary. *)
Lemma abstract_holder j w t rest :
  at_pc j w (got_socket pl t ++ done :: rest) ->
  owned_by j w t = true
  /\ (terminated (resume P0 (got_socket pl t ++ done :: rest)) = true ->
      resume P0 (got_socket pl t ++ done :: rest) = Ret (Some true)).
Proof.
  intros Hat. remember (got_socket pl t ++ done :: rest) as h eqn:Hh.
  assert (Hown : forall s st, s = t -> sock_is j s st w -> owned_by j w t = true).
  { intros s st -> [inh Hs]. unfold owned_by. rewrite Hs. cbn. apply Nat.eqb_refl. }
  destruct Hat; cbn in Hh; try discriminate Hh; injection Hh as Hst Hrest;
    (split; [eapply Hown; eauto|]); resume_at; intros Heq;
    try discriminate Heq; reflexivity.
Qed.

Lemma owned_by_sock_is j s st w : sock_is j s st w -> owned_by j w s = true.
Proof. intros [inh Hs]. unfold owned_by. rewrite Hs. cbn. apply Nat.eqb_refl. Qed.

Lemma owned_by_unique i j s w :
  owned_by i w s = true -> owned_by j w s = true -> i = j.
Proof.
  unfold owned_by. destruct (sockets w !! s) as [so|]; [|discriminate].
  intros Hi Hj. apply Nat.eqb_eq in Hi, Hj. congruence.
Qed.

Lemma state_of_sock_is j s st w : sock_is j s st w -> state_of s w = Some st.
Proof. intros [inh Hs]. unfold state_of. now rewrite Hs. Qed.

(** The outcome of the race for the abstract address, in every state a
    schedule can reach. *)
Lemma abstract_race_outcome n sched w0 :
  plat w0 = pl -> abstract w0 !! addr = None ->
  let sigma := run sched (start P0 n w0) in
  (forall i j, returned sigma i (Some true) -> returned sigma j (Some true) -> i = j)
  /\ (forall i, returned sigma i (Some false) ->
                exists j, j <> i /\ j < n /\ connected_to i j (sys_world sigma))
  /\ (finished sigma = true -> 1 <= n ->
      exists j, returned sigma j (Some true)
                /\ forall i, i < n -> i <> j ->
                     (returned sigma i (Some false)
                      /\ connected_to i j (sys_world sigma))
                     \/ raised sigma i (OSError ECONNREFUSED)).
Proof.
  intros Hpl Ha sigma.
  assert (HI : Inv sigma) by (apply abstract_race_run, abstract_race_start; assumption).
  assert (Hn : length (sys_procs sigma) = n).
  { unfold sigma. rewrite run_length. cbn. apply length_replicate. }
  destruct HI as (_ & hs & Hprocs & Hloc & Hhold).
  assert (Hlen : length hs = n) by (rewrite <- Hn, Hprocs; now rewrite length_map).
  set (w := sys_world sigma) in *.
  assert (Hget : forall i p, sys_procs sigma !! i = Some p ->
                   exists h, hs !! i = Some h /\ resume P0 h = p /\ at_pc i w h).
  { intros i p Hp. rewrite Hprocs, list_lookup_fmap in Hp.
    destruct (hs !! i) as [h|] eqn:Hh; [|discriminate].
    injection Hp as <-. exists h. repeat split. now apply Hloc. }
  assert (Hprim : forall j, returned sigma j (Some true) ->
                    exists s, abstract w !! addr = Some s /\ owned_by j w s = true).
  { intros j Hj. destruct (Hget j _ Hj) as (h & _ & Hr & Hat).
    destruct (abstract_primary j w h Hat Hr) as (s & Hs & Has).
    exists s. split; [exact Has | eapply owned_by_sock_is; exact Hs]. }
  assert (Hsec : forall i, returned sigma i (Some false) ->
                   exists s t, p_socket (the_proc i w) = Some s
                               /\ state_of s w = Some (Connected t)
                               /\ is_listening t w = true
                               /\ abstract w !! addr = Some t).
  { intros i Hi. destruct (Hget i _ Hi) as (h & _ & Hr & Hat).
    destruct (abstract_secondary i w h Hat Hr) as (s & t & Hs & Hl & Hat' & Hp).
    exists s, t. repeat split; try assumption. eapply state_of_sock_is; exact Hs. }
  assert (Hholder : forall t, abstract w !! addr = Some t ->
                      exists j, j < n /\ owned_by j w t = true
                                /\ forall p, sys_procs sigma !! j = Some p ->
                                              terminated p = true -> p = Ret (Some true)).
  { intros t Ht. destruct (Hhold t Ht) as (j & rest & Hj).
    destruct (abstract_holder j w t rest (Hloc j _ Hj)) as (Hown & Hend).
    exists j. split; [rewrite <- Hlen; now apply lookup_lt_Some in Hj|].
    split; [exact Hown|]. intros p Hp Hterm.
    rewrite Hprocs, list_lookup_fmap, Hj in Hp. injection Hp as <-. now apply Hend. }
  split; [|split].
  - intros i j Hi Hj.
    destruct (Hprim i Hi) as (s & Hs & Hoi). destruct (Hprim j Hj) as (s' & Hs' & Hoj).
    assert (s' = s) by congruence. subst s'. eapply owned_by_unique; eassumption.
  - intros i Hi. destruct (Hsec i Hi) as (s & t & Hp & Hst & Hl & Hat).
    destruct (Hholder t Hat) as (j & Hjn & Hown & Hend).
    exists j. split; [|split; [exact Hjn|]].
    + intros ->. specialize (Hend _ Hi eq_refl). discriminate.
    + exists s, t. auto.
  - intros Hfin Hn1.
    assert (Hterm : forall i p, sys_procs sigma !! i = Some p -> terminated p = true).
    { intros i p Hp. unfold finished in Hfin.
      eapply forallb_forall in Hfin; [exact Hfin|].
      apply list_elem_of_In, list_elem_of_lookup. eauto. }
    assert (Hex : exists j, returned sigma j (Some true)).
    { destruct (lookup_lt_is_Some_2 (sys_procs sigma) 0) as [p Hp]; [lia|].
      destruct (Hget 0 p Hp) as (h & _ & Hr & Hat).
      pose proof (Hterm 0 p Hp) as Ht. rewrite <- Hr in Ht.
      destruct (abstract_terminal 0 w h Hat Ht) as [Htrue | [_ [t Hta]]].
      - exists 0. unfold returned. now rewrite Hp, <- Hr, Htrue.
      - destruct (Hholder t Hta) as (j & Hjn & _ & Hend).
        destruct (lookup_lt_is_Some_2 (sys_procs sigma) j) as [q Hq]; [lia|].
        exists j. unfold returned. rewrite Hq. f_equal.
        apply (Hend q Hq), (Hterm j q Hq). }
    destruct Hex as [j Hj]. exists j. split; [exact Hj|].
    intros i Hin Hij.
    destruct (lookup_lt_is_Some_2 (sys_procs sigma) i) as [p Hp]; [lia|].
    destruct (Hget i p Hp) as (h & _ & Hr & Hat).
    pose proof (Hterm i p Hp) as Ht. rewrite <- Hr in Ht.
    destruct (abstract_terminal i w h Hat Ht) as [Htrue | [[Hfalse | Hraise] _]].
    + exfalso. apply Hij.
      assert (Hi : returned sigma i (Some true)) by (unfold returned; congruence).
      destruct (Hprim i Hi) as (s & Hs & Hoi). destruct (Hprim j Hj) as (s' & Hs' & Hoj).
      assert (s' = s) by congruence. subst s'. eapply owned_by_unique; eassumption.
    + left. assert (Hi : returned sigma i (Some false)) by (unfold returned; congruence).
      split; [exact Hi|].
      destruct (Hsec i Hi) as (s & t & Hps & Hst & Hl & Hta).
      destruct (Hprim j Hj) as (s' & Hs' & Hoj).
      assert (s' = t) by congruence. subst s'. exists s, t. auto.
    + right. unfold raised. congruence.
Qed.

Lemma sock_is_listening i s a w : sock_is i s (Listening a) w -> is_listening s w = true.
Proof. intros [inh Hs]. unfold is_listening, state_of. now rewrite Hs. Qed.

Lemma abstract_primary_listens n sched w0 i :
  plat w0 = pl -> abstract w0 !! addr = None ->
  let sigma := run sched (start P0 n w0) in
  returned sigma i (Some true) ->
  exists s, owned_by i (sys_world sigma) s = true
            /\ is_listening s (sys_world sigma) = true.
Proof.
  intros Hpl Ha sigma Hi.
  assert (HI : Inv sigma) by (apply abstract_race_run, abstract_race_start; assumption).
  destruct HI as (_ & hs & Hprocs & Hloc & _).
  unfold returned in Hi. rewrite Hprocs, list_lookup_fmap in Hi.
  destruct (hs !! i) as [h|] eqn:Hh; [|discriminate].
  apply (inj Some) in Hi.
  destruct (abstract_primary i _ h (Hloc i h Hh) Hi) as (s & Hs & _).
  exists s. split; [eapply owned_by_sock_is|eapply sock_is_listening]; exact Hs.
Qed.

End Abstract_race_facts.

Section Lock_race_facts.

Import Posix Race.

Variable appname : string.
Variable is_macos : bool.
Variable group_id : option string.
Variable pl : platform.
Variable stem : string.
Variable other_candidates : list string.
Hypothesis Hns : abstract_ns pl = false.
Hypothesis Hstem : is_abstract stem = false.
Hypothesis Hcand :
  candidate_paths is_macos pl (instance_name appname (euid pl) group_id) ".lock"
  = lock_path stem :: other_candidates.

Local Abbreviation P0 := (SingleInstance_call appname is_macos group_id).
Local Abbreviation lockp := (lock_path stem).
Local Abbreviation sockp := (sock_path stem).
Local Abbreviation at_pc := (at_lock is_macos pl stem).
Local Abbreviation gen := (listing is_macos pl).
Local Abbreviation lets_be := (Race.lets_be stem).

Lemma resume_app {A} (p : prog A) h1 h2 : resume p (h1 ++ h2) = resume (resume p h1) h2.
Proof. unfold resume. apply fold_left_app. Qed.

(** After the answers of the generator, the body of the loop runs on
    the first candidate path. *)
Lemma resume_listing s0 :
  exists next,
    resume P0 (no_abstract pl s0 ++ gen)
    = around s0 next (single_instance_unix_body lockp).
Proof.
  revert Hcand.
  unfold candidate_paths, candidate_dirs, candidate_file, listing, first_dir, second_dir,
    passes_access, no_abstract.
  destruct is_macos; cbn -[String.eqb path_join single_instance_unix_body];
    repeat (match goal with
            | |- context [existsb ?f ?l] => destruct (existsb f l) eqn:?
            end; cbn -[String.eqb path_join single_instance_unix_body]);
    intros Hc; try discriminate Hc;
    apply (f_equal (List.hd "")) in Hc; cbn [List.hd] in Hc.
  all: rewrite Hc; unfold around; eexists; reflexivity.
Qed.

(** While the generator lists the directories nothing changes, and the
    kernel gives the answers of [listing]. *)
Lemma listing_step i s0 k a w :
  plat w = pl -> gen !! k = Some a ->
  next_answer i (resume P0 (no_abstract pl s0 ++ take k gen)) w = Some a
  /\ snd (advance i (resume P0 (no_abstract pl s0 ++ take k gen)) w) = w.
Proof.
  intros Hpl. revert Hcand.
  unfold candidate_paths, candidate_dirs, candidate_file, listing, first_dir, second_dir,
    passes_access, no_abstract.
  destruct is_macos; cbn -[String.eqb path_join single_instance_unix_body];
    repeat (match goal with
            | |- context [existsb ?f ?l] => destruct (existsb f l) eqn:?
            end; cbn -[String.eqb path_join single_instance_unix_body]);
    intros Hc; try discriminate Hc; clear Hc.
  all: destruct k as [|[|[|[|[|k]]]]];
    cbn -[String.eqb path_join single_instance_unix_body];
    intros Ha; try discriminate Ha; injection Ha as <-;
    rewrite ?Hpl; split; try reflexivity.
  all: congruence.
Qed.

Lemma listing_bounds : 3 <= length gen <= 5.
Proof.
  unfold listing, first_dir. destruct is_macos; cbn -[passes_access];
    match goal with |- context [passes_access ?p ?d] => destruct (passes_access p d) end;
    cbn; lia.
Qed.

Lemma resume_opened s0 :
  exists next, forall rest,
    resume P0 (no_abstract pl s0 ++ gen ++ rest)
    = resume (around s0 next (single_instance_unix_body lockp)) rest.
Proof.
  destruct (resume_listing s0) as [next Hn]. exists next. intros rest.
  now rewrite app_assoc, resume_app, Hn.
Qed.

Lemma paths_differ : lockp <> sockp.
Proof. apply lock_sock_differ. Qed.

Lemma sockp_not_abstract : is_abstract sockp = false.
Proof. now apply is_abstract_ext. Qed.

(** *** What a step leaves to the other processes *)

Lemma lets_refl j w : lets_be j w w.
Proof. repeat split; auto. Qed.

Lemma lets_trans j w w1 w2 : lets_be j w w1 -> lets_be j w1 w2 -> lets_be j w w2.
Proof.
  intros (H1 & H2 & H3 & H4 & H5 & H6 & H7) (K1 & K2 & K3 & K4 & K5 & K6 & K7).
  repeat split; [congruence|auto..| |congruence].
  intros Hl. rewrite K6 by auto. auto.
Qed.

Lemma lets_new_socket j w s so :
  sockets w !! s = None -> lets_be j w (with_sockets (<[s := so]> (sockets w)) w).
Proof.
  intros Hs. repeat split; cbn [sockets with_sockets plat fds locks files]; auto.
  - intros s' so' Hs' _. rewrite lookup_insert_ne; [exact Hs'|congruence].
  - intros t Ht. rewrite <- Ht. apply is_listening_eq. cbn.
    apply lookup_insert_ne. intros ->. unfold is_listening, state_of in Ht.
    now rewrite Hs in Ht.
Qed.

Lemma lets_own_socket j w s so so1 :
  sockets w !! s = Some so -> so_owner so <> j ->
  (is_listening s w = true -> exists a, so_state so1 = Listening a) ->
  lets_be j w (with_sockets (<[s := so1]> (sockets w)) w).
Proof.
  intros Hs Ho Hl. repeat split; cbn [sockets with_sockets plat fds locks files]; auto.
  - intros s' so' Hs' Ho'. rewrite lookup_insert_ne; [exact Hs'|].
    intros ->. rewrite Hs in Hs'. congruence.
  - intros t Ht. destruct (decide (t = s)) as [->|Hne].
    + destruct (Hl Ht) as [a Ha]. unfold is_listening, state_of. cbn.
      rewrite lookup_insert_eq. cbn. now rewrite Ha.
    + rewrite <- Ht. apply is_listening_eq. cbn. now apply lookup_insert_ne.
Qed.

Lemma lets_procs i j w p :
  j <> i -> lets_be j w (with_procs (<[i := p]> (procs w)) w).
Proof.
  intros H. repeat split; cbn [sockets with_procs plat fds locks files]; auto.
  now apply the_proc_other.
Qed.

Lemma lets_open i j w f :
  fds w !! f = None ->
  lets_be j w (with_fds (<[f := (i, lockp)]> (fds w))
                 (with_files (<[lockp := File true]> (files w)) w)).
Proof.
  intros Hf. repeat split; cbn [sockets with_fds with_files plat fds locks files]; auto.
  - intros f' p Hf'. rewrite lookup_insert_ne; [exact Hf'|congruence].
  - intros _. apply lookup_insert_ne, paths_differ.
Qed.

Lemma lets_lock i j w :
  locks w !! lockp = None -> lets_be j w (with_locks (<[lockp := i]> (locks w)) w).
Proof.
  intros Hl. repeat split; cbn [sockets with_locks plat fds locks files]; auto.
  intros q Hq. congruence.
Qed.

Lemma lets_files i j w fs :
  locks w !! lockp = Some i -> j <> i -> lets_be j w (with_files fs w).
Proof.
  intros Hl Hj. repeat split; cbn [sockets with_files plat fds locks files]; auto.
  intros Hl'. congruence.
Qed.

Local Abbreviation quiet_step := Race.quiet_step.
Local Abbreviation can_open := (Race.can_open stem).
Local Abbreviation changed_by := (Race.changed_by is_macos pl stem).

Lemma quiet_refl w : quiet_step w w.
Proof. repeat split; auto. Qed.

Lemma quiet_procs w ps : quiet_step w (with_procs ps w).
Proof. repeat split; auto. Qed.

Lemma quiet_socket w s so1 :
  (forall a, so_state so1 <> Listening a) ->
  quiet_step w (with_sockets (<[s := so1]> (sockets w)) w).
Proof.
  intros Hn. repeat split; auto. intros t Ht.
  destruct (decide (t = s)) as [->|Hne].
  - unfold is_listening, state_of in Ht. cbn in Ht. rewrite lookup_insert_eq in Ht.
    cbn in Ht. destruct (so_state so1) eqn:Hst; try discriminate. now destruct (Hn a).
  - rewrite <- Ht. symmetry. apply is_listening_eq. cbn. now apply lookup_insert_ne.
Qed.

Lemma quiet_keeps_listening w s so so1 :
  sockets w !! s = Some so -> so_state so1 = so_state so ->
  quiet_step w (with_sockets (<[s := so1]> (sockets w)) w).
Proof.
  intros Hs Hst. repeat split; auto. intros t Ht.
  destruct (decide (t = s)) as [->|Hne].
  - unfold is_listening, state_of in *. cbn in Ht. rewrite lookup_insert_eq in Ht.
    cbn in Ht. rewrite Hs. cbn. now rewrite <- Hst.
  - rewrite <- Ht. symmetry. apply is_listening_eq. cbn. now apply lookup_insert_ne.
Qed.

Lemma quiet_changed i h a w w1 :
  quiet_step w w1 -> can_open w -> changed_by i h a w w1.
Proof.
  intros (Hf & Hl & Hli) Ho. unfold Race.changed_by, Race.can_open in *.
  rewrite Hf, Hl. repeat split; auto.
Qed.

Lemma resume_past s0 f :
  exists next, forall rest,
    resume P0 (opened is_macos pl s0 f ++ rest)
    = resume (around s0 next (single_instance_unix_body lockp)) (A_fd (Ok f) :: rest).
Proof.
  destruct (resume_opened s0) as [next Hn]. exists next. intros rest.
  unfold opened. rewrite <- !app_assoc. apply Hn.
Qed.

Lemma socket_path_of_lockp : socket_path_of lockp = sockp.
Proof. apply socket_path_of_lock. Qed.

Lemma changed_little i h a w w1 :
  files w1 !! lockp = files w !! lockp -> locks w1 = locks w ->
  (forall t, is_listening t w1 = true -> is_listening t w = true) ->
  can_open w -> changed_by i h a w w1.
Proof.
  intros Hf Hl Hli Ho. unfold Race.changed_by, Race.can_open in *.
  rewrite Hf, Hl. repeat split; auto.
Qed.

Lemma sock_is_state i s st w : sock_is i s st w -> state_of s w = Some st.
Proof. intros [inh H]. unfold state_of. now rewrite H. Qed.

Lemma not_listening_other t s so1 w :
  (forall a, so_state so1 <> Listening a) ->
  is_listening t (with_sockets (<[s := so1]> (sockets w)) w) = true ->
  is_listening t w = true.
Proof. intros Hn. apply (quiet_socket w s so1 Hn). Qed.

(** Binding a fresh socket to the free socket path. *)
Lemma bind_free i w s inh :
  locks w !! lockp = Some i ->
  sockets w !! s = Some (Build_socket i Fresh inh) ->
  files w !! sockp = None -> can_open w ->
  fst (k_bind s sockp w) = Ok tt
  /\ locks (snd (k_bind s sockp w)) !! lockp = Some i
  /\ sock_is i s (Bound sockp) (snd (k_bind s sockp w))
  /\ (forall h a, changed_by i h a w (snd (k_bind s sockp w)))
  /\ (forall j, j <> i -> lets_be j w (snd (k_bind s sockp w))).
Proof.
  intros Hl Hs Hn Hopen.
  assert (Hst : state_of s w = Some Fresh) by (unfold state_of; now rewrite Hs).
  rewrite (k_bind_path_ok s sockp w Hst sockp_not_abstract Hn). cbn [fst snd].
  rewrite (set_state_insert s _ (with_files _ w) _ Hs). cbn [so_owner so_inheritable].
  split; [reflexivity|]. split; [exact Hl|]. split; [|split].
  - exists inh. cbn. apply lookup_insert_eq.
  - intros h a. apply changed_little; [|reflexivity| |exact Hopen].
    + cbn. apply lookup_insert_ne. intros Heq. now apply paths_differ.
    + intros t.
      apply (not_listening_other t s (Build_socket i (Bound sockp) inh)
               (with_files (<[sockp := Socket_file s]> (files w)) w)).
      discriminate.
  - intros j Hj. eapply lets_trans; [apply (lets_files i); [exact Hl|exact Hj]|].
    apply lets_own_socket with (so := Build_socket i Fresh inh);
      [exact Hs|cbn; congruence|].
    intros Hli. unfold is_listening, state_of in Hli. cbn in Hli.
    rewrite Hs in Hli. discriminate.
Qed.

Ltac past s0 f :=
  let next := fresh "next" in
  let Hnext := fresh "Hnext" in
  destruct (resume_past s0 f) as [next Hnext]; rewrite Hnext;
  cbn [resume fold_left feed around single_instance_unix_body next_answer advance
       bind os_call checked_call py_call try_OSError answer_of kernel in_errnos existsb errno_eqb
       orb fst snd app bound at_once after_unlink denied done terminated];
  rewrite ?socket_path_of_lockp.

Lemma lock_own_step i w h :
  plat w = pl -> can_open w -> at_pc i w h ->
  match next_answer i (resume P0 h) w with
  | Some a =>
      let w1 := snd (advance i (resume P0 h) w) in
      at_pc i w1 (h ++ [a]) /\ changed_by i h a w w1
      /\ (forall j, j <> i -> lets_be j w w1)
  | None => True
  end.
Proof.
  intros Hpl Hopen Hat.
  destruct Hat as [ | |s0 Hs0|s0 k Hk|s0 f Hf|s0 f Hl|s0 f s Hl Hs|s0 f s n Hl Hs Hn
                   |s0 f s Hl Hs Hn|s0 f s mid Hmid Hl Hs|s0 f s mid Hmid Hl Hs
                   |s0 f s mid Hmid Hl Hs|s0 f s mid Hmid Hl Hs|s0 f s mid Hmid Hl Hs
                   |s0 f q Hl Hq|s0 f q s Hl Hq Hs|s0 f q s t Hl Hq Hs Hli
                   |s0 f q s t Hl Hq Hs Hli Hp|s0 f q s e Hl Hq He].
  - (* geteuid *)
    cbn [resume fold_left feed next_answer advance SingleInstance_call bind os_call
         py_call try_OSError answer_of kernel fst snd app].
    rewrite Hpl. split; [constructor|]. split; [apply quiet_changed; [apply quiet_refl | exact Hopen]|].
    intros; apply lets_refl.
  - (* socket *)
    cbn [resume fold_left feed next_answer advance SingleInstance_call bind os_call
         py_call try_OSError answer_of kernel fst snd app].
    unfold k_socket. cbn [fst snd]. split; [|split].
    + apply L_socket. exists false. cbn. apply lookup_insert_eq.
    + apply quiet_changed; [apply quiet_socket; discriminate | exact Hopen].
    + intros j Hj. apply lets_new_socket, fresh_sock_None.
  - (* bind to the abstract address: refused *)
    cbn [resume fold_left feed next_answer advance SingleInstance_call bind os_call
         py_call try_OSError answer_of kernel fst snd app].
    destruct Hs0 as [inh Hs0]. unfold k_bind, state_of. rewrite Hs0.
    cbn [fmap option_fmap option_map so_state is_abstract].
    change ((NUL =? NUL)%char) with true. cbv iota. rewrite Hpl, Hns. cbn [fst snd].
    split; [|split].
    + exact (L_listing is_macos pl stem i w s0 0 (Nat.le_0_l _)).
    + apply quiet_changed; [apply quiet_refl | exact Hopen].
    + intros; apply lets_refl.
  - (* the generator lists the directories; then the lock file is opened *)
    destruct (decide (k < length gen)) as [Hlt|Hge].
    + destruct (lookup_lt_is_Some_2 gen k Hlt) as [a Ha].
      destruct (listing_step i s0 k a w Hpl Ha) as [Hna Hw].
      rewrite Hna. cbv zeta. rewrite Hw. split; [|split].
      * rewrite <- app_assoc, <- (take_S_r _ _ _ Ha). apply L_listing. lia.
      * apply quiet_changed; [apply quiet_refl | exact Hopen].
      * intros; apply lets_refl.
    + rewrite (take_ge gen k) by lia.
      destruct (resume_listing s0) as [next Hnext]. rewrite Hnext.
      cbn [around single_instance_unix_body next_answer advance bind os_call
           answer_of kernel fst snd].
      rewrite (k_open_ok i lockp w Hopen). cbn [fst snd].
      split; [|split].
      * replace ((no_abstract pl s0 ++ gen) ++ [A_fd (Ok (fresh (dom (fds w))))])
          with (opened is_macos pl s0 (fresh (dom (fds w))) ++ [])
          by (unfold opened; now rewrite app_nil_r, app_assoc).
        apply L_opened. cbn. apply lookup_insert_eq.
      * unfold Race.changed_by, Race.can_open. cbn. repeat split.
        -- right. apply lookup_insert_eq.
        -- intros q0 Hq0. now left.
        -- intros t Ht. now left.
      * intros j Hj. apply lets_open, fresh_fd_None.
  - (* lockf *)
    past s0 f. unfold k_lockf. rewrite Hf.
    destruct (locks w !! lockp) as [q|] eqn:Hlk.
    + destruct (Nat.eqb_spec q i) as [->|Hq]; cbn [fst snd];
        rewrite <- app_assoc; cbn [app]; (split; [|split]).
      * now apply L_locked.
      * apply quiet_changed; [apply quiet_refl | exact Hopen].
      * intros; apply lets_refl.
      * now apply L_denied with (q := q).
      * apply quiet_changed; [apply quiet_refl | exact Hopen].
      * intros; apply lets_refl.
    + cbn [fst snd]. rewrite <- app_assoc; cbn [app]. split; [|split].
      * apply L_locked. cbn. apply lookup_insert_eq.
      * unfold Race.changed_by. split; [exact Hopen|]. split.
        -- intros q Hq. right. cbn in Hq. rewrite lookup_insert_eq in Hq.
           split; [congruence|]. now exists s0, f.
        -- intros t Ht. left. exact Ht.
      * intros j Hj. now apply lets_lock.
  - (* the socket of the primary *)
    past s0 f. unfold k_socket. cbn [fst snd]. rewrite <- app_assoc; cbn [app].
    split; [|split].
    + apply L_new_socket; [exact Hl|]. exists false. cbn. apply lookup_insert_eq.
    + apply quiet_changed; [apply quiet_socket; discriminate | exact Hopen].
    + intros j Hj. apply lets_new_socket, fresh_sock_None.
  - (* bind to the socket path *)
    past s0 f. pose proof (sock_is_state _ _ _ _ Hs) as Hst. destruct Hs as [inh Hs].
    destruct (files w !! sockp) as [n|] eqn:Hn.
    + rewrite (k_bind_path_in_use s sockp n w Hst sockp_not_abstract Hn).
      cbn [fst snd]. rewrite <- app_assoc; cbn [app]. split; [|split].
      * apply L_stale with (n := n); [exact Hl| |exact Hn]. now exists inh.
      * apply quiet_changed; [apply quiet_refl | exact Hopen].
      * intros; apply lets_refl.
    + destruct (bind_free i w s inh Hl Hs Hn Hopen) as (Hb & Hl1 & Hs1 & Hch & Hlet).
      destruct (k_bind s sockp w) as [r w1]. cbn [fst snd] in *. subst r.
      rewrite <- app_assoc; cbn [app]. split; [|split]; [|apply Hch|exact Hlet].
      now apply (L_bound is_macos pl stem i _ s0 f s at_once); [left| |].
  - (* unlink of the stale socket file *)
    past s0 f. rewrite (k_unlink_ok sockp n w Hn). cbn [fst snd].
    rewrite <- app_assoc; cbn [app]. split; [|split].
    + apply L_unlinked; [exact Hl|exact Hs|]. cbn. apply lookup_delete_eq.
    + apply changed_little; [|reflexivity|auto|exact Hopen].
      cbn. apply lookup_delete_ne. intros Heq. now apply paths_differ.
    + intros j Hj. now apply (lets_files i).
  - (* the second bind *)
    past s0 f. destruct Hs as [inh Hs].
    destruct (bind_free i w s inh Hl Hs Hn Hopen) as (Hb & Hl1 & Hs1 & Hch & Hlet).
    destruct (k_bind s sockp w) as [r w1]. cbn [fst snd] in *. subst r.
    rewrite <- app_assoc; cbn [app]. split; [|split]; [|apply Hch|exact Hlet].
    now apply (L_bound is_macos pl stem i _ s0 f s after_unlink); [right| |].
  - (* single_instance.socket = s *)
    destruct Hmid as [-> | ->]; past s0 f; rewrite <- app_assoc; cbn [app].
    + split; [|split].
      * now apply (L_kept is_macos pl stem i _ s0 f s at_once); [left| |].
      * apply quiet_changed; [apply quiet_procs | exact Hopen].
      * intros j Hj. now apply lets_procs.
    + split; [|split].
      * now apply (L_kept is_macos pl stem i _ s0 f s after_unlink); [right| |].
      * apply quiet_changed; [apply quiet_procs | exact Hopen].
      * intros j Hj. now apply lets_procs.
  - (* atexit.register *)
    destruct Hmid as [-> | ->]; past s0 f; rewrite <- app_assoc; cbn [app].
    + split; [|split].
      * now apply (L_registered is_macos pl stem i _ s0 f s at_once); [left| |].
      * apply quiet_changed; [apply quiet_procs | exact Hopen].
      * intros j Hj. now apply lets_procs.
    + split; [|split].
      * now apply (L_registered is_macos pl stem i _ s0 f s after_unlink); [right| |].
      * apply quiet_changed; [apply quiet_procs | exact Hopen].
      * intros j Hj. now apply lets_procs.
  - (* listen *)
    pose proof (sock_is_state _ _ _ _ Hs) as Hst. destruct Hs as [inh Hs].
    assert (Hstep :
      at_pc i (set_state s (Listening sockp) w)
        (opened is_macos pl s0 f ++ bound s mid ++ [A_unit; A_unit; done])
      /\ changed_by i (opened is_macos pl s0 f ++ bound s mid ++ [A_unit; A_unit]) done
           w (set_state s (Listening sockp) w)
      /\ (forall j, j <> i -> lets_be j w (set_state s (Listening sockp) w))).
    { rewrite (set_state_insert s _ w _ Hs). cbn [so_owner so_inheritable].
      split; [|split].
      - apply L_listening; [exact Hmid|exact Hl|]. exists inh. cbn. apply lookup_insert_eq.
      - split; [exact Hopen|]. split; [intros q Hq; now left|].
        intros t Ht. destruct (decide (t = s)) as [->|Hne].
        + right. now exists s0, f, mid.
        + left. rewrite <- Ht. symmetry. apply is_listening_eq. cbn.
          now apply lookup_insert_ne.
      - intros j Hj. apply lets_own_socket with (so := Build_socket i (Bound sockp) inh);
          [exact Hs|cbn; congruence|]. intros _. now exists sockp. }
    destruct Hmid as [-> | ->]; past s0 f; rewrite (k_listen_ok s sockp w Hst);
      cbn [fst snd]; rewrite <- app_assoc; cbn [app]; exact Hstep.
  - (* set_inheritable *)
    destruct Hs as [inh Hs].
    assert (Hstep :
      forall h a,
      let w1 := with_sockets (<[s := Build_socket i (Listening sockp) false]> (sockets w)) w in
      at_pc i w1 (opened is_macos pl s0 f ++ bound s mid ++ [A_unit; A_unit; done; done])
      /\ changed_by i h a w w1
      /\ (forall j, j <> i -> lets_be j w w1)).
    { intros h a w1. split; [|split].
      - apply L_primary; [exact Hmid|exact Hl|]. exists false. cbn. apply lookup_insert_eq.
      - apply quiet_changed; [|exact Hopen].
        now apply quiet_keeps_listening with (so := Build_socket i (Listening sockp) inh).
      - intros j Hj.
        apply lets_own_socket with (so := Build_socket i (Listening sockp) inh);
          [exact Hs|cbn; congruence|]. intros _. now exists sockp. }
    destruct Hmid as [-> | ->]; past s0 f;
      rewrite (k_set_inheritable_ok s _ false w Hs) by discriminate;
      cbn [fst snd so_owner so_state]; rewrite <- app_assoc; cbn [app]; apply Hstep.
  - (* the primary has returned *)
    destruct Hmid as [-> | ->]; past s0 f; exact I.
  - (* the socket of the secondary *)
    past s0 f. unfold k_socket. cbn [fst snd]. rewrite <- app_assoc; cbn [app].
    split; [|split].
    + apply L_client with (q := q); [exact Hl|exact Hq|]. exists false. cbn.
      apply lookup_insert_eq.
    + apply quiet_changed; [apply quiet_socket; discriminate | exact Hopen].
    + intros j Hj. apply lets_new_socket, fresh_sock_None.
  - (* connect *)
    past s0 f. pose proof (sock_is_state _ _ _ _ Hs) as Hst. destruct Hs as [inh Hs].
    unfold k_connect, target. rewrite Hst, sockp_not_abstract.
    destruct (files w !! sockp) as [[wr|t]|] eqn:Hn;
      [|destruct (is_listening t w) eqn:Hli|]; cbn [fst snd];
      rewrite <- app_assoc; cbn [app].
    + split; [|split].
      * apply L_failed with (q := q); [exact Hl|exact Hq|now right].
      * apply quiet_changed; [apply quiet_refl | exact Hopen].
      * intros; apply lets_refl.
    + rewrite (set_state_insert s _ w _ Hs). cbn [so_owner so_inheritable].
      assert (Hts : t <> s).
      { intros ->. unfold is_listening in Hli. rewrite Hst in Hli. discriminate. }
      split; [|split].
      * apply L_connected with (q := q) (t := t); [exact Hl|exact Hq| |].
        -- exists inh. cbn. apply lookup_insert_eq.
        -- rewrite <- Hli. apply is_listening_eq. cbn. now apply lookup_insert_ne.
      * apply quiet_changed; [apply quiet_socket; discriminate | exact Hopen].
      * intros j Hj. apply lets_own_socket with (so := Build_socket i Fresh inh);
          [exact Hs|cbn; congruence|].
        intros Hl'. unfold is_listening in Hl'. rewrite Hst in Hl'. discriminate.
    + split; [|split].
      * apply L_failed with (q := q); [exact Hl|exact Hq|now right].
      * apply quiet_changed; [apply quiet_refl | exact Hopen].
      * intros; apply lets_refl.
    + split; [|split].
      * apply L_failed with (q := q); [exact Hl|exact Hq|now left].
      * apply quiet_changed; [apply quiet_refl | exact Hopen].
      * intros; apply lets_refl.
  - (* single_instance.socket = s, for the secondary *)
    past s0 f. rewrite <- app_assoc; cbn [app]. split; [|split].
    + apply L_secondary with (q := q) (t := t); [exact Hl|exact Hq|exact Hs|exact Hli|].
      unfold the_proc, k_set_socket. cbn. now rewrite lookup_insert_eq.
    + apply quiet_changed; [apply quiet_procs | exact Hopen].
    + intros j Hj. now apply lets_procs.
  - past s0 f. exact I.
  - past s0 f. exact I.
Qed.

(** What a process knows survives the steps of the others. *)
Lemma lock_stable i w w1 h :
  lets_be i w w1 -> at_pc i w h -> at_pc i w1 h.
Proof.
  intros (H1 & H2 & H3 & H4 & H5 & H6 & H7) Hat.
  assert (Hsock : forall s st, sock_is i s st w -> sock_is i s st w1).
  { intros s st [inh Hs]. exists inh. now apply H2. }
  destruct Hat;
    [ econstructor 1 | econstructor 2 | econstructor 3 | econstructor 4
    | econstructor 5 | econstructor 6 | econstructor 7 | econstructor 8
    | econstructor 9 | econstructor 10 | econstructor 11 | econstructor 12
    | econstructor 13 | econstructor 14 | econstructor 15 | econstructor 16
    | econstructor 17 | econstructor 18 | econstructor 19 ];
    eauto; try (rewrite H6 by assumption; eassumption);
    try (rewrite H7; assumption).
Qed.

Local Abbreviation Inv := (lock_race appname is_macos group_id pl stem).

Lemma lock_race_start n w0 :
  plat w0 = pl -> can_open w0 -> locks w0 !! lockp = None ->
  (forall t, is_listening t w0 = false) ->
  Inv (start P0 n w0).
Proof.
  intros Hpl Ho Hl Hq. split; [exact Hpl|]. split; [exact Ho|].
  exists (replicate n []). split; [|split; [|split]].
  - cbn. now rewrite fmap_replicate.
  - intros i h Hh. apply lookup_replicate in Hh as [-> _]. constructor.
  - cbn. intros q Hq'. congruence.
  - cbn. intros t Ht. rewrite Hq in Ht. discriminate.
Qed.

Lemma lock_race_step i sigma : Inv sigma -> Inv (step i sigma).
Proof.
  intros (Hpl & Ho & hs & Hprocs & Hloc & Hhold & Hlis). unfold step.
  rewrite Hprocs, list_lookup_fmap.
  destruct (hs !! i) as [h|] eqn:Hh; cbn [fmap option_fmap option_map];
    [|split; [exact Hpl|]; split; [exact Ho|]; exists hs; now rewrite <- Hprocs].
  pose proof (lock_own_step i (sys_world sigma) h Hpl Ho (Hloc i h Hh)) as Hown.
  assert (Hi : i < length hs) by (now apply lookup_lt_Some in Hh).
  destruct (next_answer i (resume P0 h) (sys_world sigma)) as [a|] eqn:Hna.
  - pose proof (advance_feed i _ _ a Hna) as Hfeed.
    destruct (advance i (resume P0 h) (sys_world sigma)) as [p1 w1].
    cbn [fst snd] in Hown, Hfeed. destruct Hown as (Hat & (Ho1 & Hlk & Hli) & Hsp).
    split; [destruct (Hsp (S i)) as (Hp1 & _); [lia | cbn [sys_world]; congruence]|].
    split; [exact Ho1|].
    exists (<[i := h ++ [a]]> hs). cbn [sys_procs sys_world]. split; [|split; [|split]].
    + rewrite list_fmap_insert, resume_snoc. now rewrite Hfeed.
    + intros j hj Hj. destruct (decide (j = i)) as [->|Hne].
      * rewrite list_lookup_insert_eq in Hj by exact Hi. now injection Hj as <-.
      * rewrite list_lookup_insert_ne in Hj by congruence.
        apply (lock_stable j (sys_world sigma)); [now apply Hsp | now apply Hloc].
    + intros q Hq. destruct (Hlk q Hq) as [Hold | (-> & s0 & f & -> & ->)].
      * destruct (Hhold q Hold) as (s0 & f & rest & Hj).
        destruct (decide (q = i)) as [->|Hne].
        -- exists s0, f, (rest ++ [a]). rewrite list_lookup_insert_eq by exact Hi.
           rewrite Hh in Hj. apply (inj Some) in Hj. subst h. rewrite <- app_assoc. reflexivity.
        -- exists s0, f, rest. now rewrite list_lookup_insert_ne by congruence.
      * exists s0, f, []. rewrite list_lookup_insert_eq by exact Hi.
        rewrite <- app_assoc. reflexivity.
    + intros t Ht.
      destruct (Hli t Ht) as [Hold | (s0 & f & mid & Hmid & -> & ->)].
      * destruct (Hlis t Hold) as (j & s0 & f & mid & rest & Hmid & Hj).
        destruct (decide (j = i)) as [->|Hne].
        -- exists i, s0, f, mid, (rest ++ [a]). split; [exact Hmid|].
           rewrite list_lookup_insert_eq by exact Hi.
           rewrite Hh in Hj. apply (inj Some) in Hj. subst h.
           rewrite <- !app_assoc. reflexivity.
        -- exists j, s0, f, mid, rest. split; [exact Hmid|].
           now rewrite list_lookup_insert_ne by congruence.
      * exists i, s0, f, mid, []. split; [exact Hmid|].
        rewrite list_lookup_insert_eq by exact Hi. rewrite <- !app_assoc. reflexivity.
  - rewrite (advance_terminated i _ _ Hna).
    split; [exact Hpl|]. split; [exact Ho|]. exists hs. cbn [sys_procs sys_world].
    split; [|split; [|split]; assumption].
    apply list_insert_id. now rewrite list_lookup_fmap, Hh.
Qed.

Lemma lock_race_run s sigma : Inv sigma -> Inv (run s sigma).
Proof.
  revert sigma. induction s as [|i s IH]; intros sigma H; [exact H|].
  cbn. apply IH, lock_race_step, H.
Qed.

(** *** What the invariant says of a process that has finished *)

Lemma next_not_terminated {A} i (p : prog A) w a :
  next_answer i p w = Some a -> terminated p = false.
Proof. destruct p; [discriminate..|reflexivity]. Qed.

Lemma lock_terminal i w h :
  plat w = pl -> at_pc i w h -> terminated (resume P0 h) = true ->
  (resume P0 h = Ret (Some true) /\ locks w !! lockp = Some i
   /\ exists s, sock_is i s (Listening sockp) w)
  \/ (exists q, locks w !! lockp = Some q /\ q <> i
                /\ ((resume P0 h = Ret (Some false)
                     /\ exists s t, sock_is i s (Connected t) w
                                    /\ is_listening t w = true
                                    /\ p_socket (the_proc i w) = Some s)
                    \/ resume P0 h = Raise (OSError ENOENT)
                    \/ resume P0 h = Raise (OSError ECONNREFUSED))).
Proof.
  intros Hpl Hat.
  destruct Hat as [ | |s0 Hs0|s0 k Hk|s0 f Hf|s0 f Hl|s0 f s Hl Hs|s0 f s n Hl Hs Hn
                   |s0 f s Hl Hs Hn|s0 f s mid Hmid Hl Hs|s0 f s mid Hmid Hl Hs
                   |s0 f s mid Hmid Hl Hs|s0 f s mid Hmid Hl Hs|s0 f s mid Hmid Hl Hs
                   |s0 f q Hl Hq|s0 f q s Hl Hq Hs|s0 f q s t Hl Hq Hs Hli
                   |s0 f q s t Hl Hq Hs Hli Hp|s0 f q s e Hl Hq He].
  1-3: cbn [resume fold_left feed SingleInstance_call bind os_call py_call try_OSError
            terminated]; discriminate.
  - destruct (decide (k < length gen)) as [Hlt|Hge].
    + destruct (lookup_lt_is_Some_2 gen k Hlt) as [a Ha].
      destruct (listing_step i s0 k a w Hpl Ha) as [Hna _].
      rewrite (next_not_terminated _ _ _ _ Hna). discriminate.
    + rewrite (take_ge gen k) by lia.
      destruct (resume_listing s0) as [next Hnext]. rewrite Hnext.
      cbn [around single_instance_unix_body bind os_call terminated]. discriminate.
  - past s0 f. discriminate.
  - past s0 f. discriminate.
  - past s0 f. discriminate.
  - past s0 f. discriminate.
  - past s0 f. discriminate.
  - destruct Hmid as [-> | ->]; past s0 f; discriminate.
  - destruct Hmid as [-> | ->]; past s0 f; discriminate.
  - destruct Hmid as [-> | ->]; past s0 f; discriminate.
  - destruct Hmid as [-> | ->]; past s0 f; discriminate.
  - destruct Hmid as [-> | ->]; past s0 f; intros _; left;
      (split; [reflexivity|]); (split; [exact Hl|now exists s]).
  - past s0 f. discriminate.
  - past s0 f. discriminate.
  - past s0 f. discriminate.
  - past s0 f. intros _. right. exists q. split; [exact Hl|]. split; [exact Hq|].
    left. split; [reflexivity|]. now exists s, t.
  - destruct He as [-> | ->]; past s0 f; intros _; right; exists q;
      (split; [exact Hl|]); (split; [exact Hq|]); right; [left|right]; reflexivity.
Qed.

Lemma opened_inj s0 f X s0' f' Y :
  opened is_macos pl s0 f ++ X = opened is_macos pl s0' f' ++ Y -> X = Y.
Proof.
  unfold opened, no_abstract. rewrite <- !app_assoc. cbn [app].
  intros [= _ H]. apply app_inv_head in H. now injection H.
Qed.

Lemma listing_short s0 k s0' f X :
  no_abstract pl s0 ++ take k gen = opened is_macos pl s0' f ++ X -> False.
Proof.
  intros H. apply (f_equal length) in H. unfold opened in H.
  rewrite !length_app, length_take in H. cbn [length no_abstract] in H. lia.
Qed.

Ltac not_yet Hh :=
  exfalso;
  first [ unfold opened, no_abstract in Hh; cbn [app] in Hh; discriminate Hh
        | exact (listing_short _ _ _ _ _ Hh) ].

(** The process past its lock holds the lock. *)
Lemma lock_holder j w s0 f rest :
  at_pc j w (opened is_macos pl s0 f ++ done :: rest) -> locks w !! lockp = Some j.
Proof.
  intros Hat. remember (opened is_macos pl s0 f ++ done :: rest) as h eqn:Hh.
  destruct Hat; [not_yet Hh..| | | | | | | | | | | | | | | ];
    apply opened_inj in Hh; unfold denied, done, bound in Hh; cbn [app] in Hh;
    try discriminate Hh; assumption.
Qed.

(** The process past its listen owns the listening socket. *)
Lemma lock_listener j w s0 f t mid rest :
  either_way mid ->
  at_pc j w (opened is_macos pl s0 f ++ bound t mid ++ A_unit :: A_unit :: done :: rest) ->
  sock_is j t (Listening sockp) w.
Proof.
  intros Hmid Hat.
  remember (opened is_macos pl s0 f ++ bound t mid ++ A_unit :: A_unit :: done :: rest)
    as h eqn:Hh.
  destruct Hat; [not_yet Hh..| | | | | | | | | | | | | | | ];
    apply opened_inj in Hh;
    repeat match goal with H : either_way _ |- _ => destruct H as [-> | ->] end;
    unfold denied, done, bound, at_once, after_unlink in Hh; cbn [app] in Hh;
    try discriminate Hh; injection Hh as -> _; assumption.
Qed.

(** The outcome of the race for the lock file, in every state a
    schedule can reach. *)
Lemma lock_race_outcome n sched w0 :
  plat w0 = pl -> can_open w0 -> locks w0 !! lockp = None ->
  (forall t, is_listening t w0 = false) ->
  let sigma := run sched (start P0 n w0) in
  race_outcome n sigma.
Proof.
  intros Hpl Ho0 Hl0 Hq0 sigma.
  assert (HI : Inv sigma) by (apply lock_race_run, lock_race_start; assumption).
  assert (Hn : length (sys_procs sigma) = n).
  { unfold sigma. rewrite run_length. cbn. apply length_replicate. }
  destruct HI as (Hplw & _ & hs & Hprocs & Hloc & Hhold & Hlis).
  assert (Hlen : length hs = n) by (rewrite <- Hn, Hprocs; now rewrite length_map).
  set (w := sys_world sigma) in *.
  assert (Hend : forall i p, sys_procs sigma !! i = Some p -> terminated p = true ->
            (p = Ret (Some true) /\ locks w !! lockp = Some i
             /\ exists s, sock_is i s (Listening sockp) w)
            \/ (exists q, locks w !! lockp = Some q /\ q <> i
                  /\ ((p = Ret (Some false)
                       /\ exists s t, sock_is i s (Connected t) w
                                      /\ is_listening t w = true
                                      /\ p_socket (the_proc i w) = Some s)
                      \/ p = Raise (OSError ENOENT)
                      \/ p = Raise (OSError ECONNREFUSED)))).
  { intros i p Hp Ht. rewrite Hprocs, list_lookup_fmap in Hp.
    destruct (hs !! i) as [h|] eqn:Hh; [|discriminate].
    apply (inj Some) in Hp. subst p.
    apply (lock_terminal i w h Hplw (Hloc i h Hh) Ht). }
  assert (Hown : forall t, is_listening t w = true ->
            exists j, j < n /\ owned_by j w t = true /\ locks w !! lockp = Some j).
  { intros t Ht. destruct (Hlis t Ht) as (j & s0 & f & mid & rest & Hmid & Hj).
    exists j. split; [rewrite <- Hlen; now apply lookup_lt_Some in Hj|].
    pose proof (Hloc j _ Hj) as Hat. split.
    - eapply owned_by_sock_is, lock_listener; [exact Hmid|exact Hat].
    - exact (lock_holder j w s0 f _ Hat). }
  assert (Hprim : forall i, returned sigma i (Some true) -> locks w !! lockp = Some i).
  { intros i Hi. destruct (Hend i _ Hi eq_refl) as [(_ & Hl & _) | (q & _ & _ & [[H _] | [H | H]])];
      [exact Hl|discriminate H..]. }
  assert (Hsec : forall i j, returned sigma i (Some false) -> locks w !! lockp = Some j ->
            j <> i /\ j < n /\ connected_to i j w).
  { intros i j Hi Hj.
    destruct (Hend i _ Hi eq_refl)
      as [(H & _) | (q & Hlq & Hqi & [[_ (s & t & Hs & Ht & Hp)] | [H | H]])];
      [discriminate H| |discriminate H..].
    destruct (Hown t Ht) as (j' & Hjn & Hoj & Hlj).
    assert (j' = j) by congruence. subst j'.
    split; [congruence|]. split; [exact Hjn|].
    exists s, t. split; [exact Hp|]. split; [now apply sock_is_state with (i := i)|].
    now split. }
  split; [|split; [|split]].
  - intros i j Hi Hj. apply Hprim in Hi, Hj. congruence.
  - intros i Hi.
    destruct (Hend i _ Hi eq_refl)
      as [(_ & _ & s & Hs) | (q & _ & _ & [[H _] | [H | H]])]; [|discriminate H..].
    exists s. split; [eapply owned_by_sock_is|eapply sock_is_listening]; exact Hs.
  - intros i Hi.
    destruct (Hend i _ Hi eq_refl)
      as [(H & _) | (q & Hlq & _ & _)]; [discriminate H|].
    exists q. now apply Hsec.
  - intros Hfin Hn1.
    assert (Hterm : forall i p, sys_procs sigma !! i = Some p -> terminated p = true).
    { intros i p Hp. unfold finished in Hfin.
      eapply forallb_forall in Hfin; [exact Hfin|].
      apply list_elem_of_In, list_elem_of_lookup. eauto. }
    assert (Hex : exists j, returned sigma j (Some true)).
    { destruct (lookup_lt_is_Some_2 (sys_procs sigma) 0) as [p Hp]; [lia|].
      destruct (Hend 0 p Hp (Hterm 0 p Hp)) as [(-> & _) | (q & Hlq & _ & _)].
      - now exists 0.
      - destruct (Hhold q Hlq) as (s0 & f & rest & Hq).
        assert (Hqn : q < length (sys_procs sigma)).
        { rewrite Hn, <- Hlen. now apply lookup_lt_Some in Hq. }
        destruct (lookup_lt_is_Some_2 (sys_procs sigma) q Hqn) as [p' Hp'].
        exists q. unfold returned. rewrite Hp'. f_equal.
        destruct (Hend q p' Hp' (Hterm q p' Hp')) as [(-> & _) | (q' & Hlq' & Hne & _)];
          [reflexivity|congruence]. }
    destruct Hex as [j Hj]. exists j. split; [exact Hj|].
    pose proof (Hprim j Hj) as Hlj.
    intros i Hin Hij.
    destruct (lookup_lt_is_Some_2 (sys_procs sigma) i) as [p Hp]; [lia|].
    destruct (Hend i p Hp (Hterm i p Hp))
      as [(_ & Hli & _) | (q & Hlq & Hqi & [[-> _] | [-> | ->]])].
    + congruence.
    + left. split; [exact Hp|]. now apply Hsec.
    + right. now left.
    + right. now right.
Qed.

End Lock_race_facts.

(** * The race of several processes for one identity *)

Section Race_claim.

Import Posix Race.


(** The same on a platform without the abstract namespace: the second
    process is denied the lock and connects before the first has bound
    the socket path. *)
Lemma race_loser_finds_no_socket :
  let sigma :=
    run [0; 0; 0; 0; 0; 0; 0; 0; 1; 1; 1; 1; 1; 1; 1; 1; 1; 1; 1;
         0; 0; 0; 0; 0; 0; 0; 0; 0]
        (start (SingleInstance_call "kitty" false None) 2 (Demo.boot Demo.bsd)) in
  finished sigma = true
  /\ returned sigma 0 (Some true)
  /\ raised sigma 1 (OSError ENOENT).
Proof. vm_compute. repeat split. Qed.



End Race_claim.

(** * Colors as integers *)

Section Colors.

Local Open Scope Z_scope.

Lemma channel_bits c n : 0 <= c < 256 -> 8 <= n -> Z.testbit c n = false.
Proof.
  intros Hc Hn. destruct (Z.eq_dec c 0) as [->|Hz]; [apply Z.bits_0|].
  apply Z.bits_above_log2; [lia|].
  assert (Z.log2 c < 8) by (apply Z.log2_lt_pow2; lia). lia.
Qed.

Lemma testbit_255 n : 0 <= n -> Z.testbit 255 n = (n <? 8).
Proof.
  intros Hn. change 255 with (Z.ones 8).
  destruct (Z.ltb_spec n 8).
  - apply Z.ones_spec_low. lia.
  - apply Z.ones_spec_high. lia.
Qed.

Ltac bits :=
  repeat first
    [ rewrite Z.lor_spec | rewrite Z.land_spec
    | rewrite Z.shiftr_spec by lia | rewrite Z.shiftl_spec by lia
    | rewrite testbit_255 by lia ].

(** X1: A color with channels in 0..255 is recovered from its integer. *)
Theorem color_from_int_as_int r g b :
  0 <= r < 256 -> 0 <= g < 256 -> 0 <= b < 256 ->
  color_from_int (color_as_int (r, g, b)) = (r, g, b)
  /\ 0 <= color_as_int (r, g, b) < 2 ^ 24.
Proof.
  intros Hr Hg Hb. unfold color_from_int, color_as_int.
  assert (Hbit : forall n, 0 <= n ->
            Z.testbit (Z.lor (Z.lor (Z.shiftl r 16) (Z.shiftl g 8)) b) n
            = if n <? 8 then Z.testbit b n
              else if n <? 16 then Z.testbit g (n - 8)
                   else Z.testbit r (n - 16)).
  { intros n Hn. bits.
    destruct (Z.ltb_spec n 8); [|destruct (Z.ltb_spec n 16)].
    - rewrite (Z.testbit_neg_r r), (Z.testbit_neg_r g) by lia. reflexivity.
    - rewrite (Z.testbit_neg_r r) by lia.
      rewrite (channel_bits b n) by lia. now rewrite orb_false_r.
    - rewrite (channel_bits g (n - 8)), (channel_bits b n) by lia.
      now rewrite !orb_false_r. }
  split.
  - f_equal; [f_equal|]; apply Z.bits_inj'; intros n Hn;
      rewrite Z.land_spec, ?Z.shiftr_spec by lia; rewrite Hbit by lia;
      rewrite testbit_255 by lia.
    + destruct (Z.ltb_spec n 8).
      * replace (n + 16 <? 8) with false by lia. replace (n + 16 <? 16) with false by lia.
        rewrite andb_true_r. f_equal. lia.
      * rewrite andb_false_r. symmetry. apply channel_bits; lia.
    + destruct (Z.ltb_spec n 8).
      * replace (n + 8 <? 8) with false by lia. replace (n + 8 <? 16) with true by lia.
        rewrite andb_true_r. f_equal. lia.
      * rewrite andb_false_r. symmetry. apply channel_bits; lia.
    + destruct (Z.ltb_spec n 8).
      * now rewrite andb_true_r.
      * rewrite andb_false_r. symmetry. apply channel_bits; lia.
  - set (v := Z.lor _ _) in *.
    assert (Hnn : 0 <= v).
    { subst v. rewrite !Z.lor_nonneg, !Z.shiftl_nonneg. lia. }
    split; [exact Hnn|].
    destruct (Z.eq_dec v 0) as [->|Hz]; [lia|].
    apply Z.log2_lt_pow2; [lia|].
    destruct (Z.lt_ge_cases (Z.log2 v) 24) as [Hlt|Hge]; [exact Hlt|exfalso].
    pose proof (Z.bit_log2 v ltac:(lia)) as Hone.
    rewrite Hbit in Hone by lia.
    replace (Z.log2 v <? 8) with false in Hone by lia.
    replace (Z.log2 v <? 16) with false in Hone by lia.
    rewrite channel_bits in Hone by lia. discriminate.
Qed.

Lemma color_from_int_as_int_witness :
  color_from_int (color_as_int (18, 52, 86)) = (18, 52, 86)
  /\ 0 <= color_as_int (18, 52, 86) < 2 ^ 24.
Proof. apply color_from_int_as_int; lia. Defined.

(** X2: Whatever the integer, the channels are in 0..255, and putting them
    together again gives the integer modulo 2^24: the integer itself
    exactly when it is in 0..2^24-1. *)
Theorem color_as_int_from_int v :
  (let '(r, g, b) := color_from_int v in
   0 <= r < 256 /\ 0 <= g < 256 /\ 0 <= b < 256)
  /\ color_as_int (color_from_int v) = v mod 2 ^ 24
  /\ (color_as_int (color_from_int v) = v <-> 0 <= v < 2 ^ 24).
Proof.
  assert (Hland : forall x, 0 <= Z.land x 255 < 256).
  { intros x. change 255 with (Z.ones 8). rewrite Z.land_ones by lia.
    apply Z.mod_pos_bound. lia. }
  assert (Heq : color_as_int (color_from_int v) = v mod 2 ^ 24).
  { unfold color_from_int, color_as_int. rewrite <- Z.land_ones by lia.
    apply Z.bits_inj'. intros n Hn. bits.
    destruct (Z.ltb_spec n 8); [|destruct (Z.ltb_spec n 16); [|destruct (Z.ltb_spec n 24)]];
      rewrite ?(Z.testbit_neg_r _ (n - 16)), ?(Z.testbit_neg_r _ (n - 8)) by lia;
      rewrite ?(testbit_255 n), ?(testbit_255 (n - 8)), ?(testbit_255 (n - 16)) by lia;
      rewrite ?Z.shiftr_spec by lia;
      rewrite ?Z.ones_spec_low, ?Z.ones_spec_high by lia;
      rewrite ?Z.sub_add;
      repeat match goal with
             | |- context [?a <? ?b] =>
                 first [ replace (a <? b) with true by lia
                       | replace (a <? b) with false by lia ]
             end;
      destruct (Z.testbit v n); reflexivity. }
  split; [|split].
  - unfold color_from_int. auto.
  - exact Heq.
  - rewrite Heq. split.
    + intros H. rewrite <- H. apply Z.mod_pos_bound. lia.
    + intros H. apply Z.mod_small. exact H.
Qed.

End Colors.

(** * base64_encode *)

Section Base64.

Local Open Scope Z_scope.

Lemma str_length_app (s t : string) :
  String.length (s +:+ t) = (String.length s + String.length t)%nat.
Proof.
  induction s as [|c s IH]; [reflexivity|].
  change (S (String.length (s +:+ t)) = S (String.length s + String.length t)).
  now rewrite IH.
Qed.

Lemma str_app_cons (s : string) c t : (s +:+ String c "") +:+ t = s +:+ String c t.
Proof. now rewrite str_app_assoc. Qed.

Lemma base64_value_app chars s t acc :
  base64_value chars acc (s +:+ t)
  = match base64_value chars acc s with
    | Some a => base64_value chars a t
    | None => None
    end.
Proof.
  revert acc. induction s as [|c s IH]; intros acc; [reflexivity|].
  change (String c s +:+ t) with (String c (s +:+ t)). cbn [base64_value].
  destruct (Py.find c chars); [apply IH | reflexivity].
Qed.

(** The default alphabet has 64 different digits. *)
Lemma base64_chars_digits r :
  0 <= r < 64 ->
  exists c, Py.index base64_chars r = Some c /\ Py.find c base64_chars = Some r.
Proof.
  intros Hr. rewrite <- (Z2Nat.id r) by lia.
  assert (Hk : (Z.to_nat r < 64)%nat) by lia. revert Hk.
  generalize (Z.to_nat r) as k. intros k Hk.
  do 64 (destruct k as [|k]; [eexists; split; vm_compute; reflexivity|]). lia.
Qed.

Section Alphabet.

Variable chars : string.
Hypothesis Hchars :
  forall r, 0 <= r < 64 ->
            exists c, Py.index chars r = Some c /\ Py.find c chars = Some r.

(** The loop puts the base-64 digits of [n] in front of [ans]. *)
Lemma base64_loop_digits n :
  0 <= n ->
  exists pre,
    (forall rounds ans,
        (1 <= rounds)%nat -> n < 64 ^ Z.of_nat rounds ->
        base64_loop rounds n chars ans = Gave (pre +:+ ans))
    /\ (forall acc, base64_value chars acc pre
                    = Some (acc * 64 ^ Z.of_nat (String.length pre) + n))
    /\ (1 <= String.length pre)%nat
    /\ n < 64 ^ Z.of_nat (String.length pre)
    /\ (n <> 0 -> 64 ^ (Z.of_nat (String.length pre) - 1) <= n).
Proof.
  intros Hn. revert n Hn. apply (Zlt_0_ind (fun n => exists pre, _)).
  intros n IH Hn.
  assert (Hr : 0 <= n mod 64 < 64) by (apply Z.mod_pos_bound; lia).
  destruct (Hchars _ Hr) as (c & Hc & Hf).
  pose proof (Z.div_mod n 64 ltac:(lia)) as Hdm.
  destruct (Z.eq_dec (n / 64) 0) as [Hq|Hq].
  - exists (String c ""). split; [|split; [|split; [|split]]].
    + intros [|rounds] ans H1 Hb; [lia|].
      cbn [base64_loop]. rewrite Hc, Hq. reflexivity.
    + intros acc. cbn. rewrite Hf. f_equal. lia.
    + cbn. lia.
    + cbn. lia.
    + cbn. lia.
  - assert (Hq0 : 0 <= n / 64 < n).
    { split; [apply Z.div_pos; lia|]. apply Z.div_lt; lia. }
    destruct (IH (n / 64) Hq0) as (pre & Hloop & Hval & Hlen & Hub & Hlb).
    exists (pre +:+ String c ""). rewrite str_length_app. cbn [String.length].
    replace (Z.of_nat (String.length pre + 1)) with (Z.of_nat (String.length pre) + 1)
      by lia.
    rewrite Z.pow_add_r by lia. change (64 ^ 1) with 64.
    split; [|split; [|split; [|split]]].
    + intros [|rounds] ans H1 Hb; [lia|].
      cbn [base64_loop]. rewrite Hc.
      destruct (Z.eqb_spec (n / 64) 0) as [Hz|_]; [contradiction|].
      rewrite Nat2Z.inj_succ, Z.pow_succ_r in Hb by lia.
      assert (Hqb : n / 64 < 64 ^ Z.of_nat rounds)
        by (apply Z.div_lt_upper_bound; lia).
      destruct rounds as [|rounds]; [cbn in Hqb; lia|].
      rewrite Hloop by (lia || exact Hqb). now rewrite str_app_cons.
    + intros acc. rewrite base64_value_app, Hval. cbn. rewrite Hf. f_equal. lia.
    + lia.
    + lia.
    + intros _. specialize (Hlb Hq).
      replace (Z.of_nat (String.length pre) + 1 - 1)
        with (Z.of_nat (String.length pre) - 1 + 1) by lia.
      rewrite Z.pow_add_r by lia. change (64 ^ 1) with 64. lia.
Qed.

End Alphabet.

(** X3: Every integer from 0 on is encoded, in as many rounds as it has
    base-64 digits, by the text of these digits: the text is not empty, it
    stands for the integer, and it has no more digits than needed. *)
Theorem base64_encode_digits chars n :
  (forall r, 0 <= r < 64 ->
             exists c, Py.index chars r = Some c /\ Py.find c chars = Some r) ->
  0 <= n ->
  exists s,
    (forall rounds, (1 <= rounds)%nat -> n < 64 ^ Z.of_nat rounds ->
                    base64_encode rounds n chars = Gave s)
    /\ base64_value chars 0 s = Some n
    /\ (1 <= String.length s)%nat
    /\ n < 64 ^ Z.of_nat (String.length s)
    /\ (n <> 0 -> 64 ^ (Z.of_nat (String.length s) - 1) <= n).
Proof.
  intros Hchars Hn.
  destruct (base64_loop_digits chars Hchars n Hn) as (pre & Hloop & Hval & Hlen & Hb).
  exists pre. split; [|split; [|split]]; try assumption.
  - intros rounds H1 Hr. unfold base64_encode. rewrite (Hloop rounds "" H1 Hr).
    f_equal. apply str_app_nil_r.
  - rewrite Hval. f_equal; lia.
Qed.

Lemma base64_encode_digits_witness :
  exists s,
    (forall rounds, (1 <= rounds)%nat -> 4711 < 64 ^ Z.of_nat rounds ->
                    base64_encode rounds 4711 base64_chars = Gave s)
    /\ base64_value base64_chars 0 s = Some 4711
    /\ (1 <= String.length s)%nat
    /\ 4711 < 64 ^ Z.of_nat (String.length s)
    /\ (4711 <> 0 -> 64 ^ (Z.of_nat (String.length s) - 1) <= 4711).
Proof. apply (base64_encode_digits base64_chars 4711 base64_chars_digits). lia. Defined.

(** X5: Different integers from 0 on have different encodings. *)
Theorem base64_encode_injective n m rounds s :
  0 <= n -> 0 <= m ->
  base64_encode rounds n base64_chars = Gave s ->
  base64_encode rounds m base64_chars = Gave s ->
  n = m.
Proof.
  intros Hn Hm En Em.
  assert (Hdec : forall k, 0 <= k -> base64_encode rounds k base64_chars = Gave s ->
                           base64_value base64_chars 0 s = Some k).
  { intros k Hk Ek.
    destruct (base64_loop_digits base64_chars base64_chars_digits k Hk)
      as (t & Ht & Hv & _ & Hub & _).
    destruct (Z.lt_ge_cases k (64 ^ Z.of_nat rounds)) as [Hlt|Hge].
    - destruct rounds as [|rounds]; [discriminate Ek|].
      unfold base64_encode in Ek.
      rewrite (Ht (S rounds) "") in Ek by (lia || exact Hlt).
      rewrite str_app_nil_r in Ek. injection Ek as <-.
      rewrite Hv. f_equal; lia.
    - exfalso. revert Ek. unfold base64_encode. generalize "" as ans.
      clear Ht Hv Hub t En Em. revert k Hk Hge.
      induction rounds as [|rounds IH]; intros k Hk Hge ans; [discriminate|].
      cbn [base64_loop].
      destruct (Py.index base64_chars (k mod 64)); [|discriminate].
      rewrite Nat2Z.inj_succ, Z.pow_succ_r in Hge by lia.
      assert (Hq : 64 ^ Z.of_nat rounds <= k / 64).
      { apply Z.div_le_lower_bound; lia. }
      assert (0 < 64 ^ Z.of_nat rounds) by (apply Z.pow_pos_nonneg; lia).
      destruct (Z.eqb_spec (k / 64) 0); [lia|].
      apply IH; lia. }
  pose proof (Hdec n Hn En) as H1. pose proof (Hdec m Hm Em) as H2. congruence.
Qed.

Lemma base64_encode_injective_witness : 64 = 64.
Proof.
  apply (base64_encode_injective 64 64 2 "BA"); [lia | lia | vm_compute; reflexivity ..].
Defined.

(** X4: A negative integer is never encoded: its quotient by 64 stays
    negative, so the loop never ends; with the default alphabet it does
    not raise either, it runs for ever. *)
Theorem base64_encode_negative n :
  n < 0 ->
  (forall rounds chars s, base64_encode rounds n chars <> Gave s)
  /\ (forall rounds, base64_encode rounds n base64_chars = Still_running).
Proof.
  intros Hn. unfold base64_encode. split.
  - intros rounds chars. generalize "" as ans. revert n Hn.
    induction rounds as [|rounds IH]; intros n Hn ans s; [discriminate|].
    cbn [base64_loop]. destruct (Py.index chars (n mod 64)); [|discriminate].
    assert (Hq : n / 64 < 0) by (apply Z.div_lt_upper_bound; lia).
    destruct (Z.eqb_spec (n / 64) 0); [lia|]. now apply IH.
  - intros rounds. generalize "" as ans. revert n Hn.
    induction rounds as [|rounds IH]; intros n Hn ans; [reflexivity|].
    cbn [base64_loop].
    assert (Hr : 0 <= n mod 64 < 64) by (apply Z.mod_pos_bound; lia).
    destruct (base64_chars_digits _ Hr) as (c & -> & _).
    assert (Hq : n / 64 < 0) by (apply Z.div_lt_upper_bound; lia).
    destruct (Z.eqb_spec (n / 64) 0); [lia|]. now apply IH.
Qed.

Lemma base64_encode_negative_witness :
  (forall rounds chars s, base64_encode rounds (-1) chars <> Gave s)
  /\ (forall rounds, base64_encode rounds (-1) base64_chars = Still_running).
Proof. apply base64_encode_negative. lia. Defined.

End Base64.

(** * sanitize_title *)

Section Titles.

Lemma space_is_kept : in_removed_class " " = false /\ PyStr.isspace " " = true.
Proof. split; reflexivity. Qed.

Lemma collapse_is_sanitized b y :
  (forall c, PyStr.contains c y = true -> in_removed_class c = false) ->
  is_sanitized b (collapse_space b y) = true.
Proof.
  revert b. induction y as [|c y IH]; intros b Hy; [reflexivity|].
  assert (Hc : in_removed_class c = false).
  { apply Hy. cbn. now rewrite Ascii.eqb_refl. }
  assert (Hy' : forall d, PyStr.contains d y = true -> in_removed_class d = false).
  { intros d Hd. apply Hy. cbn. rewrite Hd. apply orb_true_r. }
  cbn [collapse_space]. destruct (PyStr.isspace c) eqn:Hs.
  - destruct b.
    + now apply IH.
    + cbn [is_sanitized]. rewrite (proj1 space_is_kept), (proj2 space_is_kept).
      cbn. now apply IH.
  - cbn [is_sanitized]. rewrite Hc, Hs. cbn. now apply IH.
Qed.

Lemma remove_class_clean x c :
  PyStr.contains c (remove_class x) = true -> in_removed_class c = false.
Proof.
  induction x as [|d x IH]; cbn [remove_class]; [discriminate|].
  destruct (in_removed_class d) eqn:Hd; [exact IH|].
  cbn [PyStr.contains]. destruct (Ascii.eqb_spec d c) as [<-|_]; [now intros _|].
  exact IH.
Qed.

Lemma sanitized_is_kept b x :
  is_sanitized b x = true -> remove_class x = x /\ collapse_space b x = x.
Proof.
  revert b. induction x as [|c x IH]; intros b; [now split|].
  cbn [is_sanitized remove_class collapse_space].
  destruct (in_removed_class c); [discriminate|]. cbn [negb andb].
  destruct (PyStr.isspace c).
  - destruct (Ascii.eqb_spec c " ") as [->|]; [|discriminate].
    destruct b; [discriminate|]. cbn [negb andb]. intros H.
    destruct (IH true H) as [-> ->]. now split.
  - intros H. destruct (IH false H) as [-> ->]. now split.
Qed.

Lemma remove_class_length x : String.length (remove_class x) <= String.length x.
Proof.
  induction x as [|c x IH]; cbn; [lia|]. destruct (in_removed_class c); cbn; lia.
Qed.

Lemma collapse_space_length b x : String.length (collapse_space b x) <= String.length x.
Proof.
  revert b. induction x as [|c x IH]; intros b; cbn; [lia|].
  destruct (PyStr.isspace c); [destruct b|]; cbn;
    match goal with |- context [collapse_space ?b x] => specialize (IH b) end; lia.
Qed.

(** X6: The sanitized title has no character of the removed class (so no
    tab and no line break), no white space but single spaces, and is no
    longer than the title; a title that is like this already is left as it
    is, so sanitizing twice changes nothing more. *)
Theorem sanitize_title_sanitizes x :
  is_sanitized false (sanitize_title x) = true
  /\ String.length (sanitize_title x) <= String.length x
  /\ (is_sanitized false x = true -> sanitize_title x = x)
  /\ sanitize_title (sanitize_title x) = sanitize_title x.
Proof.
  assert (Hs : is_sanitized false (sanitize_title x) = true).
  { apply collapse_is_sanitized. apply remove_class_clean. }
  assert (Hk : forall y, is_sanitized false y = true -> sanitize_title y = y).
  { intros y Hy. unfold sanitize_title.
    destruct (sanitized_is_kept false y Hy) as [-> ->]. reflexivity. }
  split; [exact Hs|]. split; [|split; [apply Hk | now apply Hk]].
  unfold sanitize_title.
  pose proof (collapse_space_length false (remove_class x)).
  pose proof (remove_class_length x). lia.
Qed.

End Titles.

(** * parse_color_set *)

Section Splitting.

Variable sep : ascii.

Lemma split_not_nil s : Py.split sep s <> [].
Proof.
  destruct s as [|c s]; cbn; [discriminate|].
  destruct (Ascii.eqb c sep); [discriminate|]. destruct (Py.split sep s); discriminate.
Qed.

Lemma split_no_sep s : PyStr.contains sep s = false -> Py.split sep s = [s].
Proof.
  induction s as [|c s IH]; cbn; [reflexivity|].
  destruct (Ascii.eqb c sep); cbn; [discriminate|]. intros H. now rewrite IH.
Qed.

Lemma split_at_sep s t :
  PyStr.contains sep s = false ->
  Py.split sep (s +:+ String sep t) = s :: Py.split sep t.
Proof.
  induction s as [|c s IH]; intros H.
  - change ("" +:+ String sep t) with (String sep t). cbn.
    now rewrite Ascii.eqb_refl.
  - change (String c s +:+ String sep t) with (String c (s +:+ String sep t)).
    cbn in H |- *. destruct (Ascii.eqb c sep); [discriminate|].
    cbn in H. now rewrite IH.
Qed.

(** Splitting undoes joining, for parts without the separator. *)
Lemma split_join l :
  l <> [] -> Forall (fun s => PyStr.contains sep s = false) l ->
  Py.split sep (Py.join (String sep "") l) = l.
Proof.
  induction l as [|x l IH]; intros Hne Hl; [contradiction|].
  inversion Hl as [|? ? Hx Hl']; subst.
  destruct l as [|y l]; [now apply split_no_sep|].
  change (Py.join (String sep "") (x :: y :: l))
    with (x +:+ String sep "" +:+ Py.join (String sep "") (y :: l)).
  change (String sep "" +:+ Py.join (String sep "") (y :: l))
    with (String sep (Py.join (String sep "") (y :: l))).
  rewrite split_at_sep by exact Hx. f_equal. now apply IH.
Qed.

End Splitting.

Section Color_set_facts.

Local Open Scope Z_scope.

Variable to_color : string -> option (Z * Z * Z).

Lemma uint_no_semicolon d : PyStr.contains ";" (NilEmpty.string_of_uint d) = false.
Proof. induction d; cbn; auto. Qed.

Lemma of_nat_no_semicolon n : PyStr.contains ";" (PyStr.of_nat n) = false.
Proof.
  unfold PyStr.of_nat, NilZero.string_of_uint.
  destruct (Nat.to_uint n); try reflexivity; apply uint_no_semicolon.
Qed.

(** X7: Whatever the text, every entry has an index in 0..255; its value is
    [None], for the specification [?], or the integer of a color that
    [to_color] gave; and a text with an odd number of parts gives no entry
    at all. *)
Theorem parse_color_set_entries raw :
  Forall (fun '(c, v) =>
            0 <= c <= 255
            /\ (v = None
                \/ exists spec col, to_color spec = Some col
                                    /\ v = Some (color_as_int col)))
         (parse_color_set to_color raw)
  /\ (length (parse_color_set to_color raw) <= length (Py.split ";" raw) / 2)%nat
  /\ (Nat.odd (length (Py.split ";" raw)) = true -> parse_color_set to_color raw = []).
Proof.
  unfold parse_color_set. generalize (Py.split ";" raw) as parts. intros parts.
  assert (Hentry : forall c spec,
            Forall (fun '(c, v) =>
                      0 <= c <= 255
                      /\ (v = None
                          \/ exists spec col, to_color spec = Some col
                                              /\ v = Some (color_as_int col)))
                   (color_entry to_color c spec)
            /\ (length (color_entry to_color c spec) <= 1)%nat).
  { intros c spec. unfold color_entry.
    destruct (PyStr.int c) as [n|]; [|split; [constructor|cbn; lia]].
    destruct (Z.ltb_spec n 0); cbn [orb]; [split; [constructor|cbn; lia]|].
    destruct (Z.ltb_spec 255 n); [split; [constructor|cbn; lia]|].
    destruct (String.eqb spec "?").
    - split; [|cbn; lia]. constructor; [|constructor]. split; [lia|now left].
    - destruct (to_color spec) as [[[r g] b]|] eqn:Hcol; [|split; [constructor|cbn; lia]].
      split; [|cbn; lia]. constructor; [|constructor]. split; [lia|].
      right. exists spec, (r, g, b). now split. }
  assert (Hpairs : forall l : list string,
            Forall (fun '(c, v) =>
                      0 <= c <= 255
                      /\ (v = None
                          \/ exists spec col, to_color spec = Some col
                                              /\ v = Some (color_as_int col)))
                   (flat_map (fun '(c, spec) => color_entry to_color c spec) (pairs_of l))
            /\ (length (flat_map (fun '(c, spec) => color_entry to_color c spec)
                          (pairs_of l)) <= length l / 2)%nat).
  { fix IH 1. intros [|c [|spec l]]; [split; [constructor|cbn; lia]..|].
    cbn [pairs_of flat_map]. destruct (Hentry c spec) as [He Hl].
    destruct (IH l) as [Hr Hn]. split.
    - apply Forall_app. now split.
    - rewrite length_app. cbn [length].
      change (S (S (length l))) with (2 + length l)%nat.
      replace ((2 + length l) / 2)%nat with (1 + length l / 2)%nat; [lia|].
      symmetry. change 2%nat with (1 * 2)%nat at 1.
      rewrite Nat.div_add_l by lia. reflexivity. }
  destruct (Hpairs parts) as [Hf Hn].
  destruct (Nat.eqb_spec (length parts mod 2) 0) as [He|Ho]; cbn [negb].
  - split; [exact Hf|]. split; [exact Hn|].
    intros Hodd. rewrite <- Nat.negb_even in Hodd.
    apply negb_true_iff in Hodd.
    assert (Nat.even (length parts) = true); [|congruence].
    apply Nat.even_spec. exists (length parts / 2)%nat.
    pose proof (Nat.div_mod_eq (length parts) 2). lia.
  - split; [constructor|]. split; [cbn; lia|reflexivity].
Qed.

(** X8: The entries written out as text are read back: an entry for the
    specification [?] with no color, an entry that names a color with the
    integer of that color, and an entry that names none is left out. *)
Theorem parse_color_set_reads_back entries :
  Forall (fun '(c, spec) => (c <= 255)%nat /\ PyStr.contains ";" spec = false) entries ->
  parse_color_set to_color (render_color_set entries)
  = flat_map (fun '(c, spec) =>
                if String.eqb spec "?" then [(Z.of_nat c, None)]
                else match to_color spec with
                     | Some col => [(Z.of_nat c, Some (color_as_int col))]
                     | None => []
                     end) entries.
Proof.
  intros Hes. unfold parse_color_set, render_color_set.
  assert (Hread :
    flat_map (fun '(c, spec) => color_entry to_color c spec)
      (pairs_of (flat_map (fun '(c, spec) => [PyStr.of_nat c; spec]) entries))
    = flat_map (fun '(c, spec) =>
                  if String.eqb spec "?" then [(Z.of_nat c, None)]
                  else match to_color spec with
                       | Some col => [(Z.of_nat c, Some (color_as_int col))]
                       | None => []
                       end) entries).
  { induction Hes as [|[c spec] l [Hc Hs] _ IH]; [reflexivity|].
    cbn [flat_map app pairs_of]. rewrite IH. f_equal.
    unfold color_entry. rewrite int_of_nat.
    destruct (Z.ltb_spec (Z.of_nat c) 0); [lia|].
    destruct (Z.ltb_spec 255 (Z.of_nat c)); [lia|]. cbn [orb].
    destruct (String.eqb spec "?"); [reflexivity|].
    destruct (to_color spec) as [[[r g] b]|]; reflexivity. }
  assert (Hlen :
    (length (flat_map (fun '(c, spec) => [PyStr.of_nat c; spec]) entries) mod 2 = 0)%nat).
  { clear. induction entries as [|[c spec] l IH]; [reflexivity|].
    cbn [flat_map app length].
    change (S (S ?n)) with (1 * 2 + n)%nat.
    now rewrite Nat.add_comm, Nat.Div0.mod_add. }
  destruct entries as [|e es]; [reflexivity|].
  set (parts := flat_map (fun '(c, spec) => [PyStr.of_nat c; spec]) (e :: es)) in *.
  assert (Hsplit : Py.split ";" (Py.join ";" parts) = parts).
  { apply split_join.
    - subst parts. destruct e. discriminate.
    - subst parts. clear Hread Hlen.
      induction Hes as [|[c spec] l [Hc Hs] _ IH]; [constructor|].
      cbn [flat_map app]. constructor; [apply of_nat_no_semicolon|].
      constructor; [exact Hs | exact IH]. }
  rewrite Hsplit, Hlen. cbn [Nat.eqb negb]. exact Hread.
Qed.

End Color_set_facts.

Lemma parse_color_set_reads_back_witness :
  parse_color_set (fun _ => Some (255, 128, 0)%Z)
    (render_color_set [(1, "?"); (17, "orange")])
  = [(1%Z, None); (17%Z, Some (color_as_int (255, 128, 0)%Z))].
Proof.
  apply (parse_color_set_reads_back (fun _ => Some (255, 128, 0)%Z)
           [(1, "?"); (17, "orange")]).
  repeat constructor.
Defined.

(** * write_all and TTYIO.send *)

Section Writing.

Context {W : Type} (os_write : writer W).

Lemma last_answer_cons e t r :
  last_answer t = Some r -> last_answer (e :: t) = Some r.
Proof. destruct t as [|e' t]; [discriminate|]. intros H. exact H. Qed.

Lemma last_answer_app t1 t2 r :
  last_answer t2 = Some r -> last_answer (t1 ++ t2) = Some r.
Proof.
  intros H. induction t1 as [|e t1 IH]; [exact H|]. now apply last_answer_cons.
Qed.

Lemma taken_app t1 t2 : taken (t1 ++ t2) = taken t1 ++ taken t2.
Proof. unfold taken. apply flat_map_app. Qed.

(** What one run of the loop does, when the rounds cover the data. *)
Lemma write_all_loop_spec rounds f data w :
  length data <= rounds ->
  exists o w1 t rest,
    write_all_loop os_write rounds f data w = Some (o, w1, t)
    /\ data = taken t ++ rest
    /\ Forall (fun ev => fst ev <> []) t
    /\ (o = Returned tt -> rest = [] \/ last_answer t = Some (Ok 0))
    /\ (forall e, o = Raised e ->
                  exists en, e = OSError en /\ last_answer t = Some (Err en)).
Proof.
  revert data w. induction rounds as [|rounds IH]; intros data w Hlen.
  - destruct data; [|cbn in Hlen; lia].
    exists (Returned tt), w, [], []. split; [reflexivity|]. split; [reflexivity|].
    split; [constructor|]. split; [now left | discriminate].
  - destruct data as [|b data].
    { exists (Returned tt), w, [], []. split; [reflexivity|]. split; [reflexivity|].
      split; [constructor|]. split; [now left | discriminate]. }
    cbn [write_all_loop]. set (d := b :: data) in *.
    destruct (os_write f d w) as [[n|e] w1].
    + destruct (Nat.eqb_spec n 0) as [->|Hn].
      * exists (Returned tt), w1, [(d, Ok 0)], d.
        split; [reflexivity|]. split; [reflexivity|].
        split; [constructor; [discriminate|constructor]|].
        split; [now right | discriminate].
      * destruct (IH (drop n d) w1) as (o & w2 & t & rest & Hrun & Hd & Hne & Hret & Hraise).
        { rewrite length_drop. subst d. cbn [length] in *. lia. }
        rewrite Hrun. exists o, w2, ((d, Ok n) :: t), rest.
        split; [reflexivity|]. split; [|split; [|split]].
        -- cbn [taken flat_map]. fold (taken t). rewrite <- app_assoc, <- Hd.
           symmetry. apply take_drop.
        -- constructor; [discriminate|exact Hne].
        -- intros Ho. destruct (Hret Ho) as [-> | Hl]; [now left|].
           right. now apply last_answer_cons.
        -- intros e He. destruct (Hraise e He) as (en & -> & Hl).
           exists en. split; [reflexivity|]. now apply last_answer_cons.
    + exists (Raised (OSError e)), w1, [(d, Err e)], d.
      split; [reflexivity|]. split; [reflexivity|].
      split; [constructor; [discriminate|constructor]|].
      split; [discriminate|]. intros e0 [= <-]. now exists e.
Qed.

(** X9: [write_all] always comes to an end.  The bytes taken by the system
    are the data from its start, each once and in order; a call is never
    offered nothing; when it returns without having written everything,
    the last [os.write] answered 0, and no error tells; when it raises,
    it raises the [OSError] of the last [os.write]. *)
Theorem write_all_writes_a_prefix f data w :
  exists o w1 t rest,
    write_all os_write f data w = Some (o, w1, t)
    /\ to_bytes data = taken t ++ rest
    /\ Forall (fun ev => fst ev <> []) t
    /\ (o = Returned tt -> rest = [] \/ last_answer t = Some (Ok 0))
    /\ (forall e, o = Raised e ->
                  exists en, e = OSError en /\ last_answer t = Some (Err en)).
Proof. unfold write_all. apply write_all_loop_spec. lia. Qed.

Section Good_device.

(** A device that takes at least one byte of whatever it is offered. *)
Hypothesis Htakes :
  forall f data w, data <> [] ->
                   exists n w1, os_write f data w = (Ok n, w1) /\ 1 <= n.

Lemma write_all_complete f data w :
  exists w1 t,
    write_all os_write f data w = Some (Returned tt, w1, t)
    /\ taken t = to_bytes data.
Proof.
  destruct (write_all_loop_spec (length (to_bytes data)) f (to_bytes data) w (le_n _))
    as (o & w1 & t & rest & Hrun & Hd & Hne & Hret & Hraise).
  fold (write_all os_write f data w) in Hrun.
  assert (Hok : Forall (fun ev => exists n, snd ev = Ok n /\ 1 <= n) t).
  { revert Hrun. unfold write_all. generalize (length (to_bytes data)) as rounds.
    generalize (to_bytes data) as d. clear - Htakes. intros d rounds.
    revert d w o w1 t.
    induction rounds as [|rounds IH]; intros [|b d] w o w1 t; cbn [write_all_loop];
      try (intros [= <- <- <-]; constructor); try discriminate.
    destruct (Htakes f (b :: d) w ltac:(discriminate)) as (n & w2 & -> & Hn).
    destruct (Nat.eqb_spec n 0); [lia|].
    destruct (write_all_loop os_write rounds f (drop n (b :: d)) w2)
      as [[[o' w'] t']|] eqn:Hrec; [|discriminate].
    intros [= <- <- <-]. constructor; [now exists n|].
    apply (IH _ _ _ _ _ Hrec). }
  assert (Hlast : forall r, last_answer t = Some r -> exists n, r = Ok n /\ 1 <= n).
  { intros r. unfold last_answer. destruct (last t) as [ev|] eqn:Hl; [|discriminate].
    intros [= <-]. apply last_Some_elem_of in Hl.
    rewrite Forall_forall in Hok. exact (Hok ev Hl). }
  assert (o = Returned tt) as ->.
  { destruct o as [[]|e]; [reflexivity|].
    destruct (Hraise e eq_refl) as (en & _ & Hl).
    destruct (Hlast _ Hl) as (n & Hn & _). discriminate. }
  exists w1, t. split; [exact Hrun|].
  destruct (Hret eq_refl) as [-> | Hl].
  - now rewrite app_nil_r in Hd.
  - destruct (Hlast _ Hl) as (n & [= <-] & Hn). lia.
Qed.

(** X10: On a device that always takes at least one byte, [TTYIO.send]
    writes the data, or the chunks one after the other, completely. *)
Theorem TTYIO_send_complete tty_fd data w :
  exists w1 t,
    TTYIO_send os_write tty_fd data w = Some (Returned tt, w1, t)
    /\ taken t = match data with
                 | Whole d => to_bytes d
                 | Chunks l => concat (map to_bytes l)
                 end.
Proof.
  destruct data as [d|l]; [apply write_all_complete|].
  cbn [TTYIO_send]. revert w. induction l as [|c l IH]; intros w.
  - exists w, []. now split.
  - cbn [send_chunks].
    destruct (write_all_complete tty_fd c w) as (w1 & t & -> & Ht).
    destruct (IH w1) as (w2 & t2 & -> & Ht2).
    exists w2, (t ++ t2). split; [reflexivity|].
    rewrite taken_app, Ht, Ht2. reflexivity.
Qed.

End Good_device.

End Writing.

Lemma TTYIO_send_complete_witness :
  exists w1 t,
    TTYIO_send (fun _ data w => (Ok (Nat.min 2 (length data)), S w)) 3
      (Chunks [Str "kitty"; Bytes [Byte.x00]]) 0
    = Some (Returned tt, w1, t)
    /\ taken t = concat (map to_bytes [Str "kitty"; Bytes [Byte.x00]]).
Proof.
  apply (TTYIO_send_complete
           (fun _ data w => (Ok (Nat.min 2 (length data)), S w))).
  intros f [|b data] w Hd; [contradiction|].
  eexists _, _. split; [reflexivity|]. cbn [length]. lia.
Defined.

(** * ScreenSizeGetter *)

Section Screen_size.

Local Open Scope Z_scope.

Context {W : Type}.

Lemma floordiv_or_1 a x : floordiv a (or_1 x) = Some (a / or_1 x).
Proof. unfold floordiv, or_1. destruct (Z.eqb_spec x 0) as [->|H]; [reflexivity|].
       destruct (Z.eqb_spec x 0); [contradiction|reflexivity]. Qed.

(** X11: The getter never divides by zero.  When the [ioctl] fails the
    getter stays as it was, so the next call asks again; when it succeeds
    the size is kept, and every later call answers with it without asking
    the system, whatever the system would say by then. *)
Theorem ScreenSizeGetter_caches (ioctl ioctl' : window_size_ioctl W) self w :
  let '(o, self1, w1, n) := ScreenSizeGetter_call ioctl self w in
  o <> Zero_division
  /\ (forall e, o = Ioctl_failed e -> self1 = self)
  /\ (forall s, o = Size s ->
                forall w2, ScreenSizeGetter_call ioctl' self1 w2 = (Size s, self1, w2, 0%nat))
  /\ (changed self = true -> n = 1%nat)
  /\ (changed self = true -> forall s, o = Size s -> s <> None).
Proof.
  unfold ScreenSizeGetter_call. destruct (changed self) eqn:Hc.
  - destruct (ioctl (self_fd self) w) as [[[[[r c] wd] ht]|e] w1].
    + rewrite !floordiv_or_1. split; [discriminate|]. split; [discriminate|].
      split; [|split; [reflexivity|]].
      * intros s [= <-] w2. reflexivity.
      * intros _ s [= <-]. discriminate.
    + split; [discriminate|]. split; [reflexivity|].
      split; [discriminate|]. split; [reflexivity|]. discriminate.
  - split; [discriminate|]. split; [discriminate|].
    split; [|split; discriminate].
    intros s [= <-] w2. now rewrite Hc.
Qed.

(** X12: The cells of a size read from the system: with at least one column
    the cell width is the width divided by the columns, rounded down; with
    no column it is the whole width; and so for rows and height. *)
Theorem ScreenSizeGetter_cells (ioctl : window_size_ioctl W) self w s self1 w1 n :
  changed self = true ->
  ScreenSizeGetter_call ioctl self w = (Size (Some s), self1, w1, n) ->
  0 <= cols s -> 0 <= rows s ->
  fst (ioctl (self_fd self) w) = Ok (rows s, cols s, width s, height s)
  /\ (0 < cols s -> cell_width s * cols s <= width s < (cell_width s + 1) * cols s)
  /\ (cols s = 0 -> cell_width s = width s)
  /\ (0 < rows s -> cell_height s * rows s <= height s < (cell_height s + 1) * rows s)
  /\ (rows s = 0 -> cell_height s = height s).
Proof.
  intros Hc. unfold ScreenSizeGetter_call. rewrite Hc.
  destruct (ioctl (self_fd self) w) as [[[[[r c] wd] ht]|e] w2]; [|discriminate].
  rewrite !floordiv_or_1. intros [= <- <- <- <-]. cbn [cols rows width height
    cell_width cell_height fst]. intros Hcols Hrows.
  assert (Hdiv : forall a x, 0 <= x ->
            (0 < x -> a / or_1 x * x <= a < (a / or_1 x + 1) * x)
            /\ (x = 0 -> a / or_1 x = a)).
  { intros a x Hx. unfold or_1. destruct (Z.eqb_spec x 0) as [->|Hne].
    - split; [lia|]. intros _. apply Z.div_1_r.
    - split; [|lia]. intros Hpos.
      pose proof (Z.div_mod a x ltac:(lia)). pose proof (Z.mod_pos_bound a x Hpos). nia. }
  destruct (Hdiv wd c Hcols) as [H1 H2]. destruct (Hdiv ht r Hrows) as [H3 H4].
  repeat split; auto; try apply H1; try apply H3; assumption.
Qed.

End Screen_size.

Lemma ScreenSizeGetter_cells_witness :
  (cell_width (Build_ScreenSize 24 80 1283 720 16 30) * 80 <= 1283
   < (cell_width (Build_ScreenSize 24 80 1283 720 16 30) + 1) * 80)%Z.
Proof.
  destruct (ScreenSizeGetter_cells
              (fun (_ : fd) (w : unit) => (Ok (24, 80, 1283, 720)%Z, w))
              (ScreenSizeGetter_init 1) tt (Build_ScreenSize 24 80 1283 720 16 30)
              (Build_ScreenSizeGetter false (Some (Build_ScreenSize 24 80 1283 720 16 30)) 1)
              tt 1) as (_ & H & _);
    [reflexivity | reflexivity | cbn; lia | cbn; lia |].
  apply H. cbn. lia.
Defined.

(** * exe_exists *)

Section Searching_PATH.

(** The system answers [os.access] by what is executable, and nothing
    changes. *)
Variable executable : string -> bool.
Context {W : Type} (h : handler W).
Hypothesis Haccess : forall p mode w, h _ (Access p mode) w = (executable p, w).

Local Abbreviation found := (found_in executable).

Lemma exe_exists_in_first locs exe w :
  let x := exec h (exe_exists_in locs exe) w in
  result_of x
  = Returned (option_map (fun loc => path_join loc exe) (List.find (found exe) locs))
  /\ world_of x = w
  /\ Forall (fun p => exists loc, In loc locs /\ loc <> "" /\ p = path_join loc exe)
            (probed (trace_of x))
  /\ match List.find (found exe) locs with
     | Some loc => last (probed (trace_of x)) = Some (path_join loc exe)
     | None => True
     end.
Proof.
  induction locs as [|loc locs IH]; cbn [exe_exists_in List.find].
  - cbn. repeat split; constructor.
  - unfold found_in at 1 3. destruct loc as [|c loc']; cbn [PyStr.truthy andb].
    + destruct IH as (H1 & H2 & H3 & H4). repeat split; try assumption.
      eapply Forall_impl; [exact H3|]. intros p (l & Hl & Hr). exists l. split; [now right|exact Hr].
    + set (loc := String c loc') in *.
      cbn [bind py_call exec]. rewrite Haccess.
      destruct (executable (path_join loc exe)) eqn:Hx.
      * cbn. repeat split; try reflexivity.
        constructor; [|constructor]. exists loc. split; [now left|]. split; [discriminate|reflexivity].
      * destruct IH as (H1 & H2 & H3 & H4). cbv zeta in *.
        destruct (exec h (exe_exists_in locs exe) w) as [[o w1] t].
        cbn [result_of world_of trace_of fst snd probed flat_map app] in *.
        change (flat_map _ t) with (probed t) in *. split; [exact H1|]. split; [exact H2|]. split.
        -- constructor.
           ++ exists loc. split; [now left|]. split; [discriminate|reflexivity].
           ++ eapply Forall_impl; [exact H3|]. intros p (l & Hl & Hr).
              exists l. split; [now right|exact Hr].
        -- destruct (List.find (found exe) locs) as [l|]; [|exact I].
           destruct (probed t) as [|p t']; [cbn in H4; discriminate H4|]. exact H4.
Qed.


End Searching_PATH.


(** * natsort_ints *)

(** ** The order of the keys *)

Section Key_order.

Lemma nat_of_ascii_inj c d : nat_of_ascii c = nat_of_ascii d -> c = d.
Proof. intros H. rewrite <- (ascii_nat_embedding c), <- (ascii_nat_embedding d). now rewrite H. Qed.

Lemma str_lt_irrefl s : str_lt s s = false.
Proof. induction s as [|c s IH]; cbn; [reflexivity|]. now rewrite Ascii.eqb_refl. Qed.

Lemma str_lt_trans a b c :
  str_lt a b = true -> str_lt b c = true -> str_lt a c = true.
Proof.
  revert b c. induction a as [|x a IH]; intros [|y b] [|z c]; cbn; try discriminate;
    try reflexivity.
  destruct (Ascii.eqb_spec x y) as [->|Hxy].
  - destruct (Ascii.eqb_spec y z) as [->|Hyz]; [apply IH | now intros _ H].
  - destruct (Ascii.eqb_spec y z) as [->|Hyz].
    + destruct (Ascii.eqb_spec x z); [contradiction|]. now intros H _.
    + intros H1 H2. apply Nat.ltb_lt in H1, H2.
      destruct (Ascii.eqb_spec x z) as [->|_]; [lia|]. apply Nat.ltb_lt. lia.
Qed.

Lemma str_lt_total a b : str_lt a b = false -> str_lt b a = false -> a = b.
Proof.
  revert b. induction a as [|x a IH]; intros [|y b]; cbn; try discriminate;
    try reflexivity.
  rewrite (Ascii.eqb_sym y x).
  destruct (Ascii.eqb_spec x y) as [->|Hxy].
  - intros H1 H2. f_equal. now apply IH.
  - intros H1 H2. apply Nat.ltb_ge in H1, H2. exfalso. apply Hxy, nat_of_ascii_inj. lia.
Qed.

Lemma atom_eqb_eq x y : atom_eqb x y = true <-> x = y.
Proof.
  destruct x as [s|n], y as [t|m]; cbn; try (split; discriminate).
  - rewrite String.eqb_eq. split; congruence.
  - rewrite Z.eqb_eq. split; congruence.
Qed.

Lemma atom_eqb_refl x : atom_eqb x x = true.
Proof. now apply atom_eqb_eq. Qed.

Lemma atom_eqb_neq x y : atom_eqb x y = false <-> x <> y.
Proof.
  rewrite <- atom_eqb_eq. destruct (atom_eqb x y); split; congruence.
Qed.

(** Keys of one shape are compared without a [TypeError]. *)
Lemma tuple_lt_defined t a b :
  key_shape t a = true -> key_shape t b = true -> exists r, tuple_lt a b = Some r.
Proof.
  revert t b. induction a as [|x a IH]; intros t [|y b] Ha Hb; cbn; eauto.
  destruct (atom_eqb x y) eqn:He.
  - apply atom_eqb_eq in He as <-.
    destruct x; cbn in Ha, Hb; destruct t; try discriminate; cbn in Ha, Hb; eauto.
  - destruct x, y; cbn in Ha, Hb |- *; destruct t; try discriminate; eauto.
Qed.

Lemma tuple_lt_irrefl a : tuple_lt a a = Some false.
Proof. induction a as [|x a IH]; cbn; [reflexivity|]. now rewrite atom_eqb_refl. Qed.

Lemma atom_lt_trans x y z :
  atom_lt x y = Some true -> atom_lt y z = Some true -> atom_lt x z = Some true.
Proof.
  destruct x, y, z; cbn; try discriminate.
  - intros [= H1] [= H2]. f_equal. eapply str_lt_trans; eassumption.
  - intros [= H1] [= H2]. f_equal. apply Z.ltb_lt in H1, H2. apply Z.ltb_lt. lia.
Qed.

Lemma atom_lt_irrefl x b : atom_lt x x = Some b -> b = false.
Proof.
  destruct x; cbn; intros [= <-]; [apply str_lt_irrefl|apply Z.ltb_irrefl].
Qed.

Lemma atom_lt_total x y :
  atom_lt x y = Some false -> atom_lt y x = Some false -> x = y.
Proof.
  destruct x, y; cbn; try discriminate.
  - intros [= H1] [= H2]. f_equal. now apply str_lt_total.
  - intros [= H1] [= H2]. f_equal. apply Z.ltb_ge in H1, H2. lia.
Qed.

Lemma tuple_lt_trans a b c :
  tuple_lt a b = Some true -> tuple_lt b c = Some true -> tuple_lt a c = Some true.
Proof.
  revert b c. induction a as [|x a IH]; intros [|y b] [|z c]; cbn; try discriminate;
    try reflexivity.
  destruct (atom_eqb x y) eqn:Hxy, (atom_eqb y z) eqn:Hyz.
  - apply atom_eqb_eq in Hxy as ->. rewrite Hyz. apply IH.
  - apply atom_eqb_eq in Hxy as ->. rewrite Hyz. now intros _ H.
  - apply atom_eqb_eq in Hyz as <-. rewrite Hxy. now intros H _.
  - intros H1 H2. pose proof (atom_lt_trans _ _ _ H1 H2) as H3.
    destruct (atom_eqb x z) eqn:Hxz; [|exact H3].
    apply atom_eqb_eq in Hxz as ->. apply atom_lt_irrefl in H3. discriminate.
Qed.

Lemma tuple_lt_total a b :
  tuple_lt a b = Some false -> tuple_lt b a = Some false -> a = b.
Proof.
  revert b. induction a as [|x a IH]; intros [|y b]; cbn; try discriminate;
    try reflexivity.
  destruct (atom_eqb x y) eqn:Hxy.
  - apply atom_eqb_eq in Hxy as ->. rewrite atom_eqb_refl.
    intros H1 H2. f_equal. now apply IH.
  - assert (Hyx : atom_eqb y x = false).
    { apply atom_eqb_neq. apply atom_eqb_neq in Hxy. congruence. }
    rewrite Hyx. intros H1 H2. apply atom_eqb_neq in Hxy.
    exfalso. apply Hxy. now apply atom_lt_total.
Qed.

Lemma tuple_lt_asym a b : tuple_lt a b = Some true -> tuple_lt b a = Some false.
Proof.
  revert b. induction a as [|x a IH]; intros [|y b]; cbn; try discriminate;
    try reflexivity.
  destruct (atom_eqb x y) eqn:Hxy.
  - apply atom_eqb_eq in Hxy as ->. rewrite atom_eqb_refl. apply IH.
  - assert (Hyx : atom_eqb y x = false).
    { apply atom_eqb_neq. apply atom_eqb_neq in Hxy. congruence. }
    rewrite Hyx. destruct x, y; cbn; try discriminate.
    + intros [= H]. f_equal. destruct (str_lt s0 s) eqn:H'; [|reflexivity].
      pose proof (str_lt_trans _ _ _ H H') as Hc. now rewrite str_lt_irrefl in Hc.
    + intros [= H]. f_equal. apply Z.ltb_lt in H. apply Z.ltb_ge. lia.
Qed.

(** On keys of one shape [<=] is transitive. *)
Lemma key_le_trans t a b c :
  key_shape t a = true -> key_shape t b = true -> key_shape t c = true ->
  key_le a b -> key_le b c -> key_le a c.
Proof.
  unfold key_le. intros Ha Hb Hc Hab Hbc.
  destruct (tuple_lt_defined t c a Hc Ha) as [[|] Hca]; [exfalso|exact Hca].
  destruct (tuple_lt_defined t a b Ha Hb) as [[|] Hab'].
  - pose proof (tuple_lt_trans _ _ _ Hca Hab') as Hcb. congruence.
  - pose proof (tuple_lt_total _ _ Hab' Hab) as ->. congruence.
Qed.

Lemma key_lt_le_trans t a b c :
  key_shape t a = true -> key_shape t b = true -> key_shape t c = true ->
  tuple_lt a b = Some true -> key_le b c -> tuple_lt a c = Some true.
Proof.
  unfold key_le. intros Ha Hb Hc Hab Hbc.
  destruct (tuple_lt_defined t b c Hb Hc) as [[|] Hbc'].
  - eapply tuple_lt_trans; eassumption.
  - pose proof (tuple_lt_total _ _ Hbc' Hbc) as ->. exact Hab.
Qed.

End Key_order.

(** ** The keys *)

Section Keys.

Import PyStr.

Lemma re_split_shape key :
  parts_shape true (re_split_digits key) = true /\ re_split_digits key <> [].
Proof.
  induction key as [|c key [IH Hne]]; [now split|].
  cbn [re_split_digits]. destruct (re_split_digits key) as [|part parts]; [contradiction|].
  cbn [parts_shape negb] in IH. apply andb_true_iff in IH as [Hp Hps].
  destruct (is_decimal c) eqn:Hc.
  - destruct part as [|d part].
    + destruct parts as [|run parts'].
      * split; [|discriminate]. cbn. now rewrite Hc.
      * split; [|discriminate]. cbn [parts_shape negb] in Hps |- *.
        apply andb_true_iff in Hps as [Hrun Hrest].
        apply andb_true_iff in Hrun as [_ Hrun].
        cbn. now rewrite Hc, Hrun, Hrest.
    + split; [|discriminate]. cbn [parts_shape negb truthy all_decimal].
      rewrite Hc, Hp, Hps. reflexivity.
  - split; [|discriminate]. cbn [parts_shape negb no_decimal].
    rewrite Hc. cbn [negb andb]. cbn [no_decimal] in Hp. now rewrite Hp, Hps.
Qed.

Lemma decimal_not_space c : is_decimal c = true -> int_space c = false.
Proof.
  unfold is_decimal, digit_value, int_space.
  destruct (Nat.leb_spec 48 (nat_of_ascii c)), (Nat.leb_spec (nat_of_ascii c) 57);
    cbn; try discriminate. intros _.
  repeat match goal with
         | |- context [Nat.leb ?a ?b] => destruct (Nat.leb_spec a b); try lia
         | |- context [Nat.eqb ?a ?b] => destruct (Nat.eqb_spec a b); try lia
         end; reflexivity.
Qed.

Lemma all_decimal_no_space s : all_decimal s = true -> no_space s = true.
Proof.
  induction s as [|c s IH]; cbn; [reflexivity|].
  intros H. apply andb_true_iff in H as [Hc Hs].
  now rewrite (decimal_not_space c Hc), IH.
Qed.

Lemma digits_all_decimal s acc prev :
  all_decimal s = true -> truthy s = true \/ prev = true ->
  exists n, digits s acc prev = Some n.
Proof.
  revert acc prev. induction s as [|c s IH]; intros acc prev Hs Hp.
  - destruct Hp as [Hp | ->]; [discriminate|]. cbn. eauto.
  - cbn in Hs. apply andb_true_iff in Hs as [Hc Hs]. cbn [digits].
    unfold is_decimal in Hc. destruct (digit_value c) as [d|]; [|discriminate].
    apply IH; [exact Hs | now right].
Qed.

Lemma decimal_not_sign c : is_decimal c = true -> c <> "+"%char /\ c <> "-"%char.
Proof. split; intros ->; discriminate. Qed.

(** [int] reads every run of digits. *)
Lemma int_all_decimal s :
  truthy s = true -> all_decimal s = true -> exists n, PyStr.int s = Some n.
Proof.
  intros Ht Hs. unfold PyStr.int.
  rewrite lstrip_no_space, rstrip_no_space by now apply all_decimal_no_space.
  destruct s as [|c s]; [discriminate|].
  pose proof Hs as Hs'. cbn in Hs'. apply andb_true_iff in Hs' as [Hc _].
  destruct (decimal_not_sign c Hc) as [Hplus Hminus].
  assert (Hd : exists n, digits (String c s) 0 false = Some n)
    by (apply digits_all_decimal; [exact Hs | now left]).
  destruct c as [[] [] [] [] [] [] [] []]; try exact Hd; try discriminate Hc.
Qed.

Lemma decimal_isdigit s : all_decimal s = true -> all_isdigit s = true.
Proof.
  induction s as [|c s IH]; cbn; [reflexivity|].
  intros H. apply andb_true_iff in H as [Hc Hs]. unfold char_isdigit.
  now rewrite Hc, IH.
Qed.

Lemma convert_run p :
  truthy p = true -> all_decimal p = true -> exists n, convert p = Returned (Number n).
Proof.
  intros Ht Hd. unfold convert, isdigit, py_int.
  rewrite Ht, (decimal_isdigit p Hd). cbn [andb].
  destruct (int_all_decimal p Ht Hd) as [n ->]. now exists n.
Qed.

(** A superscript is no white space, no sign and no underscore, and it
    has no value as a digit. *)
Lemma superscript_char c :
  char_isdigit c = true -> is_decimal c = false ->
  int_space c = false /\ digit_value c = None
  /\ c <> "+"%char /\ c <> "-"%char /\ c <> "_"%char.
Proof.
  unfold char_isdigit. intros H Hd. rewrite Hd in H. cbn [orb] in H.
  assert (Hc : c = ascii_of_nat 178 \/ c = ascii_of_nat 179 \/ c = ascii_of_nat 185).
  { rewrite <- (ascii_nat_embedding c).
    destruct (Nat.eqb_spec (nat_of_ascii c) 178) as [->|]; [now left|].
    destruct (Nat.eqb_spec (nat_of_ascii c) 179) as [->|]; [right; now left|].
    destruct (Nat.eqb_spec (nat_of_ascii c) 185) as [->|]; [right; now right|].
    discriminate. }
  destruct Hc as [-> | [-> | ->]]; repeat split; discriminate.
Qed.

Lemma superscripts_no_space s :
  all_isdigit s = true -> no_decimal s = true -> no_space s = true.
Proof.
  induction s as [|c s IH]; cbn; [reflexivity|].
  intros H1 H2. apply andb_true_iff in H1 as [Hc Hs], H2 as [Hd Hn].
  apply negb_true_iff in Hd.
  destruct (superscript_char c Hc Hd) as (-> & _). cbn. now apply IH.
Qed.

(** A text part becomes a text, or [int] fails on it. *)
Lemma convert_text p :
  no_decimal p = true ->
  (convert p = Returned (Text p)
   \/ (convert p = Raised (ValueError (Invalid_literal p)) /\ has_superscript p = true)).
Proof.
  intros Hn. unfold convert. destruct (isdigit p) eqn:Hi; [right|now left].
  unfold isdigit in Hi. apply andb_true_iff in Hi as [Ht Ha].
  destruct p as [|c p]; [discriminate|].
  pose proof Ha as Ha'. pose proof Hn as Hn'. cbn in Ha', Hn'.
  apply andb_true_iff in Ha' as [Hc _], Hn' as [Hd _]. apply negb_true_iff in Hd.
  destruct (superscript_char c Hc Hd) as (Hsp & Hdv & Hplus & Hminus & Hus).
  split.
  - unfold py_int, PyStr.int.
    rewrite lstrip_no_space, rstrip_no_space by now apply superscripts_no_space.
    assert (Hdig : digits (String c p) 0 false = None).
    { cbn [digits]. rewrite Hdv.
      destruct (Ascii.eqb_spec c "_"); [contradiction|reflexivity]. }
    assert (Hint : match String c p with
                   | String "+" r => digits r 0%Z false
                   | String "-" r => option_map Z.opp (digits r 0%Z false)
                   | r => digits r 0%Z false
                   end = None).
    { destruct c as [[] [] [] [] [] [] [] []]; try exact Hdig; contradiction. }
    rewrite Hint. reflexivity.
  - cbn [has_superscript]. unfold is_superscript. now rewrite Hc, Hd.
Qed.

Lemma map_convert_shape t parts :
  parts_shape t parts = true ->
  (forall k, map_outcome convert parts = Returned k -> key_shape t k = true)
  /\ (forall e, map_outcome convert parts = Raised e ->
                exists p, In p parts /\ has_superscript p = true
                          /\ e = ValueError (Invalid_literal p))
  /\ (Forall (fun p => has_superscript p = false) parts ->
      exists k, map_outcome convert parts = Returned k).
Proof.
  revert t. induction parts as [|p parts IH]; intros t Hs.
  - cbn. split; [intros k [= <-]; reflexivity|]. split; [discriminate|eauto].
  - cbn [parts_shape] in Hs. apply andb_true_iff in Hs as [Hp Hps].
    destruct (IH _ Hps) as (IH1 & IH2 & IH3). cbn [map_outcome].
    destruct t.
    + destruct (convert_text p Hp) as [-> | [-> Hsup]]; cbn [outcome_bind].
      * destruct (map_outcome convert parts) as [k'|e'] eqn:Hm; cbn [outcome_bind].
        -- split; [|split; [discriminate|eauto]].
           intros k [= <-]. cbn. now apply IH1.
        -- split; [discriminate|]. split.
           ++ intros e [= <-]. destruct (IH2 e' eq_refl) as (q & Hq & Hr).
              exists q. split; [now right | exact Hr].
           ++ intros Hf. inversion Hf; subst.
              destruct (IH3 ltac:(assumption)) as [k Hk]. discriminate.
      * split; [discriminate|]. split.
        -- intros e [= <-]. exists p. split; [now left|]. now split.
        -- intros Hf. inversion Hf; subst. congruence.
    + apply andb_true_iff in Hp as [Ht Hd].
      destruct (convert_run p Ht Hd) as [n ->]. cbn [outcome_bind].
      destruct (map_outcome convert parts) as [k'|e'] eqn:Hm; cbn [outcome_bind].
      * split; [|split; [discriminate|eauto]].
        intros k [= <-]. cbn. now apply IH1.
      * split; [discriminate|]. split.
        -- intros e [= <-]. destruct (IH2 e' eq_refl) as (q & Hq & Hr).
           exists q. split; [now right | exact Hr].
        -- intros Hf. inversion Hf; subst.
           destruct (IH3 ltac:(assumption)) as [k Hk]. discriminate.
Qed.

Lemma re_split_superscripts key :
  has_superscript key = false ->
  Forall (fun p => has_superscript p = false) (re_split_digits key).
Proof.
  induction key as [|c key IH]; intros H; [repeat constructor|].
  cbn in H. apply orb_false_iff in H as [Hc Hk]. specialize (IH Hk).
  cbn [re_split_digits]. destruct (re_split_digits key) as [|part parts]; [constructor|].
  inversion IH as [|? ? Hp Hps]; subst.
  destruct (is_decimal c).
  - destruct part as [|d part].
    + destruct parts as [|run parts'].
      * repeat constructor. cbn. now rewrite Hc.
      * inversion Hps; subst. constructor; [reflexivity|].
        constructor; [|assumption]. cbn. rewrite Hc. assumption.
    + constructor; [reflexivity|]. constructor; [cbn; now rewrite Hc|].
      now constructor.
  - constructor; [|exact Hps]. cbn. rewrite Hc. exact Hp.
Qed.

(** The key of an item: texts and numbers in turn, a text first, when the
    key can be computed; it cannot when [int] meets a part made of
    superscripts. *)
Lemma alphanum_key_shape s :
  (forall k, alphanum_key s = Returned k -> key_shape true k = true)
  /\ (forall e, alphanum_key s = Raised e -> is_ValueError e = true)
  /\ (has_superscript s = false -> exists k, alphanum_key s = Returned k).
Proof.
  unfold alphanum_key.
  destruct (map_convert_shape true _ (proj1 (re_split_shape s))) as (H1 & H2 & H3).
  split; [exact H1|]. split.
  - intros e He. destruct (H2 e He) as (p & _ & _ & ->). reflexivity.
  - intros Hs. apply H3. now apply re_split_superscripts.
Qed.

End Keys.

(** ** Sorting by the keys *)

Section Sorting_by_key.

Local Abbreviation item := (string * list atom)%type.
Local Abbreviation item_le := (fun x y : item => key_le (snd x) (snd y)).
Local Abbreviation good := (fun x : item => key_shape true (snd x) = true).
Local Abbreviation has_key k := (fun y : item => snd y = k).

(** Where [insert_by_key] puts an item: behind the items that are not
    greater, in front of those that are. *)
Lemma insert_by_key_spec x l :
  good x -> Forall good l -> StronglySorted item_le l ->
  exists l1 l2,
    l = l1 ++ l2
    /\ insert_by_key x l = Some (l1 ++ x :: l2)
    /\ Forall (fun y => tuple_lt (snd x) (snd y) = Some false) l1
    /\ Forall (fun y => tuple_lt (snd x) (snd y) = Some true) l2.
Proof.
  intros Hx. induction l as [|y l IH]; intros Hl Hs.
  - exists [], []. repeat split; constructor.
  - inversion Hl as [|? ? Hy Hl']; subst.
    apply StronglySorted_inv in Hs as [Hs Hyl].
    cbn [insert_by_key].
    destruct (tuple_lt_defined true _ _ Hx Hy) as [[|] Hxy]; rewrite Hxy.
    + exists [], (y :: l). split; [reflexivity|]. split; [reflexivity|].
      split; [constructor|]. constructor; [exact Hxy|].
      rewrite Forall_forall in Hyl, Hl' |- *. intros z Hz.
      apply (key_lt_le_trans true (snd x) (snd y) (snd z)); auto.
    + destruct (IH Hl' Hs) as (l1 & l2 & -> & -> & H1 & H2).
      exists (y :: l1), l2. split; [reflexivity|]. split; [reflexivity|].
      split; [constructor; assumption | exact H2].
Qed.

Lemma sort_by_key_spec todo :
  forall sorted,
    Forall good sorted -> Forall good todo -> StronglySorted item_le sorted ->
    exists r,
      sort_by_key sorted todo = Some r
      /\ r ≡ₚ sorted ++ todo
      /\ StronglySorted item_le r
      /\ forall k, filter (has_key k) r
                   = filter (has_key k) sorted ++ filter (has_key k) todo.
Proof.
  induction todo as [|x todo IH]; intros sorted Hg Ht Hs.
  - exists sorted. rewrite app_nil_r. repeat split; auto.
    intros k. now rewrite app_nil_r.
  - inversion Ht as [|? ? Hx Ht']; subst. cbn [sort_by_key].
    destruct (insert_by_key_spec x sorted Hx Hg Hs) as (l1 & l2 & -> & -> & H1 & H2).
    apply Forall_app in Hg as [Hg1 Hg2].
    apply StronglySorted_app in Hs as (H12 & Hs1 & Hs2).
    destruct (IH (l1 ++ x :: l2)) as (r & -> & Hperm & Hsr & Hfil).
    + apply Forall_app. split; [exact Hg1|]. now constructor.
    + exact Ht'.
    + apply StronglySorted_app. split; [|split; [exact Hs1|]].
      * intros y z Hy Hz. apply elem_of_cons in Hz as [-> | Hz].
        -- rewrite Forall_forall in H1. exact (H1 y Hy).
        -- now apply H12.
      * constructor; [exact Hs2|].
        rewrite Forall_forall in H2 |- *. intros z Hz.
        apply tuple_lt_asym. exact (H2 z Hz).
    + exists r. split; [reflexivity|]. split; [|split; [exact Hsr|]].
      * rewrite Hperm. rewrite <- !app_assoc. cbn [app].
        apply Permutation_app_head. apply Permutation_middle.
      * intros k. rewrite Hfil, !filter_app, !filter_cons, <- !app_assoc.
        f_equal. destruct (decide (has_key k x)) as [Hk|Hk]; [|reflexivity].
        assert (Hnone : filter (has_key k) l2 = []).
        { clear - H2 Hk. induction H2 as [|z l2 Hz _ IH]; [reflexivity|].
          rewrite filter_cons. destruct (decide (snd z = k)) as [Hkz|_]; [|exact IH].
          cbv beta in Hk. rewrite Hk, Hkz, tuple_lt_irrefl in Hz. discriminate. }
        rewrite Hnone. reflexivity.
Qed.

Lemma with_keys_spec l keyed :
  with_keys l = Returned keyed ->
  keyed = map (fun s => (s, key_of s)) l /\ Forall good keyed.
Proof.
  revert keyed. induction l as [|s l IH]; intros keyed; cbn [with_keys].
  - intros [= <-]. split; [reflexivity|constructor].
  - unfold key_of at 1. destruct (alphanum_key s) as [k|e] eqn:Hk; [|discriminate].
    cbn [outcome_bind]. destruct (with_keys l) as [ks|e]; [|discriminate].
    cbn [outcome_bind]. intros [= <-]. destruct (IH ks eq_refl) as [-> Hg].
    split; [cbn; unfold key_of; now rewrite Hk|].
    constructor; [|exact Hg]. cbn. exact (proj1 (alphanum_key_shape s) k Hk).
Qed.

Lemma with_keys_raises l e :
  with_keys l = Raised e -> is_ValueError e = true.
Proof.
  induction l as [|s l IH]; cbn [with_keys]; [discriminate|].
  destruct (alphanum_key s) as [k|e'] eqn:Hk; cbn [outcome_bind].
  - destruct (with_keys l) as [ks|e'']; cbn [outcome_bind]; [discriminate|].
    intros [= <-]. now apply IH.
  - intros [= <-]. exact (proj1 (proj2 (alphanum_key_shape s)) e' Hk).
Qed.

Lemma with_keys_returns l :
  Forall (fun s => has_superscript s = false) l -> exists keyed, with_keys l = Returned keyed.
Proof.
  induction 1 as [|s l Hs _ [ks IH]]; cbn [with_keys]; [eauto|].
  destruct (proj2 (proj2 (alphanum_key_shape s)) Hs) as [k ->]. rewrite IH. cbn. eauto.
Qed.

Lemma sorted_items_fst (l : list item) :
  Forall (fun y => snd y = key_of (fst y)) l ->
  StronglySorted item_le l ->
  StronglySorted (fun s t => key_le (key_of s) (key_of t)) (map fst l)
  /\ forall k, filter (fun s => key_of s = k) (map fst l) = map fst (filter (has_key k) l).
Proof.
  induction 1 as [|y l Hy Hl IH]; intros Hs; [split; [constructor|reflexivity]|].
  apply StronglySorted_inv in Hs as [Hs Hyl]. destruct (IH Hs) as [IH1 IH2].
  split.
  - cbn [map]. constructor; [exact IH1|].
    rewrite Forall_forall in Hyl, Hl. apply Forall_forall. intros t Ht.
    apply list_elem_of_In, in_map_iff in Ht as (z & <- & Hz).
    apply list_elem_of_In in Hz. rewrite <- Hy, <- (Hl z Hz). exact (Hyl z Hz).
  - intros k. cbn [map]. rewrite !filter_cons, IH2. cbv beta. rewrite <- Hy.
    destruct (decide (snd y = k)); reflexivity.
Qed.

End Sorting_by_key.

(** ** natsort_ints *)

Section Natural_sort.


(** X15: What [natsort_ints] returns is the items in another order,
    ascending by their keys, and items with the same key stay in the order
    in which they came. *)
Theorem natsort_ints_sorts l r :
  natsort_ints l = Sorted_list r ->
  r ≡ₚ l
  /\ StronglySorted (fun s t => key_le (key_of s) (key_of t)) r
  /\ forall k, filter (fun s => key_of s = k) r = filter (fun s => key_of s = k) l.
Proof.
  unfold natsort_ints. destruct (with_keys l) as [keyed|e] eqn:Hk; [|discriminate].
  destruct (with_keys_spec l keyed Hk) as [-> Hg].
  destruct (sort_by_key_spec _ [] ltac:(constructor) Hg ltac:(constructor))
    as (sorted & -> & Hperm & Hs & Hfil).
  intros [= <-]. cbn [app] in Hperm.
  assert (Hfst : map fst (map (fun s => (s, key_of s)) l) = l).
  { rewrite map_map. cbn. apply map_id. }
  assert (Hkeys : Forall (fun y : string * list atom => snd y = key_of (fst y)) sorted).
  { rewrite Hperm. apply Forall_forall. intros y Hy.
    apply list_elem_of_In, in_map_iff in Hy as (s & <- & _). reflexivity. }
  destruct (sorted_items_fst sorted Hkeys Hs) as [H1 H2].
  split; [|split; [exact H1|]].
  - rewrite <- Hfst. now apply Permutation_map.
  - intros k. rewrite H2, Hfil, filter_nil. cbn [app].
    clear. induction l as [|s l IH]; [reflexivity|].
    cbn [map]. rewrite !filter_cons. cbn [snd].
    destruct (decide (key_of s = k)); cbn [map fst]; now rewrite IH.
Qed.

End Natural_sort.

Section Numbers_by_value.

Import PyStr.

Lemma re_split_run d :
  truthy d = true -> all_decimal d = true -> re_split_digits d = [""; d; ""].
Proof.
  induction d as [|c d IH]; [discriminate|]. intros _ H.
  cbn in H. apply andb_true_iff in H as [Hc Hd]. cbn [re_split_digits].
  destruct d as [|c' d'].
  - cbn. now rewrite Hc.
  - rewrite IH by (reflexivity || exact Hd). now rewrite Hc.
Qed.

Lemma re_split_text p rest part parts :
  no_decimal p = true -> re_split_digits rest = part :: parts ->
  re_split_digits (p +:+ rest) = (p +:+ part) :: parts.
Proof.
  intros Hp Hr. induction p as [|c p IH]; [exact Hr|].
  cbn in Hp. apply andb_true_iff in Hp as [Hc Hp]. apply negb_true_iff in Hc.
  change (String c p +:+ rest) with (String c (p +:+ rest)).
  cbn [re_split_digits]. rewrite (IH Hp), Hc. reflexivity.
Qed.

Lemma uint_all_decimal d : all_decimal (NilEmpty.string_of_uint d) = true.
Proof. induction d; cbn; auto. Qed.

Lemma of_nat_decimal n : truthy (of_nat n) = true /\ all_decimal (of_nat n) = true.
Proof.
  unfold of_nat, NilZero.string_of_uint.
  destruct (Nat.to_uint n) eqn:Hn; (split; [reflexivity|]);
    try reflexivity; rewrite <- Hn at 1; rewrite Hn; apply uint_all_decimal.
Qed.

Lemma key_of_numbered p n :
  no_decimal p = true -> has_superscript p = false ->
  alphanum_key (p +:+ of_nat n) = Returned [Text p; Number (Z.of_nat n); Text ""].
Proof.
  intros Hp Hs. destruct (of_nat_decimal n) as [Ht Hd]. unfold alphanum_key.
  rewrite (re_split_text p (of_nat n) "" [of_nat n; ""] Hp (re_split_run _ Ht Hd)).
  rewrite str_app_nil_r. cbn [map_outcome].
  destruct (convert_text p Hp) as [-> | [_ Hsup]]; [|congruence].
  cbn [outcome_bind]. unfold convert at 1. unfold isdigit.
  rewrite Ht, (decimal_isdigit _ Hd). cbn [andb]. unfold py_int.
  rewrite int_of_nat. reflexivity.
Qed.

(** X16: Numbers count by their value, not by their digits: of two items
    with the same text in front of a number, the one with the smaller
    number comes first, whichever comes first as text. *)
Theorem natsort_ints_numbers_by_value p n m :
  no_decimal p = true -> has_superscript p = false -> n < m ->
  natsort_ints [p +:+ of_nat m; p +:+ of_nat n]
  = Sorted_list [p +:+ of_nat n; p +:+ of_nat m].
Proof.
  intros Hp Hs Hnm. unfold natsort_ints. cbn [with_keys].
  rewrite !key_of_numbered by assumption. cbn [outcome_bind sort_by_key insert_by_key snd].
  cbn [tuple_lt atom_eqb]. rewrite String.eqb_refl.
  destruct (Z.eqb_spec (Z.of_nat n) (Z.of_nat m)) as [He|_]; [lia|].
  cbn [atom_lt]. destruct (Z.ltb_spec (Z.of_nat n) (Z.of_nat m)); [|lia].
  reflexivity.
Qed.

End Numbers_by_value.

Lemma natsort_ints_numbers_by_value_witness :
  natsort_ints ["file10"; "file2"] = Sorted_list ["file2"; "file10"]
  /\ str_lt "file10" "file2" = true.
Proof.
  split; [|reflexivity].
  apply (natsort_ints_numbers_by_value "file" 2 10); [reflexivity | reflexivity | lia].
Defined.

Lemma natsort_ints_sorts_witness :
  ["a007"; "a7"; "file2"; "file10"] ≡ₚ ["file10"; "a007"; "file2"; "a7"].
Proof.
  apply (natsort_ints_sorts ["file10"; "a007"; "file2"; "a7"]
           ["a007"; "a7"; "file2"; "file10"]).
  vm_compute. reflexivity.
Defined.

(** * One instance after the other, on the abstract address *)

Section Abstract_life_cycle.

Import Posix Race.

Variable appname : string.
Variable is_macos : bool.
Variable group_id : option string.

Local Abbreviation P0 := (SingleInstance_call appname is_macos group_id).
Local Abbreviation addr_of w := (the_address appname group_id (plat w)).

(** A process that finds the abstract address free becomes the primary:
    its new socket holds the address and listens, and one cleanup is
    registered, for the socket alone. *)
Lemma abstract_acquire a w :
  abstract_ns (plat w) = true ->
  abstract w !! addr_of w = None ->
  let s := fresh (dom (sockets w)) in
  exists t,
    exec (kernel a) P0 w
    = (Returned (Some true),
       Build_world (plat w) (files w) (<[addr_of w := s]> (abstract w)) (locks w) (fds w)
         (<[s := Build_socket a (Listening (addr_of w)) false]> (sockets w))
         (<[a := Build_proc (Some s) ((s, None) :: p_atexit (the_proc a w))]> (procs w)),
       t).
Proof.
  intros Hns Ha s. unfold SingleInstance_call, the_address in *.
  set (addr := String NUL (instance_name appname (euid (plat w)) group_id)) in *.
  kstep. unfold k_socket. kstep. fold s.
  unfold k_bind, state_of. kstep. rewrite lookup_insert_eq. kstep.
  change (String NUL (instance_name appname (euid (plat w)) group_id)) with addr.
  change (is_abstract addr) with true. cbv iota. rewrite Hns, Ha.
  unfold set_state. kstep. rewrite alter_insert_eq. kstep.
  erewrite k_listen_ok; [|unfold state_of; kstep; now rewrite lookup_insert_eq].
  unfold set_state. kstep. rewrite alter_insert_eq. kstep.
  unfold k_set_socket, the_proc. kstep.
  erewrite k_set_inheritable_ok; [|kstep; apply lookup_insert_eq|discriminate].
  kstep. unfold k_atexit, the_proc. kstep.
  rewrite !lookup_insert_eq. kstep. rewrite !insert_insert_eq.
  eexists. reflexivity.
Qed.

(** A process that finds the address held by a listening socket
    connects to it and is a secondary. *)
Lemma abstract_join b w t0 :
  abstract_ns (plat w) = true ->
  abstract w !! addr_of w = Some t0 ->
  is_listening t0 w = true ->
  let s := fresh (dom (sockets w)) in
  exists t,
    exec (kernel b) P0 w
    = (Returned (Some false),
       Build_world (plat w) (files w) (abstract w) (locks w) (fds w)
         (<[s := Build_socket b (Connected t0) false]> (sockets w))
         (<[b := Build_proc (Some s) (p_atexit (the_proc b w))]> (procs w)),
       t).
Proof.
  intros Hns Ha Hl s. unfold SingleInstance_call, the_address in *.
  set (addr := String NUL (instance_name appname (euid (plat w)) group_id)) in *.
  assert (Hs : sockets w !! s = None) by apply fresh_sock_None.
  assert (Hts : t0 <> s).
  { intros ->. unfold is_listening, state_of in Hl. now rewrite Hs in Hl. }
  kstep. unfold k_socket. kstep. fold s.
  unfold k_bind, state_of. kstep. rewrite lookup_insert_eq. kstep.
  change (String NUL (instance_name appname (euid (plat w)) group_id)) with addr.
  change (is_abstract addr) with true. cbv iota. rewrite Hns, Ha. kstep.
  unfold k_connect, state_of, target. kstep. rewrite lookup_insert_eq. kstep.
  change (is_abstract addr) with true. cbv iota. rewrite Ha.
  assert (Hl' : is_listening t0
                  (with_sockets (<[s := Build_socket b Fresh false]> (sockets w)) w) = true).
  { rewrite <- Hl. apply is_listening_eq. cbn. now apply lookup_insert_ne. }
  rewrite Hl'. unfold set_state. kstep. rewrite alter_insert_eq. kstep.
  unfold k_set_socket, the_proc. kstep.
  eexists. reflexivity.
Qed.

(** X17: On the abstract address one instance follows the other.  Where
    the address is free, the first process becomes the primary; as long as
    it lives, the next process becomes a secondary, connected to it; once
    it has exited or was killed the address is free again, nothing is left
    behind, and the next process becomes the primary. *)
Theorem abstract_address_changes_hands a b w :
  a <> b ->
  abstract_ns (plat w) = true ->
  abstract w !! addr_of w = None ->
  p_atexit (the_proc a w) = [] ->
  let x := exec (kernel a) P0 w in
  let w1 := world_of x in
  let y := exec (kernel b) P0 w1 in
  result_of x = Returned (Some true)
  /\ result_of y = Returned (Some false)
  /\ connected_to b a (world_of y)
  /\ abstract (exit_process a w1) !! addr_of w = None
  /\ abstract (kill_process a w1) !! addr_of w = None
  /\ result_of (exec (kernel b) P0 (exit_process a w1)) = Returned (Some true)
  /\ result_of (exec (kernel b) P0 (kill_process a w1)) = Returned (Some true)
  /\ result_of (exec (kernel b) P0 (kill_process a (world_of y))) = Returned (Some true).
Proof.
  intros Hab Hns Ha Hat x w1 y.
  destruct (abstract_acquire a w Hns Ha) as [t Hx].
  set (s := fresh (dom (sockets w))) in *. set (addr := addr_of w) in *.
  subst y w1 x. rewrite Hx. cbn [result_of world_of fst snd].
  set (w1 := Build_world _ _ _ _ _ _ _).
  assert (Hs1 : sockets w1 !! s = Some (Build_socket a (Listening addr) false))
    by (cbn; apply lookup_insert_eq).
  assert (Ha1 : abstract w1 !! addr_of w1 = Some s) by (cbn; apply lookup_insert_eq).
  assert (Hl1 : is_listening s w1 = true).
  { unfold is_listening, state_of. now rewrite Hs1. }
  destruct (abstract_join b w1 s Hns Ha1 Hl1) as [t2 Hy]. rewrite Hy.
  cbn [result_of world_of fst snd].
  set (s2 := fresh (dom (sockets w1))) in *.
  set (w2 := Build_world _ _ _ _ _ _ _).
  assert (Hs2 : sockets w1 !! s2 = None) by apply fresh_sock_None.
  assert (Hne : s <> s2) by (intros Heq; rewrite <- Heq, Hs1 in Hs2; discriminate).
  assert (Hown : forall v, sockets v !! s = Some (Build_socket a (Listening addr) false) ->
                           owned_by a v s = true).
  { intros v Hv. unfold owned_by. rewrite Hv. cbn. apply Nat.eqb_refl. }
  assert (Hfree : forall v, plat v = plat w -> abstract v !! addr = Some s ->
                            owned_by a v s = true ->
                            abstract (reap a v) !! addr = None).
  { intros v _ Hv Ho. cbn. apply map_lookup_filter_None. right.
    intros t1 Ht1. rewrite Hv in Ht1. injection Ht1 as <-. cbn. now rewrite Ho. }
  assert (Hnext : forall v, plat v = plat w -> abstract v !! addr = None ->
                            result_of (exec (kernel b) P0 v) = Returned (Some true)).
  { intros v Hp Hv. destruct (abstract_acquire b v) as [t3 ->].
    - now rewrite Hp.
    - unfold the_address. rewrite Hp. exact Hv.
    - reflexivity. }
  assert (Hexit : plat (world_of (run_atexit a w1)) = plat w
                  /\ abstract (world_of (run_atexit a w1)) !! addr = None).
  { unfold run_atexit, the_proc. subst w1. cbn [procs].
    rewrite lookup_insert_eq. cbn [default p_atexit]. rewrite Hat. unfold id.
    cbn [p_atexit run_handlers]. unfold remove_socket_file. kstep.
    unfold k_close, state_of. kstep. rewrite lookup_insert_eq. kstep.
    unfold release_name. change (is_abstract addr) with true. cbv iota.
    unfold set_state. kstep. cbn [world_of fst snd plat abstract].
    split; [reflexivity|]. apply lookup_delete_eq. }
  destruct Hexit as [Hexit_plat Hexit_free].
  assert (Hreap_free : forall v, abstract v !! addr = None ->
                                 abstract (reap a v) !! addr = None).
  { intros v Hv. cbn. apply map_lookup_filter_None. now left. }
  split; [reflexivity|]. split; [reflexivity|]. split; [|split; [|split; [|split; [|split]]]].
  - assert (Hs12 : sockets w2 !! s = Some (Build_socket a (Listening addr) false)).
    { subst w2. cbn [sockets]. rewrite lookup_insert_ne by congruence. exact Hs1. }
    exists s2, s. split; [|split; [|split]].
    + unfold the_proc. subst w2. cbn [procs]. now rewrite lookup_insert_eq.
    + unfold state_of. subst w2. cbn [sockets]. now rewrite lookup_insert_eq.
    + unfold is_listening, state_of. now rewrite Hs12.
    + now apply Hown.
  - unfold exit_process. now apply Hreap_free.
  - apply Hfree; [reflexivity|exact Ha1|now apply Hown].
  - apply Hnext; [exact Hexit_plat|]. unfold exit_process. now apply Hreap_free.
  - apply Hnext; [reflexivity|]. apply Hfree; [reflexivity|exact Ha1|now apply Hown].
  - apply Hnext; [reflexivity|]. apply Hfree; [reflexivity|exact Ha1|].
    apply Hown. subst w2. cbn. now rewrite lookup_insert_ne by congruence.
Qed.

End Abstract_life_cycle.

Lemma abstract_address_changes_hands_witness :
  result_of (exec (Posix.kernel 2) (SingleInstance_call "kitty" false None)
               (Posix.kill_process 1
                  (world_of (exec (Posix.kernel 1) (SingleInstance_call "kitty" false None)
                               (Demo.boot Demo.linux)))))
  = Returned (Some true).
Proof.
  pose proof (abstract_address_changes_hands "kitty" false None 1 2 (Demo.boot Demo.linux)
                ltac:(discriminate) eq_refl eq_refl eq_refl) as H.
  cbv zeta in H. destruct H as (_ & _ & _ & _ & _ & _ & H & _). exact H.
Defined.

(** * One instance after the other, on the lock file *)

Section Lock_life_cycle.

Import Posix Race.

(** A process that finds the lock held and the socket of the holder
    listening at the socket path connects to it and is a secondary. *)
Lemma body_join b q w stem s0 :
  let path := stem +:+ ".lock" in
  let sp := stem +:+ ".sock" in
  is_abstract stem = false ->
  (files w !! path = None \/ files w !! path = Some (File true)) ->
  locks w !! path = Some q -> q <> b ->
  files w !! sp = Some (Socket_file s0) ->
  is_listening s0 w = true ->
  let f := fresh (dom (fds w)) in
  let s := fresh (dom (sockets w)) in
  exists t,
    exec (kernel b) (single_instance_unix_body path) w
    = (Returned (Return false),
       Build_world (plat w) (<[path := File true]> (files w)) (abstract w) (locks w)
         (<[f := (b, path)]> (fds w))
         (<[s := Build_socket b (Connected s0) false]> (sockets w))
         (<[b := Build_proc (Some s) (p_atexit (the_proc b w))]> (procs w)),
       t).
Proof.
  intros path sp Habs Hfile Hlock Hq Hsock Hl f s.
  assert (Hsp : is_abstract sp = false) by now apply is_abstract_ext.
  assert (Hne : path <> sp) by apply lock_sock_differ.
  assert (Hs : sockets w !! s = None) by apply fresh_sock_None.
  assert (Hts : s0 <> s).
  { intros ->. unfold is_listening, state_of in Hl. now rewrite Hs in Hl. }
  unfold single_instance_unix_body. subst path.
  rewrite socket_path_of_lock. fold sp. set (path := stem +:+ ".lock") in *.
  kstep. rewrite (k_open_ok _ _ _ Hfile). fold f. kstep.
  erewrite k_lockf_denied; [|apply lookup_insert_eq|exact Hlock|exact Hq]. kstep.
  unfold k_socket. kstep. fold s.
  unfold k_connect, state_of, target. kstep. rewrite lookup_insert_eq. kstep.
  rewrite Hsp. rewrite lookup_insert_ne by exact Hne. rewrite Hsock.
  match goal with
  | |- context [is_listening s0 ?v] =>
      replace (is_listening s0 v) with true
        by (rewrite <- Hl; symmetry; apply is_listening_eq; cbn;
            now apply lookup_insert_ne)
  end.
  unfold set_state. kstep. rewrite alter_insert_eq. kstep.
  unfold k_set_socket, the_proc. kstep.
  eexists. reflexivity.
Qed.

(** X18: On the lock file one instance follows the other.  Where the lock
    file can be opened and is not locked, the first process becomes the
    primary; as long as it lives, the next process becomes a secondary,
    connected to it.  Once the primary has exited, the socket path is gone
    and the next process becomes the primary without an unlink; once it
    was killed, its socket file is left behind, and the next process
    becomes the primary after one unlink. *)
Theorem lock_file_changes_hands a b w stem :
  let path := stem +:+ ".lock" in
  let sp := stem +:+ ".sock" in
  a <> b ->
  is_abstract stem = false ->
  (files w !! path = None \/ files w !! path = Some (File true)) ->
  locks w !! path = None ->
  p_atexit (the_proc a w) = [] ->
  let x := exec (kernel a) (single_instance_unix_body path) w in
  let w1 := world_of x in
  let y := exec (kernel b) (single_instance_unix_body path) w1 in
  let after_exit := exec (kernel b) (single_instance_unix_body path) (exit_process a w1) in
  let after_kill := exec (kernel b) (single_instance_unix_body path) (kill_process a w1) in
  result_of x = Returned (Return true)
  /\ result_of y = Returned (Return false)
  /\ connected_to b a (world_of y)
  /\ files (exit_process a w1) !! sp = None
  /\ result_of after_exit = Returned (Return true)
  /\ count is_Unlink (trace_of after_exit) = 0
  /\ is_Some (files (kill_process a w1) !! sp)
  /\ result_of after_kill = Returned (Return true)
  /\ count is_Unlink (trace_of after_kill) = 1.
Proof.
  intros path sp Hab Habs Hfile Hlock Hat x w1 y after_exit after_kill.
  assert (Hne : sp <> path) by apply not_eq_sym, lock_sock_differ.
  destruct (body_primary a w stem Habs Hfile (or_introl Hlock)) as (t & Hx & _).
  fold path sp in Hx.
  set (s := fresh (dom (sockets w))) in *. set (f := fresh (dom (fds w))) in *.
  subst after_exit after_kill y w1 x. rewrite Hx. cbn [result_of world_of fst snd].
  set (w1 := Build_world _ _ _ _ _ _ _).
  assert (Hs1 : sockets w1 !! s = Some (Build_socket a (Listening sp) false))
    by (cbn; apply lookup_insert_eq).
  assert (Hl1 : is_listening s w1 = true).
  { unfold is_listening, state_of. now rewrite Hs1. }
  assert (Hf1 : files w1 !! path = Some (File true)).
  { cbn. rewrite lookup_insert_ne by exact Hne. apply lookup_insert_eq. }
  assert (Hsp1 : files w1 !! sp = Some (Socket_file s)) by (cbn; apply lookup_insert_eq).
  assert (Hk1 : locks w1 !! path = Some a) by (cbn; apply lookup_insert_eq).
  destruct (body_join b a w1 stem s Habs (or_intror Hf1) Hk1 Hab Hsp1 Hl1) as [t2 Hy].
  fold path in Hy. rewrite Hy. cbn [result_of world_of fst snd].
  set (s2 := fresh (dom (sockets w1))) in *.
  set (w2 := Build_world _ _ _ _ _ _ _).
  assert (Hs2 : sockets w1 !! s2 = None) by apply fresh_sock_None.
  assert (Hss : s <> s2) by (intros Heq; rewrite <- Heq, Hs1 in Hs2; discriminate).
  (* the exit of the primary *)
  assert (Hreg : p_atexit (the_proc a w1) = [(s, Some sp)]).
  { unfold the_proc at 1. subst w1. cbn [procs]. rewrite lookup_insert_eq.
    cbn [default p_atexit]. unfold id. cbn [p_atexit]. now rewrite Hat. }
  assert (Htruthy : PyStr.truthy_opt (Some sp) = true) by (subst sp; now destruct stem).
  assert (Hexit : files (exit_process a w1) !! path = Some (File true)
                  /\ files (exit_process a w1) !! sp = None
                  /\ locks (exit_process a w1) !! path = None).
  { unfold exit_process, run_atexit. rewrite Hreg. cbn [run_handlers].
    destruct (remove_socket_file_effect a s (Some sp) w1)
      as (_ & Hlk & _ & _ & Hfl & _).
    pose proof (remove_socket_file_on_kernel a s (Some sp) w1) as Hret.
    destruct (exec (kernel a) (remove_socket_file s (Some sp)) w1) as [[o w3] t3].
    cbn [result_of world_of fst snd] in *. subst o. cbn [world_of fst snd].
    rewrite reap_files, Hfl, Htruthy. cbn [default].
    split; [|split].
    - rewrite lookup_delete_ne by exact Hne. exact Hf1.
    - apply lookup_delete_eq.
    - apply reap_unlocks. rewrite Hlk. exact Hk1. }
  destruct Hexit as (He1 & He2 & He3).
  destruct (body_primary b (exit_process a w1) stem Habs (or_intror He1) (or_introl He3))
    as (t3 & Hx3 & _ & Hnone).
  fold path sp in Hx3, Hnone.
  (* the primary is killed *)
  assert (Hkill : files (kill_process a w1) !! path = Some (File true)
                  /\ files (kill_process a w1) !! sp = Some (Socket_file s)
                  /\ locks (kill_process a w1) !! path = None).
  { unfold kill_process. rewrite reap_files. split; [exact Hf1|]. split; [exact Hsp1|].
    now apply reap_unlocks. }
  destruct Hkill as (Hk1' & Hk2 & Hk3).
  destruct (body_primary b (kill_process a w1) stem Habs (or_intror Hk1') (or_introl Hk3))
    as (t4 & Hx4 & Hstale & _).
  fold path sp in Hx4, Hstale.
  split; [reflexivity|]. split; [reflexivity|]. split; [|split; [exact He2|]].
  - assert (Hs12 : sockets w2 !! s = Some (Build_socket a (Listening sp) false)).
    { subst w2. cbn [sockets]. rewrite lookup_insert_ne by congruence. exact Hs1. }
    exists s2, s. split; [|split; [|split]].
    + unfold the_proc. subst w2. cbn [procs]. now rewrite lookup_insert_eq.
    + unfold state_of. subst w2. cbn [sockets]. now rewrite lookup_insert_eq.
    + unfold is_listening, state_of. now rewrite Hs12.
    + unfold owned_by. rewrite Hs12. cbn. apply Nat.eqb_refl.
  - rewrite Hx3. cbn [result_of trace_of fst snd]. split; [reflexivity|].
    split; [exact (proj1 (Hnone He2))|].
    split; [rewrite Hk2; eauto|]. rewrite Hx4. cbn [result_of trace_of fst snd].
    split; [reflexivity|]. apply Hstale. rewrite Hk2. eauto.
Qed.

End Lock_life_cycle.

Lemma lock_file_changes_hands_witness :
  result_of (exec (Posix.kernel 2) (single_instance_unix_body "/tmp/kitty-ipc-1000.lock")
               (world_of (exec (Posix.kernel 1)
                            (single_instance_unix_body "/tmp/kitty-ipc-1000.lock")
                            (Demo.boot Demo.bsd))))
  = Returned (Return false).
Proof.
  pose proof (lock_file_changes_hands 1 2 (Demo.boot Demo.bsd) "/tmp/kitty-ipc-1000"
                ltac:(discriminate) eq_refl (or_introl eq_refl) eq_refl eq_refl) as H.
  cbv zeta in H. destruct H as (_ & H & _). exact H.
Defined.
